(** * ceph-csi: clone orchestration and volume-group snapshots

    A shallow embedding of
    - [internal/cephfs/core/clone.go]       (clone state, clone orchestration),
    - [internal/rbd/group/volume_group.go]  (volume groups, group snapshots),
    - [internal/rbd/diff.go]                (Sparsify),
    - [internal/csi-addons/rbd/reclaimspace.go] (ControllerReclaimSpace,
      NodeReclaimSpace) and
    - [internal/controller/controller.go]   (addToManager, Start).

    Go code is translated as state-passing functions over an explicit
    world.  Every call that leaves the translated functions (a Ceph
    primitive, a method of an object that lives in another file) is
    answered by an abstract oracle, the instance of a type class that plays
    the role of the Go interface, and is appended to a chronological list of
    calls.  A deferred closure is a function that runs on the world the body
    left behind. *)

From Stdlib Require Import ZArith.
From stdpp Require Import base tactics option list strings pretty gmap.

Open Scope string_scope.
Open Scope list_scope.
Open Scope nat_scope.

(* set_solver clears hypotheses it has already consumed *)
Set Warnings "-clear-no-such-hyp".

(** ** Go errors *)

Module Errors.

(** A Go [error] value: a sentinel made by [errors.New] (or a library
    constant), or [fmt.Errorf] with one [%w] verb, written
    [errWrapf pre inner post] for the format ["pre%wpost"].  A nil [error]
    is [None : option error].  Go compares sentinels by identity; distinct
    sentinels carry distinct texts here, so structural equality agrees. *)
Inductive error : Type :=
  | errNew (text : string)
  | errWrapf (pre : string) (inner : error) (post : string).

#[global] Instance error_eq_dec : EqDecision error.
Proof. solve_decision. Defined.

(** [err.Error()] *)
Fixpoint Error (e : error) : string :=
  match e with
  | errNew t => t
  | errWrapf pre inner post => (pre ++ Error inner ++ post)%string
  end.

(** [errors.Is(err, target)]: walk the [Unwrap] chain. *)
Fixpoint errIs (err target : error) : bool :=
  if decide (err = target) then true
  else match err with
       | errNew _ => false
       | errWrapf _ inner _ => errIs inner target
       end.

(** [errors.Is] on a possibly nil error. *)
Definition Is (err : option error) (target : error) : bool :=
  match err with
  | None => false
  | Some e => errIs e target
  end.

(** The Go idiom [(T, error)] where the value is only used when the error
    is nil. *)
Inductive result (A : Type) : Type :=
  | Ok (a : A)
  | Err (e : error).
Arguments Ok {A} a.
Arguments Err {A} e.

End Errors.

Export Errors.

(** ** Go control flow as state passing *)

Module Go.

(** A computation over a world [W] that yields an [A]. *)
Definition M (W A : Type) : Type := W -> W * A.

Definition ret {W A} (a : A) : M W A := fun w => (w, a).

Definition bind {W A C} (m : M W A) (k : A -> M W C) : M W C :=
  fun w => let '(w', a) := m w in k a w'.

(** How a Go function call ends: it returns, or it panics and unwinds. *)
Inductive outcome (A : Type) : Type :=
  | Returned (a : A)
  | Panicked.
Arguments Returned {A} a.
Arguments Panicked {A}.

(** A relation between the world before and after holds along a
    computation when it holds for each step. *)
Definition along {W : Type} (R : W -> W -> Prop) {A} (m : M W A) : Prop :=
  forall w w' a, m w = (w', a) -> R w w'.

End Go.

Export Go.

Declare Scope go_scope.
Delimit Scope go_scope with go.
Notation "x <- m ;; k" := (bind m (fun x => k))
  (at level 100, m at next level, right associativity) : go_scope.
Notation "m ;;; k" := (bind m (fun _ => k))
  (at level 100, right associativity) : go_scope.

(** ** Package [core]: CephFS clones *)

Module CephFSCore.

(** *** go-ceph [cephfs/admin] and [internal/cephfs/errors] *)

(** [admin.CloneState] is a string type in go-ceph; the four constants are
    its declared values.  The backend reports the state as text, so other
    strings can occur. *)
Definition CloneState : Type := string.
Definition ClonePending : CloneState := "pending".
Definition CloneInProgress : CloneState := "in-progress".
Definition CloneComplete : CloneState := "complete".
Definition CloneFailed : CloneState := "failed".

Record CloneProgressReport : Type := mkCloneProgressReport {
  PercentageCloned : string;
  AmountCloned : string;
  FilesCloned : string
}.

Record CloneFailure : Type := mkCloneFailure {
  Errno : string;
  ErrStr : string
}.

(** [admin.CloneStatus]; [failure] is what [GetFailure()] returns. *)
Record CloneStatus : Type := mkCloneStatus {
  State : CloneState;
  ProgressReport : CloneProgressReport;
  GetFailure : option CloneFailure
}.

(** The sentinels of [internal/cephfs/errors] (only their identity is
    used). *)
Definition ErrCloneInProgress : error := errNew "ErrCloneInProgress".
Definition ErrClonePending : error := errNew "ErrClonePending".
Definition ErrInvalidClone : error := errNew "ErrInvalidClone".
Definition ErrCloneFailed : error := errNew "ErrCloneFailed".

(** Modelled from the spec: [cerrors.IsCloneRetryError] is not part of the
    translated files.  The spec's error taxonomy names CloneInProgress and
    ClonePending as the retryable errors. *)
Definition IsCloneRetryError (err : error) : bool :=
  errIs err ErrCloneInProgress || errIs err ErrClonePending.

(** *** clone.go: the clone state *)

Record cephFSCloneState : Type := mkCloneState {
  state : CloneState;
  progressReport : CloneProgressReport;
  errno : string;
  errorMsg : string
}.

(** [var CephFSCloneError = &cephFSCloneState{}]: every field has Go's zero
    value. *)
Definition CephFSCloneError : cephFSCloneState :=
  {| state := "";
     progressReport := mkCloneProgressReport "" "" "";
     errno := "";
     errorMsg := "" |}.

(** [ToError]: a Go [switch] takes the first case that is equal; when no
    case is, control reaches the [return nil] after the switch. *)
Definition ToError (cs : cephFSCloneState) : option error :=
  if String.eqb (state cs) CloneComplete then None
  else if String.eqb (state cs) (state CephFSCloneError) then
    Some (errWrapf "" ErrInvalidClone (": " ++ errorMsg cs ++ " (" ++ errno cs ++ ")"))
  else if String.eqb (state cs) CloneInProgress then Some ErrCloneInProgress
  else if String.eqb (state cs) ClonePending then Some ErrClonePending
  else if String.eqb (state cs) CloneFailed then
    Some (errWrapf "" ErrCloneFailed (": " ++ errorMsg cs ++ " (" ++ errno cs ++ ")"))
  else None.

Definition GetProgressReport (cs : cephFSCloneState) : CloneProgressReport :=
  {| PercentageCloned := PercentageCloned (progressReport cs);
     AmountCloned := AmountCloned (progressReport cs);
     FilesCloned := FilesCloned (progressReport cs) |}.

(** *** The subvolume client and what it calls *)

(** [SubVolume]: the fields the translated functions read. *)
Record SubVolume : Type := mkSubVolume {
  VolID : string;
  FsName : string;
  SubvolumeGroup : string;
  Size : Z
}.

(** [subVolumeClient] embeds [*SubVolume]; the connection is the oracle of
    the world. *)
Record subVolumeClient : Type := mkSubVolumeClient {
  sSubVolume : SubVolume;
  clusterID : string;
  clusterName : string;
  enableMetadata : bool
}.

(** [Snapshot] embeds the snapshot ID and the parent [*SubVolume]; it is
    also what [NewSnapshot] builds its client from. *)
Record Snapshot : Type := mkSnapshot {
  SnapshotID : string;
  snapSubVolume : SubVolume
}.

(** [NewSnapshot(conn, snapshotID, clusterID, clusterName, setMetadata,
    volOptions)] *)
Definition NewSnapshot (snapshotID : string) (s : subVolumeClient)
    (volOptions : SubVolume) : Snapshot :=
  {| SnapshotID := snapshotID; snapSubVolume := volOptions |}.

(** The calls that leave clone.go, as the trace records them. *)
Inductive Call : Type :=
  | CallCreateSnapshot (snap : Snapshot)
  | CallDeleteSnapshot (snap : Snapshot)
  | CallCloneSnapshot (snap : Snapshot) (target : SubVolume)
  | CallPurgeVolume (vol : SubVolume) (force : bool)
  | CallExpandVolume (vol : SubVolume) (bytesQuota : Z)
  | CallGetFSAdmin
  | CallCloneStatus (fs group name : string).

#[global] Instance SubVolume_eq_dec : EqDecision SubVolume.
Proof. solve_decision. Defined.
#[global] Instance Snapshot_eq_dec : EqDecision Snapshot.
Proof. solve_decision. Defined.
#[global] Instance Call_eq_dec : EqDecision Call.
Proof. solve_decision. Defined.

(** The answers of the cluster.  [B] is whatever state the cluster keeps;
    an answer may depend on it and change it, so answers can differ from
    one call to the next. *)
Class CephFS (B : Type) : Type := {
  answerCreateSnapshot : Snapshot -> B -> B * option error;
  answerDeleteSnapshot : Snapshot -> B -> B * option error;
  answerCloneSnapshot : Snapshot -> SubVolume -> B -> B * option error;
  answerPurgeVolume : SubVolume -> bool -> B -> B * option error;
  answerExpandVolume : SubVolume -> Z -> B -> B * option error;
  answerGetFSAdmin : B -> B * option error;
  answerCloneStatus : string -> string -> string -> B -> B * result CloneStatus
}.

(** Modelled from the spec: the cluster's snapshot and subvolume primitives
    are not part of the translated files.  The store keeps what the spec
    says of them: objects are found by name, creating one that exists
    changes nothing, a clone starts with its parent's size, a resize sets
    the size that was asked for, deleting removes. *)
Record Store : Type := mkStore {
  snapshots : gset (string * string);   (* (parent volume, snapshot name) *)
  subvolumes : gmap string Z            (* volume name -> size *)
}.

Definition storeCreateSnapshot (snap : Snapshot) (st : Store) : Store :=
  {| snapshots := {[ (VolID (snapSubVolume snap), SnapshotID snap) ]} ∪ snapshots st;
     subvolumes := subvolumes st |}.

Definition storeDeleteSnapshot (snap : Snapshot) (st : Store) : Store :=
  {| snapshots := snapshots st ∖ {[ (VolID (snapSubVolume snap), SnapshotID snap) ]};
     subvolumes := subvolumes st |}.

Definition storeCloneSnapshot (snap : Snapshot) (target : SubVolume) (st : Store) : Store :=
  {| snapshots := snapshots st;
     subvolumes :=
       match subvolumes st !! VolID target with
       | Some _ => subvolumes st
       | None => <[VolID target := default 0%Z (subvolumes st !! VolID (snapSubVolume snap))]>
                   (subvolumes st)
       end |}.

Definition storePurgeVolume (vol : SubVolume) (st : Store) : Store :=
  {| snapshots := snapshots st; subvolumes := delete (VolID vol) (subvolumes st) |}.

Definition storeExpandVolume (vol : SubVolume) (bytesQuota : Z) (st : Store) : Store :=
  {| snapshots := snapshots st; subvolumes := <[VolID vol := bytesQuota]> (subvolumes st) |}.

(** The world a call runs in: the cluster's answers, the store, the calls
    made so far (oldest first) and the lines written by [log.ErrorLog]. *)
Record World (B : Type) : Type := mkWorld {
  cluster : B;
  store : Store;
  calls : list Call;
  logs : list string
}.
Arguments mkWorld {B} _ _ _ _.
Arguments cluster {B} _.
Arguments store {B} _.
Arguments calls {B} _.
Arguments logs {B} _.

Section Clone.
Context {B : Type} `{CephFS B}.

Local Open Scope go_scope.

(** One outgoing call whose only result is an error: ask the cluster, apply
    the effect to the store when the answer is nil, record the call. *)
Definition perform (c : Call) (answer : B -> B * option error)
    (effect : Store -> Store) : M (World B) (option error) :=
  fun w =>
    let '(b, r) := answer (cluster w) in
    ({| cluster := b;
        store := match r with None => effect (store w) | Some _ => store w end;
        calls := calls w ++ [c];
        logs := logs w |}, r).

(** [log.ErrorLog(ctx, ...)] *)
Definition ErrorLog (line : string) : M (World B) unit :=
  fun w => ({| cluster := cluster w; store := store w; calls := calls w;
               logs := logs w ++ [line] |}, tt).

Definition CreateSnapshot (snapClient : Snapshot) : M (World B) (option error) :=
  perform (CallCreateSnapshot snapClient) (answerCreateSnapshot snapClient)
          (storeCreateSnapshot snapClient).

Definition DeleteSnapshot (snapClient : Snapshot) : M (World B) (option error) :=
  perform (CallDeleteSnapshot snapClient) (answerDeleteSnapshot snapClient)
          (storeDeleteSnapshot snapClient).

Definition CloneSnapshot (snapClient : Snapshot) (cloneSubVol : SubVolume)
    : M (World B) (option error) :=
  perform (CallCloneSnapshot snapClient cloneSubVol)
          (answerCloneSnapshot snapClient cloneSubVol)
          (storeCloneSnapshot snapClient cloneSubVol).

Definition PurgeVolume (s : subVolumeClient) (force : bool) : M (World B) (option error) :=
  perform (CallPurgeVolume (sSubVolume s) force)
          (answerPurgeVolume (sSubVolume s) force)
          (storePurgeVolume (sSubVolume s)).

Definition ExpandVolume (s : subVolumeClient) (bytesQuota : Z) : M (World B) (option error) :=
  perform (CallExpandVolume (sSubVolume s) bytesQuota)
          (answerExpandVolume (sSubVolume s) bytesQuota)
          (storeExpandVolume (sSubVolume s) bytesQuota).

Definition GetFSAdmin : M (World B) (option error) :=
  perform CallGetFSAdmin answerGetFSAdmin (fun st => st).

Definition fsaCloneStatus (fs group name : string) : M (World B) (result CloneStatus) :=
  fun w =>
    let '(b, r) := answerCloneStatus fs group name (cluster w) in
    ({| cluster := b; store := store w;
        calls := calls w ++ [CallCloneStatus fs group name];
        logs := logs w |}, r).

(** [GetCloneState]: the Go function returns a pair, the clone state and
    the error. *)
Definition GetCloneState (s : subVolumeClient)
    : M (World B) (cephFSCloneState * option error) :=
  err <- GetFSAdmin ;;
  match err with
  | Some e =>
      ErrorLog "could not get FSAdmin, can get clone status for volume" ;;;
      ret (CephFSCloneError, Some e)
  | None =>
      r <- fsaCloneStatus (FsName (sSubVolume s)) (SubvolumeGroup (sSubVolume s))
                          (VolID (sSubVolume s)) ;;
      match r with
      | Err e =>
          ErrorLog "could not get clone state for volume" ;;;
          ret (CephFSCloneError, Some e)
      | Ok cs =>
          let '(errno, errStr) :=
            match GetFailure cs with
            | Some failure => (Errno failure, ErrStr failure)
            | None => ("", "")
            end in
          ret ({| state := State cs;
                  progressReport := ProgressReport cs;
                  errno := errno;
                  errorMsg := errStr |}, None)
      end
  end.

(** The statements of [CreateCloneFromSubvolume] that follow the [defer]:
    clone, query, classify, resize, delete the intermediate snapshot.  The
    value is the one the [return] statement hands back; the function's
    result is not named, so it is also the value of the variable [err] that
    the deferred closure reads. *)
Definition CreateCloneFromSubvolume_steps (s : subVolumeClient)
    (snapClient : Snapshot) : M (World B) (option error) :=
  err <- CloneSnapshot snapClient (sSubVolume s) ;;
  match err with
  | Some e => ErrorLog "failed to clone snapshot" ;;; ret (Some e)
  | None =>
      r <- GetCloneState s ;;
      let '(cloneState, err) := r in
      match err with
      | Some e => ErrorLog "failed to get clone state" ;;; ret (Some e)
      | None =>
          match ToError cloneState with
          | Some e => ErrorLog "clone did not complete" ;;; ret (Some e)
          | None =>
              err <- ExpandVolume s (Size (sSubVolume s)) ;;
              match err with
              | Some e => ErrorLog "failed to expand volume" ;;; ret (Some e)
              | None =>
                  err <- DeleteSnapshot snapClient ;;
                  match err with
                  | Some e => ErrorLog "failed to delete snapshot" ;;; ret (Some e)
                  | None => ret None
                  end
              end
          end
      end
  end.

(** The deferred closure of [CreateCloneFromSubvolume].  It assigns to the
    local [err], which nothing reads afterwards. *)
Definition CreateCloneFromSubvolume_deferred (s : subVolumeClient)
    (snapClient : Snapshot) (err : option error) : M (World B) unit :=
  match err with
  | Some e =>
      if negb (IsCloneRetryError e) then
        perr <- PurgeVolume s true ;;
        match perr with
        | Some _ => ErrorLog "failed to delete volume"
        | None => ret tt
        end ;;;
        derr <- DeleteSnapshot snapClient ;;
        match derr with
        | Some _ => ErrorLog "failed to delete snapshot"
        | None => ret tt
        end
      else ret tt
  | None => ret tt
  end.

(** [CreateCloneFromSubvolume] *)
Definition CreateCloneFromSubvolume (s : subVolumeClient)
    (parentvolOpt : SubVolume) : M (World B) (option error) :=
  let snapshotID := VolID (sSubVolume s) in
  let snapClient := NewSnapshot snapshotID s parentvolOpt in
  err <- CreateSnapshot snapClient ;;
  match err with
  | Some e => ErrorLog "failed to create snapshot" ;;; ret (Some e)
  | None =>
      err <- CreateCloneFromSubvolume_steps s snapClient ;;
      CreateCloneFromSubvolume_deferred s snapClient err ;;;
      ret err
  end.

(** [CleanupSnapshotFromSubvolume] *)
Definition CleanupSnapshotFromSubvolume (s : subVolumeClient)
    (parentVol : SubVolume) : M (World B) (option error) :=
  let snapShotID := VolID (sSubVolume s) in
  let snapClient := NewSnapshot snapShotID s parentVol in
  err <- DeleteSnapshot snapClient ;;
  match err with
  | Some e => ErrorLog "failed to delete snapshot" ;;; ret (Some e)
  | None => ret None
  end.

(** The statements of [CreateCloneFromSnapshot] that follow its [defer]. *)
Definition CreateCloneFromSnapshot_steps (s : subVolumeClient)
    : M (World B) (option error) :=
  r <- GetCloneState s ;;
  let '(cloneState, err) := r in
  match err with
  | Some e => ErrorLog "failed to get clone state" ;;; ret (Some e)
  | None =>
      match ToError cloneState with
      | Some e => ret (Some e)
      | None =>
          err <- ExpandVolume s (Size (sSubVolume s)) ;;
          match err with
          | Some e => ErrorLog "failed to expand volume" ;;; ret (Some e)
          | None => ret None
          end
      end
  end.

Definition CreateCloneFromSnapshot_deferred (s : subVolumeClient)
    (err : option error) : M (World B) unit :=
  match err with
  | Some e =>
      if negb (IsCloneRetryError e) then
        dErr <- PurgeVolume s true ;;
        match dErr with
        | Some _ => ErrorLog "failed to delete volume"
        | None => ret tt
        end
      else ret tt
  | None => ret tt
  end.

(** [CreateCloneFromSnapshot] *)
Definition CreateCloneFromSnapshot (s : subVolumeClient) (snap : Snapshot)
    : M (World B) (option error) :=
  let snapID := SnapshotID snap in
  let snapClient := NewSnapshot snapID s (snapSubVolume snap) in
  err <- CloneSnapshot snapClient (sSubVolume s) ;;
  match err with
  | Some e => ret (Some e)
  | None =>
      err <- CreateCloneFromSnapshot_steps s ;;
      CreateCloneFromSnapshot_deferred s err ;;;
      ret err
  end.

End Clone.

(** A cluster that answers every call from a fixed script; it instantiates
    the interface for the examples. *)
Record Script : Type := mkScript {
  onCreateSnapshot : option error;
  onDeleteSnapshot : option error;
  onCloneSnapshot : option error;
  onPurgeVolume : option error;
  onExpandVolume : option error;
  onGetFSAdmin : option error;
  onCloneStatus : result CloneStatus
}.

#[global] Instance scripted : CephFS Script := {|
  answerCreateSnapshot _ b := (b, onCreateSnapshot b);
  answerDeleteSnapshot _ b := (b, onDeleteSnapshot b);
  answerCloneSnapshot _ _ b := (b, onCloneSnapshot b);
  answerPurgeVolume _ _ b := (b, onPurgeVolume b);
  answerExpandVolume _ _ b := (b, onExpandVolume b);
  answerGetFSAdmin b := (b, onGetFSAdmin b);
  answerCloneStatus _ _ _ b := (b, onCloneStatus b)
|}.

(** The cluster that reports the clone in state [st] and lets every other
    call succeed. *)
Definition clusterInState (st : CloneState) (failure : option CloneFailure) : Script :=
  {| onCreateSnapshot := None; onDeleteSnapshot := None; onCloneSnapshot := None;
     onPurgeVolume := None; onExpandVolume := None; onGetFSAdmin := None;
     onCloneStatus := Ok (mkCloneStatus st (mkCloneProgressReport "" "" "") failure) |}.

(** The two calls the compensators make. *)
Definition isPurgeVolume (c : Call) : bool :=
  match c with CallPurgeVolume _ _ => true | _ => false end.

Definition isDeleteSnapshot (c : Call) : bool :=
  match c with CallDeleteSnapshot _ => true | _ => false end.

(** The compensation claim as the specification words it: whenever the
    function ends with a non-retryable error, the calls it made end with
    the purge of the target and the deletion of the intermediate
    snapshot. *)
Definition compensatesEveryTerminalError {B : Type} `{CephFS B}
    (s : subVolumeClient) (parentvolOpt : SubVolume) (w : World B) : Prop :=
  forall w' e,
    CreateCloneFromSubvolume s parentvolOpt w = (w', Some e) ->
    IsCloneRetryError e = false ->
    exists pre,
      calls w' = calls w ++ pre ++
        [CallPurgeVolume (sSubVolume s) true;
         CallDeleteSnapshot (NewSnapshot (VolID (sSubVolume s)) s parentvolOpt)].

Definition emptyStore : Store := {| snapshots := ∅; subvolumes := ∅ |}.

Definition newWorld {B} (b : B) (st : Store) : World B :=
  {| cluster := b; store := st; calls := []; logs := [] |}.

(** The calls made so far only grow, by calls that satisfy [P]. *)
Definition callsOnly {B : Type} (P : Call -> Prop) (w w' : World B) : Prop :=
  exists l, calls w' = calls w ++ l /\ Forall P l.

(** The store gains no snapshot outside [K] and no subvolume outside [V]. *)
Definition gainsAtMost {B : Type} (K : gset (string * string)) (V : gset string)
    (w w' : World B) : Prop :=
  snapshots (store w') ⊆ K ∪ snapshots (store w) /\
  dom (subvolumes (store w')) ⊆ V ∪ dom (subvolumes (store w)).

(** A call other than the purge of the target. *)
Definition notPurge (c : Call) : Prop := isPurgeVolume c = false.


(** The log lines a best-effort step leaves: one when it failed. *)
Definition logged (line : string) (r : option error) : list string :=
  match r with Some _ => [line] | None => [] end.

(** The cluster on which the clone is refused and the purge fails. *)
Definition clusterCloneRefused : Script :=
  {| onCreateSnapshot := None; onDeleteSnapshot := None;
     onCloneSnapshot := Some (errNew "EIO");
     onPurgeVolume := Some (errNew "ENOENT"); onExpandVolume := None;
     onGetFSAdmin := None; onCloneStatus := Err (errNew "unused") |}.

(** The cluster on which the intermediate snapshot cannot be created. *)
Definition clusterSnapshotRefused : Script :=
  {| onCreateSnapshot := Some (errNew "EDQUOT"); onDeleteSnapshot := None;
     onCloneSnapshot := None; onPurgeVolume := None; onExpandVolume := None;
     onGetFSAdmin := None; onCloneStatus := Err (errNew "unused") |}.

(** A 1 GiB parent and the client of a 2 GiB target, for the examples. *)
Definition parentVol : SubVolume :=
  {| VolID := "csi-vol-parent"; FsName := "myfs"; SubvolumeGroup := "csi";
     Size := 1073741824 |}.

Definition targetClient : subVolumeClient :=
  {| sSubVolume := {| VolID := "csi-vol-clone"; FsName := "myfs";
                      SubvolumeGroup := "csi"; Size := 2147483648 |};
     clusterID := "ceph-a"; clusterName := "k8s"; enableMetadata := false |}.

Definition sourceSnap : Snapshot :=
  {| SnapshotID := "csi-snap-1"; snapSubVolume := parentVol |}.

Definition parentStore : Store :=
  {| snapshots := ∅; subvolumes := {[ "csi-vol-parent" := 1073741824%Z ]} |}.

End CephFSCore.

(** ** Package [group]: RBD volume groups *)

Module RBDGroup.

(** *** go-ceph sentinels and the errors of the package *)

Definition librados_ErrNotConnected : error := errNew "rados: not connected".
Definition rados_ErrNotFound : error := errNew "rados: ret=-2".
Definition librbd_ErrNotFound : error := errNew "RBD image not found".
Definition librbd_ErrExist : error := errNew "rbd: ret=-17".
Definition librbd_ErrNotExist : error := errNew "rbd: ret=-2".

Definition ErrRBDGroupNotConnected : error :=
  errWrapf "" librados_ErrNotConnected ": RBD group is not connected".
Definition ErrRBDGroupNotFound : error :=
  errWrapf "" librbd_ErrNotFound ": RBD group not found".

(** *** Objects behind the interfaces of [internal/rbd/types] *)

(** A [types.Volume]: the handle tells objects apart; [GetID] and [GetName]
    read fields of the object and are given by their results. *)
Record Volume : Type := mkVolume {
  volumeHandle : nat;
  Volume_GetID : result string;
  Volume_GetName : result string
}.

(** A [types.Snapshot] object. *)
Record Snapshot : Type := mkSnapshot {
  snapshotHandle : nat
}.

(** [librbd.GroupSnap] and the part of [librbd.GroupSnapInfo] that is
    read. *)
Record GroupSnap : Type := mkGroupSnap {
  Name : string;
  PoolID : Z;
  SnapID : Z
}.

Record GroupSnapInfo : Type := mkGroupSnapInfo {
  Snapshots : list GroupSnap
}.

(** [commonVolumeGroup]: what its getters return once it is initialised. *)
Record commonVolumeGroup : Type := mkCommonVolumeGroup {
  GetID : result string;
  GetName : result string;
  GetPool : result string
}.

(** [util.CSIIdentifier] after [DecomposeCSIID]. *)
Record CSIIdentifier : Type := mkCSIIdentifier {
  ObjectUUID : string
}.

#[global] Instance result_eq_dec `{EqDecision A} : EqDecision (result A).
Proof. solve_decision. Defined.
#[global] Instance Volume_eq_dec : EqDecision Volume.
Proof. solve_decision. Defined.
#[global] Instance Snapshot_eq_dec : EqDecision Snapshot.
Proof. solve_decision. Defined.

(** *** Go slices of [types.Volume] *)

(** A backing array: the cells written so far and the capacity it was
    allocated with.  Cells past the written ones hold nil and are in no
    slice's range. *)
Record array : Type := mkArray {
  cells : list Volume;
  acap : nat
}.

(** A slice header: backing array (an index in the heap), length,
    capacity.  The nil slice and [make([]T, 0)] have length and capacity
    0 and never touch an array. *)
Record slice : Type := mkSlice {
  sl_arr : nat;
  sl_len : nat;
  sl_cap : nat
}.

Definition nilSlice : slice := {| sl_arr := 0; sl_len := 0; sl_cap := 0 |}.

(** The capacity the runtime picks when [append] has to allocate: given the
    old capacity and the length needed. *)
Class Runtime : Type := {
  growslice : nat -> nat -> nat
}.

(** The elements a slice ranges over. *)
Definition elements (h : list array) (s : slice) : list Volume :=
  match h !! sl_arr s with
  | Some a => take (sl_len s) (cells a)
  | None => []
  end.

(** [append(s, v)]: with spare capacity the element is written in place
    into the shared backing array, at index [len(s)]; otherwise a new array
    receives a copy of the elements and [v]. *)
Definition appendSlice `{Runtime} (h : list array) (s : slice) (v : Volume)
    : list array * slice :=
  if sl_len s <? sl_cap s then
    (alter (fun a => {| cells := take (sl_len s) (cells a) ++ [v]
                                 ++ drop (S (sl_len s)) (cells a);
                        acap := acap a |}) (sl_arr s) h,
     {| sl_arr := sl_arr s; sl_len := S (sl_len s); sl_cap := sl_cap s |})
  else
    let newcap := growslice (sl_cap s) (S (sl_len s)) in
    (h ++ [{| cells := elements h s ++ [v]; acap := newcap |}],
     {| sl_arr := length h; sl_len := S (sl_len s); sl_cap := newcap |}).

(** A slice of the heap: empty without capacity, or within the written
    cells of an allocated array. *)
Definition valid (h : list array) (s : slice) : Prop :=
  (sl_len s = 0 /\ sl_cap s = 0) \/
  (exists a, h !! sl_arr s = Some a /\ sl_len s <= length (cells a)).

(** An [append] through [s] that writes in place does not write into the
    range of [t]. *)
Definition separate (s t : slice) : Prop :=
  sl_len s < sl_cap s -> sl_arr s = sl_arr t -> sl_len t <= sl_len s.

(** [volumeGroup] *)
Record volumeGroup : Type := mkVolumeGroup {
  common : commonVolumeGroup;
  volumes : slice;
  volumesToFree : slice
}.

(** The group owns [L]: [volumesToFree] ranges over [L], and no append
    through [volumes] can write into that range. *)
Definition owns (L : list Volume) (h : list array) (vg : volumeGroup) : Prop :=
  valid h (volumesToFree vg) /\ elements h (volumesToFree vg) = L /\
  valid h (volumes vg) /\ separate (volumes vg) (volumesToFree vg).

(** *** The calls that leave volume_group.go *)

Inductive Call : Type :=
  | CallInitCommonVolumeGroup (id csiDriver : string)
  | CallGetVolumeGroupAttributes
  | CallGetVolumeByID (volID : string)
  | CallVolumeDestroy (v : Volume)
  | CallCommonDestroy
  | CallAddToGroup (v : Volume)
  | CallRemoveFromGroup (v : Volume)
  | CallGetJournal
  | CallAddVolumesMapping (pool uuid : string) (toAdd : list (string * string))
  | CallRemoveVolumesMapping (pool uuid : string) (mapping : list string)
  | CallGetIOContext
  | CallGroupSnapCreate (group name : string)
  | CallGroupSnapRemove (group name : string)
  | CallGroupSnapGetInfo (group name : string)
  | CallNewSnapshotByID (v : Volume) (snapName : string) (snapID : Z)
  | CallSnapshotDestroy (sn : Snapshot).

#[global] Instance Call_eq_dec : EqDecision Call.
Proof. solve_decision. Defined.

(** The answers of the cluster, the journal and the objects.
    [answerGetVolumeGroupAttributes] gives the keys of [attrs.VolumeMap] in
    the order in which the [range] statement visits them, which Go leaves
    unspecified.  [answerNewSnapshotByID] gives both components of the Go
    result. *)
Class RBD (B : Type) : Type := {
  answerInitCommonVolumeGroup : string -> string -> B -> B * result commonVolumeGroup;
  answerGetVolumeGroupAttributes : commonVolumeGroup -> B -> B * result (list string);
  answerGetVolumeByID : string -> B -> B * result Volume;
  answerAddToGroup : Volume -> B -> B * option error;
  answerRemoveFromGroup : Volume -> B -> B * option error;
  DecomposeCSIID : string -> result CSIIdentifier;
  answerGetJournal : B -> B * option error;
  answerAddVolumesMapping : string -> string -> list (string * string) -> B -> B * option error;
  answerRemoveVolumesMapping : string -> string -> list string -> B -> B * option error;
  answerGetIOContext : B -> B * option error;
  answerGroupSnapCreate : string -> string -> B -> B * option error;
  answerGroupSnapRemove : string -> string -> B -> B * option error;
  answerGroupSnapGetInfo : string -> string -> B -> B * result GroupSnapInfo;
  answerNewSnapshotByID : Volume -> string -> Z -> B -> B * (option Snapshot * option error)
}.

(** Modelled from the spec: the journal and the cluster's group snapshots
    are not part of the translated files.  The journal is the spec's
    per-group key/value association, keyed by pool and group UUID:
    AddMapping adds the given keys, RemoveMapping removes them.  A group
    snapshot exists from a successful create to a successful remove. *)
Record Store : Type := mkStore {
  journal : gmap (string * string) (gmap string string);
  groupSnapshots : gset (string * string)     (* (group, snapshot name) *)
}.

Definition mappingOf (st : Store) (pool uuid : string) : gmap string string :=
  default ∅ (journal st !! (pool, uuid)).

Definition storeAddVolumesMapping (pool uuid : string)
    (toAdd : list (string * string)) (st : Store) : Store :=
  {| journal := <[(pool, uuid) := list_to_map toAdd ∪ mappingOf st pool uuid]> (journal st);
     groupSnapshots := groupSnapshots st |}.

Definition storeRemoveVolumesMapping (pool uuid : string)
    (mapping : list string) (st : Store) : Store :=
  {| journal := <[(pool, uuid) := foldr delete (mappingOf st pool uuid) mapping]> (journal st);
     groupSnapshots := groupSnapshots st |}.

Definition storeGroupSnapCreate (group name : string) (st : Store) : Store :=
  {| journal := journal st; groupSnapshots := {[ (group, name) ]} ∪ groupSnapshots st |}.

Definition storeGroupSnapRemove (group name : string) (st : Store) : Store :=
  {| journal := journal st; groupSnapshots := groupSnapshots st ∖ {[ (group, name) ]} |}.

(** The world: the answering cluster, the heap of backing arrays, the
    store, the calls made so far (oldest first), the error log. *)
Record World (B : Type) : Type := mkWorld {
  cluster : B;
  heap : list array;
  store : Store;
  calls : list Call;
  logs : list string
}.
Arguments mkWorld {B} _ _ _ _ _.
Arguments cluster {B} _.
Arguments heap {B} _.
Arguments store {B} _.
Arguments calls {B} _.
Arguments logs {B} _.

Section Group.
Context {B : Type} `{RBD B} `{Runtime}.

Local Open Scope go_scope.

(** An outgoing call that answers with a value: ask the cluster, apply the
    effect the answer has on the store, record the call. *)
Definition perform {A} (c : Call) (answer : B -> B * A)
    (effect : A -> Store -> Store) : M (World B) A :=
  fun w =>
    let '(b, r) := answer (cluster w) in
    ({| cluster := b; heap := heap w; store := effect r (store w);
        calls := calls w ++ [c]; logs := logs w |}, r).

(** The effect of a call that changes the store only when its error is
    nil. *)
Definition whenNil (f : Store -> Store) (r : option error) (st : Store) : Store :=
  match r with None => f st | Some _ => st end.

Definition noEffect {A} (r : A) (st : Store) : Store := st.

(** A call without a result. *)
Definition notify (c : Call) : M (World B) unit :=
  fun w => ({| cluster := cluster w; heap := heap w; store := store w;
               calls := calls w ++ [c]; logs := logs w |}, tt).

(** [log.ErrorLog]; [log.DebugLog] lines are not kept. *)
Definition ErrorLog (line : string) : M (World B) unit :=
  fun w => ({| cluster := cluster w; heap := heap w; store := store w;
               calls := calls w; logs := logs w ++ [line] |}, tt).

(** [append] on the heap of the world. *)
Definition append (s : slice) (v : Volume) : M (World B) slice :=
  fun w =>
    let '(h, s') := appendSlice (heap w) s v in
    ({| cluster := cluster w; heap := h; store := store w;
        calls := calls w; logs := logs w |}, s').

(** The elements a [range] over the slice visits. *)
Definition range (s : slice) : M (World B) (list Volume) :=
  fun w => (w, elements (heap w) s).

Definition initCommonVolumeGroup (id csiDriver : string) :=
  perform (CallInitCommonVolumeGroup id csiDriver)
          (answerInitCommonVolumeGroup id csiDriver) noEffect.
Definition getVolumeGroupAttributes (vg : volumeGroup) :=
  perform CallGetVolumeGroupAttributes
          (answerGetVolumeGroupAttributes (common vg)) noEffect.
Definition GetVolumeByID (volID : string) :=
  perform (CallGetVolumeByID volID) (answerGetVolumeByID volID) noEffect.
Definition Volume_Destroy (v : Volume) := notify (CallVolumeDestroy v).
Definition commonVolumeGroup_Destroy := notify CallCommonDestroy.
Definition AddToGroup (vol : Volume) :=
  perform (CallAddToGroup vol) (answerAddToGroup vol) noEffect.
Definition RemoveFromGroup (vol : Volume) :=
  perform (CallRemoveFromGroup vol) (answerRemoveFromGroup vol) noEffect.
Definition getJournal := perform CallGetJournal answerGetJournal noEffect.
Definition AddVolumesMapping (pool uuid : string) (toAdd : list (string * string)) :=
  perform (CallAddVolumesMapping pool uuid toAdd)
          (answerAddVolumesMapping pool uuid toAdd)
          (whenNil (storeAddVolumesMapping pool uuid toAdd)).
Definition RemoveVolumesMapping (pool uuid : string) (mapping : list string) :=
  perform (CallRemoveVolumesMapping pool uuid mapping)
          (answerRemoveVolumesMapping pool uuid mapping)
          (whenNil (storeRemoveVolumesMapping pool uuid mapping)).
Definition GetIOContext := perform CallGetIOContext answerGetIOContext noEffect.
Definition GroupSnapCreate (group name : string) :=
  perform (CallGroupSnapCreate group name) (answerGroupSnapCreate group name)
          (whenNil (storeGroupSnapCreate group name)).
Definition GroupSnapRemove (group name : string) :=
  perform (CallGroupSnapRemove group name) (answerGroupSnapRemove group name)
          (whenNil (storeGroupSnapRemove group name)).
Definition GroupSnapGetInfo (group name : string) :=
  perform (CallGroupSnapGetInfo group name) (answerGroupSnapGetInfo group name) noEffect.
Definition NewSnapshotByID (volume : Volume) (snapName : string) (snapID : Z) :=
  perform (CallNewSnapshotByID volume snapName snapID)
          (answerNewSnapshotByID volume snapName snapID) noEffect.
Definition Snapshot_Destroy (sn : Snapshot) := notify (CallSnapshotDestroy sn).

(** *** GetVolumeGroup *)

(** The loop [for volID := range attrs.VolumeMap]: the value is the local
    [volumes] and the error of the [return] that left the loop, if any. *)
Fixpoint GetVolumeGroup_resolve (id : string) (volIDs : list string)
    (volumes : slice) : M (World B) (slice * option error) :=
  match volIDs with
  | [] => ret (volumes, None)
  | volID :: rest =>
      r <- GetVolumeByID volID ;;
      match r with
      | Err e =>
          ret (volumes,
               Some (errWrapf ("failed to get attributes for volume group id " ++ id ++ ": ")
                              e ""))
      | Ok vol =>
          volumes <- append volumes vol ;;
          GetVolumeGroup_resolve id rest volumes
      end
  end.

(** [for _, v := range l { v.Destroy(ctx) }] *)
Fixpoint destroyVolumes (l : list Volume) : M (World B) unit :=
  match l with
  | [] => ret tt
  | v :: rest => Volume_Destroy v ;;; destroyVolumes rest
  end.

(** The deferred closure of [GetVolumeGroup]; it reads [vg.volumesToFree]
    and the local [volumes] as they are when the function returns. *)
Definition GetVolumeGroup_deferred (vg : volumeGroup) (volumes : slice)
    : M (World B) unit :=
  if 0 <? sl_len (volumesToFree vg) then ret tt
  else
    l <- range volumes ;;
    destroyVolumes l.

(** [GetVolumeGroup]: the Go result is the pair of the group (nil is
    [None]) and the error. *)
Definition GetVolumeGroup (id csiDriver : string)
    : M (World B) (option volumeGroup * option error) :=
  r <- initCommonVolumeGroup id csiDriver ;;
  match r with
  | Err e =>
      ret (None, Some (errWrapf ("failed to initialize volume group with id " ++ id ++ ": ")
                                e ""))
  | Ok cvg =>
      let vg := {| common := cvg; volumes := nilSlice; volumesToFree := nilSlice |} in
      r <- getVolumeGroupAttributes vg ;;
      match r with
      | Err e =>
          if errIs e ErrRBDGroupNotFound then
            ErrorLog "returning empty volume group" ;;;
            ret (Some vg, Some e)
          else
            ret (None, Some (errWrapf "failed to get volume attributes for id: " e ""))
      | Ok volumeMap =>
          r <- GetVolumeGroup_resolve id volumeMap nilSlice ;;
          let '(volumes, err) := r in
          match err with
          | Some e =>
              GetVolumeGroup_deferred vg volumes ;;;
              ret (None, Some e)
          | None =>
              let vg := {| common := cvg; volumes := volumes; volumesToFree := volumes |} in
              GetVolumeGroup_deferred vg volumes ;;;
              ret (Some vg, None)
          end
      end
  end.

(** *** Destroy, AddVolume, RemoveVolume, ListVolumes

    The methods have a pointer receiver; each gives back the group as it
    leaves it. *)

Definition Destroy (vg : volumeGroup) : M (World B) volumeGroup :=
  vg <- (if 0 <? sl_len (volumesToFree vg) then
           l <- range (volumesToFree vg) ;;
           destroyVolumes l ;;;
           ret {| common := common vg; volumes := volumes vg; volumesToFree := nilSlice |}
         else ret vg) ;;
  commonVolumeGroup_Destroy ;;;
  ret vg.

Definition AddVolume (vg : volumeGroup) (vol : Volume)
    : M (World B) (volumeGroup * option error) :=
  err <- AddToGroup vol ;;
  match err with
  | Some e =>
      ret (vg, Some (errWrapf "failed to add volume to volume group: " e ""))
  | None =>
      volumes <- append (volumes vg) vol ;;
      let vg := {| common := common vg; volumes := volumes;
                   volumesToFree := volumesToFree vg |} in
      match Volume_GetID vol with
      | Err e => ret (vg, Some e)
      | Ok volID =>
      match GetPool (common vg) with
      | Err e => ret (vg, Some e)
      | Ok pool =>
      match GetID (common vg) with
      | Err e => ret (vg, Some e)
      | Ok id =>
      match DecomposeCSIID id with
      | Err e =>
          ret (vg, Some (errWrapf ("failed to decompose volume group id " ++ id ++ ": ") e ""))
      | Ok csiID =>
          let toAdd := [(volID, "")] in
          err <- getJournal ;;
          match err with
          | Some e => ret (vg, Some e)
          | None =>
              err <- AddVolumesMapping pool (ObjectUUID csiID) toAdd ;;
              match err with
              | Some e =>
                  ret (vg, Some (errWrapf ("failed to add mapping for volume " ++ volID
                                           ++ " to volume group id " ++ id ++ ": ") e ""))
              | None => ret (vg, None)
              end
          end
      end end end end
  end.

(** The loop of [RemoveVolume] that rebuilds the list; the value is the
    local [volumes] and the error of the [return] that left the loop. *)
Fixpoint RemoveVolume_rebuild (toRemove : string) (l : list Volume)
    (volumes : slice) : M (World B) (slice * option error) :=
  match l with
  | [] => ret (volumes, None)
  | v :: rest =>
      match Volume_GetID v with
      | Err e => ret (volumes, Some e)
      | Ok id =>
          if String.eqb id toRemove then RemoveVolume_rebuild toRemove rest volumes
          else
            volumes <- append volumes v ;;
            RemoveVolume_rebuild toRemove rest volumes
      end
  end.

Definition RemoveVolume (vg : volumeGroup) (vol : Volume)
    : M (World B) (volumeGroup * option error) :=
  if sl_len (volumes vg) =? 0 then ret (vg, None)
  else
    err <- RemoveFromGroup vol ;;
    match err with
    | Some e =>
        if errIs e librbd_ErrNotExist then ret (vg, None)
        else ret (vg, Some (errWrapf "failed to remove volume from volume group: " e ""))
    | None =>
        match Volume_GetID vol with
        | Err e => ret (vg, Some (errWrapf "failed to get volume id: " e ""))
        | Ok toRemove =>
            l <- range (volumes vg) ;;
            r <- RemoveVolume_rebuild toRemove l nilSlice ;;
            let '(volumes, err) := r in
            match err with
            | Some e => ret (vg, Some e)
            | None =>
                let vg := {| common := common vg; volumes := volumes;
                             volumesToFree := volumesToFree vg |} in
                match GetPool (common vg) with
                | Err e => ret (vg, Some e)
                | Ok pool =>
                match GetID (common vg) with
                | Err e => ret (vg, Some e)
                | Ok id =>
                match DecomposeCSIID id with
                | Err e =>
                    ret (vg, Some (errWrapf ("failed to decompose volume group id " ++ id ++ ": ")
                                            e ""))
                | Ok csiID =>
                    let mapping := [toRemove] in
                    err <- getJournal ;;
                    match err with
                    | Some e => ret (vg, Some e)
                    | None =>
                        err <- RemoveVolumesMapping pool (ObjectUUID csiID) mapping ;;
                        match err with
                        | Some e =>
                            ret (vg, Some (errWrapf ("failed to remove mapping for volume "
                                                     ++ toRemove ++ " to volume group id "
                                                     ++ id ++ ": ") e ""))
                        | None => ret (vg, None)
                        end
                    end
                end end end
            end
        end
    end.

Definition ListVolumes (vg : volumeGroup) : M (World B) (list Volume * option error) :=
  l <- range (volumes vg) ;;
  ret (l, None).

(** *** CreateSnapshots *)

(** The result slice: one interface value per slot, nil is [None]. *)
Definition snapshotSlice : Type := list (option Snapshot).

(** The loop [for _, volume := range vg.volumes] for the group-snapshot
    entry [snap] at index [i].  It yields the slice, the variable [err]
    that the deferred closure will read, and the error of the [return]
    statement when the loop left the function. *)
Fixpoint CreateSnapshots_volumes (group : string) (i : nat) (snap : GroupSnap)
    (l : list Volume) (snapshots : snapshotSlice) (err : option error)
    : M (World B) (snapshotSlice * option error * option error) :=
  match l with
  | [] => ret (snapshots, err, None)
  | volume :: rest =>
      match Volume_GetName volume with
      | Err e =>
          ret (snapshots, Some e,
               Some (errWrapf "failed to get name for volume: " e ""))
      | Ok volName =>
          if negb (String.eqb volName (Name snap)) then
            CreateSnapshots_volumes group i snap rest snapshots None
          else
            let snapName := (group ++ "-snap-" ++ pretty i)%string in
            r <- NewSnapshotByID volume snapName (SnapID snap) ;;
            let '(sn, err) := r in
            let snapshots := <[i := sn]> snapshots in
            match err with
            | Some e =>
                ret (snapshots, Some e,
                     Some (errWrapf ("failed to create snapshot for image " ++ Name snap
                                     ++ ": ") e ""))
            | None => ret (snapshots, None, None)
            end
      end
  end.

(** The loop [for i, snap := range info.Snapshots], from index [i] on. *)
Fixpoint CreateSnapshots_each (vg : volumeGroup) (group : string) (i : nat)
    (snaps : list GroupSnap) (snapshots : snapshotSlice) (err : option error)
    : M (World B) (snapshotSlice * option error * option error) :=
  match snaps with
  | [] => ret (snapshots, err, None)
  | snap :: rest =>
      l <- range (volumes vg) ;;
      r <- CreateSnapshots_volumes group i snap l snapshots err ;;
      let '(snapshots, err, returned) := r in
      match returned with
      | Some e => ret (snapshots, err, Some e)
      | None => CreateSnapshots_each vg group (S i) rest snapshots err
      end
  end.

(** [for _, snapshot := range snapshots { snapshot.Destroy(ctx) }]: a
    method call on a nil interface value panics. *)
Fixpoint destroySnapshots (l : snapshotSlice) : M (World B) (outcome unit) :=
  match l with
  | [] => ret (Returned tt)
  | None :: _ => ret Panicked
  | Some sn :: rest => Snapshot_Destroy sn ;;; destroySnapshots rest
  end.

(** The second deferred closure: "free all created snapshot objects in
    case of a failure". *)
Definition CreateSnapshots_free (err : option error) (snapshots : snapshotSlice)
    : M (World B) (outcome unit) :=
  match err with
  | None => ret (Returned tt)
  | Some _ => destroySnapshots snapshots
  end.

(** The first deferred closure: "always remove the groups-snapshot on
    function exit". *)
Definition CreateSnapshots_cleanup (group name : string) : M (World B) unit :=
  cleanupErr <- GroupSnapRemove group name ;;
  match cleanupErr with
  | Some _ => ErrorLog "failed to remove temporary volume group snapshot"
  | None => ret tt
  end.

(** The Go result of [CreateSnapshots]: the slice (nil is [None]) and the
    error. *)
Definition snapshotsResult : Type := option snapshotSlice * option error.

(** What runs between the registration of the first deferred closure and
    its execution: the statements that follow it and the second deferred
    closure.  A panic in that closure replaces the function's result. *)
Definition CreateSnapshots_materialize (vg : volumeGroup) (group name : string)
    : M (World B) (outcome snapshotsResult) :=
  r <- GroupSnapGetInfo group name ;;
  match r with
  | Err e =>
      ret (Returned (None,
             Some (errWrapf "failed to get info for volume group snapshot: " e "")))
  | Ok info =>
      let snapshots := replicate (length (Snapshots info)) None in
      r <- CreateSnapshots_each vg group 0 (Snapshots info) snapshots None ;;
      let '(snapshots, err, returned) := r in
      freed <- CreateSnapshots_free err snapshots ;;
      match freed with
      | Panicked => ret Panicked
      | Returned _ =>
          match returned with
          | Some e => ret (Returned (None, Some e))
          | None => ret (Returned (Some snapshots, None))
          end
      end
  end.

Definition CreateSnapshots (vg : volumeGroup) (name : string)
    : M (World B) (outcome snapshotsResult) :=
  match GetName (common vg) with
  | Err e => ret (Returned (None, Some e))
  | Ok group =>
      err <- GetIOContext ;;
      match err with
      | Some e => ret (Returned (None, Some e))
      | None =>
          err <- GroupSnapCreate group name ;;
          match err with
          | Some e =>
              if negb (errIs e librbd_ErrExist) then
                ret (Returned (None,
                       Some (errWrapf ("failed to create volume group snapshot " ++ name ++ ": ")
                                      e "")))
              else
                out <- CreateSnapshots_materialize vg group name ;;
                CreateSnapshots_cleanup group name ;;;
                ret out
          | None =>
              out <- CreateSnapshots_materialize vg group name ;;
              CreateSnapshots_cleanup group name ;;;
              ret out
          end
      end
  end.

End Group.

(** The volumes the resolver answers for the IDs, in order, up to its first
    error: what the loop of [GetVolumeGroup] resolves. *)
Fixpoint resolvedBy {B : Type} `{RBD B} (volIDs : list string) (b : B) : list Volume :=
  match volIDs with
  | [] => []
  | volID :: rest =>
      match answerGetVolumeByID volID b with
      | (b', Ok vol) => vol :: resolvedBy rest b'
      | (_, Err _) => []
      end
  end.

(** The volumes resolved by a call of [GetVolumeGroup id csiDriver] that
    starts when the cluster is in state [b]. *)
Definition resolvedAtLoad {B : Type} `{RBD B} (id csiDriver : string) (b : B)
    : list Volume :=
  match answerInitCommonVolumeGroup id csiDriver b with
  | (b1, Ok cvg) =>
      match answerGetVolumeGroupAttributes cvg b1 with
      | (b2, Ok volumeMap) => resolvedBy volumeMap b2
      | (_, Err _) => []
      end
  | (_, Err _) => []
  end.

(** A caller that changes the membership of a group any number of times,
    whatever each call returns. *)
Inductive mutation : Type :=
  | DoAddVolume (vol : Volume)
  | DoRemoveVolume (vol : Volume).

Fixpoint mutate {B : Type} `{RBD B} `{Runtime} (ops : list mutation)
    (vg : volumeGroup) : M (World B) volumeGroup :=
  match ops with
  | [] => ret vg
  | DoAddVolume vol :: rest =>
      (r <- AddVolume vg vol ;; mutate rest (fst r))%go
  | DoRemoveVolume vol :: rest =>
      (r <- RemoveVolume vg vol ;; mutate rest (fst r))%go
  end.

(** The members [RemoveVolume] keeps when it removes the ID [toRemove]. *)
Definition keeps (toRemove : string) (v : Volume) : bool :=
  match Volume_GetID v with
  | Ok id => negb (String.eqb id toRemove)
  | Err _ => false
  end.

(** The IDs of the members, as a set. *)
Definition idOf (v : Volume) : option string :=
  match Volume_GetID v with Ok id => Some id | Err _ => None end.

Definition memberIDs (h : list array) (vg : volumeGroup) : gset string :=
  list_to_set (omap idOf (elements h (volumes vg))).

(** A cluster that answers from a fixed script, for the examples. *)
Record Script : Type := mkScript {
  onInitCommonVolumeGroup : result commonVolumeGroup;
  onGetVolumeGroupAttributes : result (list string);
  onGetVolumeByID : string -> result Volume;
  onAddToGroup : Volume -> option error;
  onRemoveFromGroup : Volume -> option error;
  onGetJournal : option error;
  onAddVolumesMapping : option error;
  onRemoveVolumesMapping : option error;
  onGetIOContext : option error;
  onGroupSnapCreate : option error;
  onGroupSnapRemove : option error;
  onGroupSnapGetInfo : result GroupSnapInfo;
  onNewSnapshotByID : Volume -> option Snapshot * option error
}.

#[global] Instance scripted : RBD Script := {|
  answerInitCommonVolumeGroup _ _ b := (b, onInitCommonVolumeGroup b);
  answerGetVolumeGroupAttributes _ b := (b, onGetVolumeGroupAttributes b);
  answerGetVolumeByID volID b := (b, onGetVolumeByID b volID);
  answerAddToGroup vol b := (b, onAddToGroup b vol);
  answerRemoveFromGroup vol b := (b, onRemoveFromGroup b vol);
  DecomposeCSIID id := Ok {| ObjectUUID := id |};
  answerGetJournal b := (b, onGetJournal b);
  answerAddVolumesMapping _ _ _ b := (b, onAddVolumesMapping b);
  answerRemoveVolumesMapping _ _ _ b := (b, onRemoveVolumesMapping b);
  answerGetIOContext b := (b, onGetIOContext b);
  answerGroupSnapCreate _ _ b := (b, onGroupSnapCreate b);
  answerGroupSnapRemove _ _ b := (b, onGroupSnapRemove b);
  answerGroupSnapGetInfo _ _ b := (b, onGroupSnapGetInfo b);
  answerNewSnapshotByID vol _ _ b := (b, onNewSnapshotByID b vol)
|}.

(** A runtime that doubles the capacity. *)
#[global] Instance doubling : Runtime := {|
  growslice old needed := Nat.max needed (2 * old)
|}.

(** The group "vg-1" of the spec's scenario and its two members. *)
Definition vol1 : Volume :=
  {| volumeHandle := 1; Volume_GetID := Ok "v1"; Volume_GetName := Ok "img-1" |}.
Definition vol2 : Volume :=
  {| volumeHandle := 2; Volume_GetID := Ok "v2"; Volume_GetName := Ok "img-2" |}.

Definition vg1Common : commonVolumeGroup :=
  {| GetID := Ok "0001-vg-1"; GetName := Ok "vg-1"; GetPool := Ok "replicapool" |}.

Definition resolveVolume (volID : string) : result Volume :=
  if String.eqb volID "v1" then Ok vol1
  else if String.eqb volID "v2" then Ok vol2
  else Err (errNew "volume not found").

(** The cluster on which every call succeeds; the group snapshot has one
    entry per member and materialising the entry of a volume gives the
    snapshot object with the volume's handle. *)
Definition clusterHealthy : Script :=
  {| onInitCommonVolumeGroup := Ok vg1Common;
     onGetVolumeGroupAttributes := Ok ["v1"; "v2"];
     onGetVolumeByID := resolveVolume;
     onAddToGroup _ := None;
     onRemoveFromGroup _ := None;
     onGetJournal := None;
     onAddVolumesMapping := None;
     onRemoveVolumesMapping := None;
     onGetIOContext := None;
     onGroupSnapCreate := None;
     onGroupSnapRemove := None;
     onGroupSnapGetInfo :=
       Ok {| Snapshots := [mkGroupSnap "img-1" 2 11; mkGroupSnap "img-2" 2 12] |};
     onNewSnapshotByID v := (Some (mkSnapshot (volumeHandle v)), None) |}.

Definition emptyStore : Store := {| journal := ∅; groupSnapshots := ∅ |}.

Definition newWorld {B} (b : B) : World B :=
  {| cluster := b; heap := []; store := emptyStore; calls := []; logs := [] |}.

(** The group after loading "vg-1" on a new world: both members in one
    backing array that [volumes] and [volumesToFree] share. *)
Definition loadedHeap : list array :=
  [ {| cells := [vol1]; acap := 1 |}; {| cells := [vol1; vol2]; acap := 2 |} ].

Definition loadedGroup : volumeGroup :=
  {| common := vg1Common;
     volumes := {| sl_arr := 1; sl_len := 2; sl_cap := 2 |};
     volumesToFree := {| sl_arr := 1; sl_len := 2; sl_cap := 2 |} |}.

Definition loadedWorld {B} (b : B) : World B :=
  {| cluster := b; heap := loadedHeap; store := emptyStore; calls := []; logs := [] |}.


(** A group whose members lie in one full backing array, and a world that
    holds it. *)
Definition groupWith (members : list Volume) : volumeGroup :=
  {| common := vg1Common;
     volumes := {| sl_arr := 0; sl_len := length members; sl_cap := length members |};
     volumesToFree := nilSlice |}.

Definition worldWith {B} (b : B) (members : list Volume) : World B :=
  {| cluster := b; heap := [ {| cells := members; acap := length members |} ];
     store := emptyStore; calls := []; logs := [] |}.

(** The cluster on which the entry of "img-2" cannot be materialised. *)
Definition clusterSecondFails : Script :=
  {| onInitCommonVolumeGroup := Ok vg1Common;
     onGetVolumeGroupAttributes := Ok ["v1"; "v2"];
     onGetVolumeByID := resolveVolume;
     onAddToGroup _ := None;
     onRemoveFromGroup _ := None;
     onGetJournal := None;
     onAddVolumesMapping := None;
     onRemoveVolumesMapping := None;
     onGetIOContext := None;
     onGroupSnapCreate := None;
     onGroupSnapRemove := None;
     onGroupSnapGetInfo :=
       Ok {| Snapshots := [mkGroupSnap "img-1" 2 11; mkGroupSnap "img-2" 2 12] |};
     onNewSnapshotByID v :=
       if volumeHandle v =? 2 then (None, Some (errNew "EDQUOT"))
       else (Some (mkSnapshot (volumeHandle v)), None) |}.

(** The same cluster when the group snapshot also lists "img-0", an image
    that is not a member. *)
Definition clusterStaleEntryFails : Script :=
  {| onInitCommonVolumeGroup := Ok vg1Common;
     onGetVolumeGroupAttributes := Ok ["v1"; "v2"];
     onGetVolumeByID := resolveVolume;
     onAddToGroup _ := None;
     onRemoveFromGroup _ := None;
     onGetJournal := None;
     onAddVolumesMapping := None;
     onRemoveVolumesMapping := None;
     onGetIOContext := None;
     onGroupSnapCreate := None;
     onGroupSnapRemove := None;
     onGroupSnapGetInfo :=
       Ok {| Snapshots := [mkGroupSnap "img-0" 2 10; mkGroupSnap "img-1" 2 11;
                           mkGroupSnap "img-2" 2 12] |};
     onNewSnapshotByID v :=
       if volumeHandle v =? 2 then (None, Some (errNew "EDQUOT"))
       else (Some (mkSnapshot (volumeHandle v)), None) |}.

(** The healthy cluster when the group snapshot lists "img-0" as well. *)
Definition clusterStaleEntry : Script :=
  {| onInitCommonVolumeGroup := Ok vg1Common;
     onGetVolumeGroupAttributes := Ok ["v1"; "v2"];
     onGetVolumeByID := resolveVolume;
     onAddToGroup _ := None;
     onRemoveFromGroup _ := None;
     onGetJournal := None;
     onAddVolumesMapping := None;
     onRemoveVolumesMapping := None;
     onGetIOContext := None;
     onGroupSnapCreate := None;
     onGroupSnapRemove := None;
     onGroupSnapGetInfo :=
       Ok {| Snapshots := [mkGroupSnap "img-0" 2 10; mkGroupSnap "img-1" 2 11;
                           mkGroupSnap "img-2" 2 12] |};
     onNewSnapshotByID v := (Some (mkSnapshot (volumeHandle v)), None) |}.

(** The cluster on which the group does not exist yet. *)
Definition clusterGroupMissing : Script :=
  {| onInitCommonVolumeGroup := Ok vg1Common;
     onGetVolumeGroupAttributes :=
       Err (errWrapf "failed to get attributes: " ErrRBDGroupNotFound "");
     onGetVolumeByID := resolveVolume;
     onAddToGroup _ := None;
     onRemoveFromGroup _ := None;
     onGetJournal := None;
     onAddVolumesMapping := None;
     onRemoveVolumesMapping := None;
     onGetIOContext := None;
     onGroupSnapCreate := None;
     onGroupSnapRemove := None;
     onGroupSnapGetInfo := Ok {| Snapshots := [] |};
     onNewSnapshotByID v := (Some (mkSnapshot (volumeHandle v)), None) |}.

(** The cluster whose journal lists "v1", the unknown "v9" and "v2", in
    the order in which the map is visited. *)
Definition clusterVolumeMissing : Script :=
  {| onInitCommonVolumeGroup := Ok vg1Common;
     onGetVolumeGroupAttributes := Ok ["v1"; "v9"; "v2"];
     onGetVolumeByID := resolveVolume;
     onAddToGroup _ := None;
     onRemoveFromGroup _ := None;
     onGetJournal := None;
     onAddVolumesMapping := None;
     onRemoveVolumesMapping := None;
     onGetIOContext := None;
     onGroupSnapCreate := None;
     onGroupSnapRemove := None;
     onGroupSnapGetInfo := Ok {| Snapshots := [] |};
     onNewSnapshotByID v := (Some (mkSnapshot (volumeHandle v)), None) |}.

(** A volume that a caller resolved itself. *)
Definition vol3 : Volume :=
  {| volumeHandle := 3; Volume_GetID := Ok "v3"; Volume_GetName := Ok "img-3" |}.

(** The journal of "vg-1" when it lists both members. *)
Definition journalOfVg1 : Store :=
  {| journal := {[ ("replicapool", "0001-vg-1") := {[ "v1" := ""; "v2" := "" ]} ]};
     groupSnapshots := ∅ |}.

(** The round-trip claim as the specification words it: after [AddVolume]
    and [RemoveVolume] of the same volume have both returned nil, the set
    of member IDs is the one before. *)
Definition addThenRemoveRestores {B : Type} `{RBD B} `{Runtime}
    (vg : volumeGroup) (vol : Volume) (w : World B) : Prop :=
  forall w1 vg1 w2 vg2,
    AddVolume vg vol w = (w1, (vg1, None)) ->
    RemoveVolume vg1 vol w1 = (w2, (vg2, None)) ->
    memberIDs (heap w2) vg2 = memberIDs (heap w) vg.

(** A member whose name cannot be read. *)
Definition volNameless : Volume :=
  {| volumeHandle := 3; Volume_GetID := Ok "v3";
     Volume_GetName := Err (errNew "BUG: name is not set") |}.

End RBDGroup.

(** ** Package [rbd]: Sparsify, and its caller in [csi-addons/rbd] *)

Module RBD.

(** [ErrImageInUse] of package rbd. *)
Definition ErrImageInUse : error := errNew "ErrImageInUse".

(** gRPC status errors, [status.Error(code, msg)]. *)
Inductive Code : Type := InvalidArgument | Aborted | Internal | Unimplemented.

Definition codeName (c : Code) : string :=
  match c with
  | InvalidArgument => "InvalidArgument"
  | Aborted => "Aborted"
  | Internal => "Internal"
  | Unimplemented => "Unimplemented"
  end.

Definition statusError (c : Code) (msg : string) : error :=
  errNew ("rpc error: code = " ++ codeName c ++ " desc = " ++ msg).

(** An [rbdImage] / [rbdVolume] object. *)
Record rbdImage : Type := mkRbdImage {
  imageName : string
}.

(** [librbd.ImageInfo]: [Order] is a Go [int]. *)
Record ImageInfo : Type := mkImageInfo {
  Order : Z
}.

(** [rs.ControllerReclaimSpaceRequest] and its response; the response the
    function builds has no usage figures. *)
Record ControllerReclaimSpaceRequest : Type := mkRequest {
  GetVolumeId : string
}.

Record ControllerReclaimSpaceResponse : Type := mkResponse {
  PreUsage : option Z;
  PostUsage : option Z
}.

Inductive Call : Type :=
  | CallTryAcquire (volumeID : string)
  | CallRelease (volumeID : string)
  | CallManagerDestroy
  | CallGetVolumeByID (volumeID : string)
  | CallVolumeDestroy (ri : rbdImage)
  | CallIsInUse (ri : rbdImage)
  | CallOpen (ri : rbdImage)
  | CallStat (ri : rbdImage)
  | CallSparsify (ri : rbdImage) (sparseSize : Z)
  | CallClose (ri : rbdImage).

#[global] Instance rbdImage_eq_dec : EqDecision rbdImage.
Proof. solve_decision. Defined.
#[global] Instance Call_eq_dec : EqDecision Call.
Proof. solve_decision. Defined.

(** The answers of the cluster. *)
Class Images (B : Type) : Type := {
  answerGetVolumeByID : string -> B -> B * result rbdImage;
  answerIsInUse : rbdImage -> B -> B * (bool * option error);
  answerOpen : rbdImage -> B -> B * option error;
  answerStat : rbdImage -> B -> B * result ImageInfo;
  answerSparsify : rbdImage -> Z -> B -> B * option error
}.

(** Modelled from the spec: [util.VolumeLocks] is not part of the
    translated files; it is the spec's per-identifier mutual exclusion.
    [locks] is the set of identifiers that are held. *)
Record World (B : Type) : Type := mkWorld {
  cluster : B;
  locks : gset string;
  calls : list Call;
  logs : list string
}.
Arguments mkWorld {B} _ _ _ _.
Arguments cluster {B} _.
Arguments locks {B} _.
Arguments calls {B} _.
Arguments logs {B} _.

Section Reclaim.
Context {B : Type} `{Images B}.

Local Open Scope go_scope.

Definition perform {A} (c : Call) (answer : B -> B * A) : M (World B) A :=
  fun w =>
    let '(b, r) := answer (cluster w) in
    ({| cluster := b; locks := locks w; calls := calls w ++ [c]; logs := logs w |}, r).

Definition notify (c : Call) : M (World B) unit :=
  fun w => ({| cluster := cluster w; locks := locks w; calls := calls w ++ [c];
               logs := logs w |}, tt).

Definition ErrorLog (line : string) : M (World B) unit :=
  fun w => ({| cluster := cluster w; locks := locks w; calls := calls w;
               logs := logs w ++ [line] |}, tt).

Definition TryAcquire (volumeID : string) : M (World B) bool :=
  fun w =>
    if decide (volumeID ∈ locks w) then
      ({| cluster := cluster w; locks := locks w;
          calls := calls w ++ [CallTryAcquire volumeID]; logs := logs w |}, false)
    else
      ({| cluster := cluster w; locks := {[ volumeID ]} ∪ locks w;
          calls := calls w ++ [CallTryAcquire volumeID]; logs := logs w |}, true).

Definition Release (volumeID : string) : M (World B) unit :=
  fun w => ({| cluster := cluster w; locks := locks w ∖ {[ volumeID ]};
               calls := calls w ++ [CallRelease volumeID]; logs := logs w |}, tt).

Definition isInUse (ri : rbdImage) := perform (CallIsInUse ri) (answerIsInUse ri).
Definition open (ri : rbdImage) := perform (CallOpen ri) (answerOpen ri).
Definition image_Stat (ri : rbdImage) := perform (CallStat ri) (answerStat ri).
Definition image_Sparsify (ri : rbdImage) (sparseSize : Z) :=
  perform (CallSparsify ri sparseSize) (answerSparsify ri sparseSize).
Definition image_Close (ri : rbdImage) := notify (CallClose ri).
Definition GetVolumeByID (volumeID : string) :=
  perform (CallGetVolumeByID volumeID) (answerGetVolumeByID volumeID).
Definition rbdVol_Destroy (ri : rbdImage) := notify (CallVolumeDestroy ri).
Definition mgr_Destroy := notify CallManagerDestroy.

(** [1 << imageInfo.Order] as the 64-bit [uint] argument of
    [image.Sparsify]; a negative shift count panics. *)
Definition sparseSizeOf (order : Z) : option Z :=
  if (order <? 0)%Z then None
  else Some (Z.shiftl 1 order mod 2 ^ 64)%Z.

(** The statements of [Sparsify] that follow [defer image.Close()]. *)
Definition Sparsify_opened (ri : rbdImage) : M (World B) (outcome (option error)) :=
  r <- image_Stat ri ;;
  match r with
  | Err e => ret (Returned (Some e))
  | Ok imageInfo =>
      match sparseSizeOf (Order imageInfo) with
      | None => ret Panicked
      | Some sparseSize =>
          err <- image_Sparsify ri sparseSize ;;
          match err with
          | Some e => ret (Returned (Some (errWrapf "failed to sparsify image: " e "")))
          | None => ret (Returned None)
          end
      end
  end.

(** [Sparsify] *)
Definition Sparsify (ri : rbdImage) : M (World B) (outcome (option error)) :=
  r <- isInUse ri ;;
  let '(inUse, err) := r in
  match err with
  | Some e =>
      ret (Returned (Some (errWrapf "failed to check if image is in use: " e "")))
  | None =>
      if inUse then ret (Returned (Some ErrImageInUse))
      else
        err <- open ri ;;
        match err with
        | Some e => ret (Returned (Some e))
        | None =>
            out <- Sparsify_opened ri ;;
            image_Close ri ;;;
            ret out
        end
  end.

(** The Go result of [ControllerReclaimSpace]: response pointer and
    error. *)
Definition reclaimResult : Type :=
  option ControllerReclaimSpaceResponse * option error.

(** The statements of [ControllerReclaimSpace] after
    [defer rbdVol.Destroy(ctx)]. *)
Definition ControllerReclaimSpace_sparsify (volumeID : string) (rbdVol : rbdImage)
    : M (World B) (outcome reclaimResult) :=
  out <- Sparsify rbdVol ;;
  match out with
  | Panicked => ret Panicked
  | Returned err =>
      if Is err ErrImageInUse then
        ret (Returned (Some (mkResponse None None), None))
      else
        match err with
        | Some e =>
            ret (Returned (None,
                   Some (statusError Internal
                           ("failed to sparsify volume: " ++ Error e))))
        | None => ret (Returned (Some (mkResponse None None), None))
        end
  end.

(** [ControllerReclaimSpace]; the deferred calls run in reverse order of
    registration. *)
Definition ControllerReclaimSpace (req : ControllerReclaimSpaceRequest)
    : M (World B) (outcome reclaimResult) :=
  let volumeID := GetVolumeId req in
  if String.eqb volumeID "" then
    ret (Returned (None, Some (statusError InvalidArgument "empty volume ID in request")))
  else
    acquired <- TryAcquire volumeID ;;
    if negb acquired then
      ErrorLog "an operation with the given Volume ID already exists" ;;;
      ret (Returned (None,
             Some (statusError Aborted
                     "an operation with the given Volume ID already exists")))
    else
      out <- (r <- GetVolumeByID volumeID ;;
              match r with
              | Err e =>
                  ret (Returned (None,
                         Some (statusError Aborted
                                 ("failed to find volume with ID: " ++ Error e))))
              | Ok rbdVol =>
                  out <- ControllerReclaimSpace_sparsify volumeID rbdVol ;;
                  rbdVol_Destroy rbdVol ;;;
                  ret out
              end) ;;
      mgr_Destroy ;;;
      Release volumeID ;;;
      ret out.

End Reclaim.

(** A cluster that answers from a fixed script, for the examples. *)
Record Script : Type := mkScript {
  onGetVolumeByID : result rbdImage;
  onIsInUse : bool * option error;
  onOpen : option error;
  onStat : result ImageInfo;
  onSparsify : option error
}.

#[global] Instance scripted : Images Script := {|
  answerGetVolumeByID _ b := (b, onGetVolumeByID b);
  answerIsInUse _ b := (b, onIsInUse b);
  answerOpen _ b := (b, onOpen b);
  answerStat _ b := (b, onStat b);
  answerSparsify _ _ b := (b, onSparsify b)
|}.

(** An image with a client attached. *)
Definition busyImage : rbdImage := {| imageName := "csi-vol-0001" |}.

Definition clusterImageInUse : Script :=
  {| onGetVolumeByID := Ok busyImage; onIsInUse := (true, None); onOpen := None;
     onStat := Ok (mkImageInfo 22); onSparsify := None |}.

End RBD.

(** ** Shapes of the call traces of the clone operations *)

Module CephFSCoreCalls.
Import CephFSCore.

(** The calls that create or delete a snapshot. *)
Definition touchesSnapshot (c : Call) : bool :=
  match c with
  | CallCreateSnapshot _ | CallDeleteSnapshot _ => true
  | _ => false
  end.

(** The six calls of a clone from a subvolume in which every step
    succeeds. *)
Definition completeRun (s : subVolumeClient) (parentvolOpt : SubVolume) : list Call :=
  let sv := sSubVolume s in
  let snapClient := NewSnapshot (VolID sv) s parentvolOpt in
  [CallCreateSnapshot snapClient; CallCloneSnapshot snapClient sv;
   CallGetFSAdmin; CallCloneStatus (FsName sv) (SubvolumeGroup sv) (VolID sv);
   CallExpandVolume sv (Size sv); CallDeleteSnapshot snapClient].

End CephFSCoreCalls.

(** ** Shapes of the call traces of the volume group *)

Module RBDGroupCalls.
Import RBDGroup.

(** The calls on snapshot objects: materialising one from a member, and
    destroying one. *)
Definition isNewSnapshotByID (c : Call) : bool :=
  match c with
  | CallNewSnapshotByID _ _ _ => true
  | _ => false
  end.

Definition onSnapshotObject (c : Call) : bool :=
  match c with
  | CallNewSnapshotByID _ _ _ | CallSnapshotDestroy _ => true
  | _ => false
  end.

(** Every snapshot object in the slice was materialised for the entry of
    the group snapshot at its index, from a member that has the entry's
    name, under the name [<group>-snap-<index>] and with the entry's
    snapshot ID. *)
Definition materialisedFrom (group : string) (info : list GroupSnap)
    (members : list Volume) (cs : list Call) (snapshots : snapshotSlice) : Prop :=
  forall i sn, snapshots !! i = Some (Some sn) ->
    exists snap v,
      info !! i = Some snap /\ v ∈ members /\
      Volume_GetName v = Ok (Name snap) /\
      CallNewSnapshotByID v (group ++ "-snap-" ++ pretty i)%string (SnapID snap) ∈ cs.

(** The calls of [AddVolume] and [RemoveVolume] on the journal. *)
Definition onJournal (c : Call) : bool :=
  match c with
  | CallGetJournal | CallAddVolumesMapping _ _ _ | CallRemoveVolumesMapping _ _ _ => true
  | _ => false
  end.

End RBDGroupCalls.

(** ** Package [group]: creating, deleting and converting a volume group *)

Module RBDGroupAdmin.

(** [csi.Volume], as far as it is told apart, and
    [volumegroup.VolumeGroup]; a slot of [Volumes] is a pointer. *)
Record csi_Volume : Type := mkCsiVolume {
  CapacityBytes : Z;
  VolumeId : string
}.

Record csi_VolumeGroup : Type := mkCsiVolumeGroup {
  VolumeGroupId : string;
  VolumeGroupContext : gmap string string;
  Volumes : list (option csi_Volume)
}.

(** The calls that leave [Create], [Delete] and [ToCSI]: those of the
    methods translated in [RBDGroup], and four more. *)
Inductive Call : Type :=
  | InGroup (c : RBDGroup.Call)
  | CallGroupCreate (name : string)
  | CallGroupRemove (name : string)
  | CallCommonDelete
  | CallVolumeToCSI (v : RBDGroup.Volume).

#[global] Instance Call_eq_dec : EqDecision Call.
Proof. solve_decision. Defined.

(** The answers of the cluster and of the objects.  [answerVolumeToCSI]
    gives both components of the Go result. *)
Class GroupAdmin (B : Type) : Type := {
  answerGroupCreate : string -> B -> B * option error;
  answerGroupRemove : string -> B -> B * option error;
  answerCommonDelete : RBDGroup.commonVolumeGroup -> B -> B * option error;
  answerVolumeToCSI : RBDGroup.Volume -> B -> B * (option csi_Volume * option error)
}.

(** The world of [RBDGroup] with the longer list of calls. *)
Record World (B : Type) : Type := mkWorld {
  cluster : B;
  heap : list RBDGroup.array;
  store : RBDGroup.Store;
  calls : list Call;
  logs : list string
}.
Arguments mkWorld {B} _ _ _ _ _.
Arguments cluster {B} _.
Arguments heap {B} _.
Arguments store {B} _.
Arguments calls {B} _.
Arguments logs {B} _.

Section Admin.
Context {B : Type} `{RBDGroup.RBD B} `{GroupAdmin B}.

Local Open Scope go_scope.

(** A method translated in [RBDGroup], run on this world: its calls and
    its log lines are appended to the ones made so far. *)
Definition lift {A} (m : M (RBDGroup.World B) A) : M (World B) A :=
  fun w =>
    let '(g, a) := m {| RBDGroup.cluster := cluster w; RBDGroup.heap := heap w;
                        RBDGroup.store := store w; RBDGroup.calls := [];
                        RBDGroup.logs := [] |} in
    ({| cluster := RBDGroup.cluster g; heap := RBDGroup.heap g;
        store := RBDGroup.store g;
        calls := calls w ++ map InGroup (RBDGroup.calls g);
        logs := logs w ++ RBDGroup.logs g |}, a).

Definition perform {A} (c : Call) (answer : B -> B * A) : M (World B) A :=
  fun w =>
    let '(b, r) := answer (cluster w) in
    ({| cluster := b; heap := heap w; store := store w; calls := calls w ++ [c];
        logs := logs w |}, r).

Definition GroupCreate (name : string) :=
  perform (CallGroupCreate name) (answerGroupCreate name).
Definition GroupRemove (name : string) :=
  perform (CallGroupRemove name) (answerGroupRemove name).
Definition commonVolumeGroup_Delete (cvg : RBDGroup.commonVolumeGroup) :=
  perform CallCommonDelete (answerCommonDelete cvg).
Definition Volume_ToCSI (vol : RBDGroup.Volume) :=
  perform (CallVolumeToCSI vol) (answerVolumeToCSI vol).

(** [Create] *)
Definition Create (vg : RBDGroup.volumeGroup) : M (World B) (option error) :=
  match RBDGroup.GetName (RBDGroup.common vg) with
  | Err e => ret (Some (errWrapf "missing name to create volume group: " e ""))
  | Ok name =>
      err <- lift RBDGroup.GetIOContext ;;
      match err with
      | Some e => ret (Some e)
      | None =>
          err <- GroupCreate name ;;
          match err with
          | Some e =>
              if negb (errIs e RBDGroup.librbd_ErrExist) then
                ret (Some (errWrapf ("failed to create volume group " ++ name ++ ": ") e ""))
              else ret None
          | None => ret None
          end
      end
  end.

(** [Delete] *)
Definition Delete (vg : RBDGroup.volumeGroup) : M (World B) (option error) :=
  match RBDGroup.GetName (RBDGroup.common vg) with
  | Err e => ret (Some e)
  | Ok name =>
      err <- lift RBDGroup.GetIOContext ;;
      match err with
      | Some e => ret (Some e)
      | None =>
          err <- GroupRemove name ;;
          match err with
          | Some e =>
              if negb (errIs e RBDGroup.rados_ErrNotFound) then
                ret (Some (errWrapf "failed to remove volume group: " e ""))
              else commonVolumeGroup_Delete (RBDGroup.common vg)
          | None => commonVolumeGroup_Delete (RBDGroup.common vg)
          end
      end
  end.

(** The loop [for i, vol := range volumes] of [ToCSI], from index [i]
    on: the value is [csiVolumes] and the error of the [return] that
    left the loop. *)
Fixpoint ToCSI_range (l : list RBDGroup.Volume) (i : nat)
    (csiVolumes : list (option csi_Volume))
    : M (World B) (list (option csi_Volume) * option error) :=
  match l with
  | [] => ret (csiVolumes, None)
  | vol :: rest =>
      r <- Volume_ToCSI vol ;;
      let '(cv, err) := r in
      let csiVolumes := <[i := cv]> csiVolumes in
      match err with
      | Some e =>
          ret (csiVolumes, Some (errWrapf "failed to convert volume to CSI type: " e ""))
      | None => ToCSI_range rest (S i) csiVolumes
      end
  end.

(** [ToCSI]: the Go result is the pair of the pointer (nil is [None])
    and the error. *)
Definition ToCSI (vg : RBDGroup.volumeGroup)
    : M (World B) (option csi_VolumeGroup * option error) :=
  r <- lift (RBDGroup.ListVolumes vg) ;;
  let '(volumes, err) := r in
  match err with
  | Some e =>
      ret (None, Some (errWrapf "failed to list volumes for volume group: " e ""))
  | None =>
      let csiVolumes := replicate (length volumes) None in
      r <- ToCSI_range volumes 0 csiVolumes ;;
      let '(csiVolumes, err) := r in
      match err with
      | Some e => ret (None, Some e)
      | None =>
          match RBDGroup.GetID (RBDGroup.common vg) with
          | Err e => ret (None, Some (errWrapf "failed to get id for volume group: " e ""))
          | Ok id =>
              let vgContext : gmap string string := ∅ in
              ret (Some {| VolumeGroupId := id; VolumeGroupContext := vgContext;
                           Volumes := csiVolumes |}, None)
          end
      end
  end.

End Admin.

(** A cluster that answers from a fixed script, for the examples. *)
Record Script : Type := mkScript {
  onGroup : RBDGroup.Script;
  onGroupCreate : option error;
  onGroupRemove : option error;
  onCommonDelete : option error;
  onVolumeToCSI : RBDGroup.Volume -> option csi_Volume * option error
}.

#[global] Instance scriptedGroup : RBDGroup.RBD Script := {|
  RBDGroup.answerInitCommonVolumeGroup _ _ b := (b, RBDGroup.onInitCommonVolumeGroup (onGroup b));
  RBDGroup.answerGetVolumeGroupAttributes _ b :=
    (b, RBDGroup.onGetVolumeGroupAttributes (onGroup b));
  RBDGroup.answerGetVolumeByID volID b := (b, RBDGroup.onGetVolumeByID (onGroup b) volID);
  RBDGroup.answerAddToGroup vol b := (b, RBDGroup.onAddToGroup (onGroup b) vol);
  RBDGroup.answerRemoveFromGroup vol b := (b, RBDGroup.onRemoveFromGroup (onGroup b) vol);
  RBDGroup.DecomposeCSIID id := Ok {| RBDGroup.ObjectUUID := id |};
  RBDGroup.answerGetJournal b := (b, RBDGroup.onGetJournal (onGroup b));
  RBDGroup.answerAddVolumesMapping _ _ _ b := (b, RBDGroup.onAddVolumesMapping (onGroup b));
  RBDGroup.answerRemoveVolumesMapping _ _ _ b :=
    (b, RBDGroup.onRemoveVolumesMapping (onGroup b));
  RBDGroup.answerGetIOContext b := (b, RBDGroup.onGetIOContext (onGroup b));
  RBDGroup.answerGroupSnapCreate _ _ b := (b, RBDGroup.onGroupSnapCreate (onGroup b));
  RBDGroup.answerGroupSnapRemove _ _ b := (b, RBDGroup.onGroupSnapRemove (onGroup b));
  RBDGroup.answerGroupSnapGetInfo _ _ b := (b, RBDGroup.onGroupSnapGetInfo (onGroup b));
  RBDGroup.answerNewSnapshotByID vol _ _ b := (b, RBDGroup.onNewSnapshotByID (onGroup b) vol)
|}.

#[global] Instance scripted : GroupAdmin Script := {|
  answerGroupCreate _ b := (b, onGroupCreate b);
  answerGroupRemove _ b := (b, onGroupRemove b);
  answerCommonDelete _ b := (b, onCommonDelete b);
  answerVolumeToCSI vol b := (b, onVolumeToCSI b vol)
|}.

(** The healthy cluster on which the group "vg-1" exists already, so
    that creating it again is refused, and every volume converts. *)
Definition clusterGroupExists : Script :=
  {| onGroup := RBDGroup.clusterHealthy;
     onGroupCreate := Some (errWrapf "rbd: " RBDGroup.librbd_ErrExist "");
     onGroupRemove := None;
     onCommonDelete := None;
     onVolumeToCSI v :=
       match RBDGroup.Volume_GetID v with
       | Ok id => (Some {| CapacityBytes := 1073741824; VolumeId := id |}, None)
       | Err e => (None, Some e)
       end |}.

(** The world that holds the loaded group "vg-1". *)
Definition loadedWorld (b : Script) : World Script :=
  {| cluster := b; heap := RBDGroup.loadedHeap; store := RBDGroup.emptyStore;
     calls := []; logs := [] |}.

End RBDGroupAdmin.

(** ** Package [csi-addons/rbd]: NodeReclaimSpace *)

Module RBDNode.

(** [rs.NodeReclaimSpaceRequest], by its getters, and its response; [Cap]
    is the type of a [csi.VolumeCapability] and a nil pointer is
    [None]. *)
Record NodeReclaimSpaceRequest (Cap : Type) : Type := mkRequest {
  GetVolumeId : string;
  GetStagingTargetPath : string;
  GetVolumePath : string;
  GetVolumeCapability : option Cap
}.
Arguments mkRequest {Cap} _ _ _ _.
Arguments GetVolumeId {Cap} _.
Arguments GetStagingTargetPath {Cap} _.
Arguments GetVolumePath {Cap} _.
Arguments GetVolumeCapability {Cap} _.

Record NodeReclaimSpaceResponse : Type := mkResponse {
  PreUsage : option Z;
  PostUsage : option Z
}.

(** The calls that leave [NodeReclaimSpace]: those on the volume locks,
    which are calls of [RBD], and the command it runs. *)
Inductive Call : Type :=
  | InRBD (c : RBD.Call)
  | CallExecCommand (program : string) (args : list string).

#[global] Instance Call_eq_dec : EqDecision Call.
Proof. solve_decision. Defined.

(** [csicommon.IsBlockMultiNode], which is in another file and answers
    [(isBlock, isMultiNode)], and the answer [(stdout, stderr, err)] of
    [util.ExecCommand]. *)
Class Node (Cap B : Type) : Type := {
  IsBlockMultiNode : list (option Cap) -> bool * bool;
  answerExecCommand : string -> list string -> B -> B * (string * string * option error)
}.

(** The world of [RBD] with the longer list of calls. *)
Record World (B : Type) : Type := mkWorld {
  cluster : B;
  locks : gset string;
  calls : list Call;
  logs : list string
}.
Arguments mkWorld {B} _ _ _ _.
Arguments cluster {B} _.
Arguments locks {B} _.
Arguments calls {B} _.
Arguments logs {B} _.

(** The Go result of [NodeReclaimSpace]: response pointer and error. *)
Definition reclaimResult : Type :=
  option NodeReclaimSpaceResponse * option error.

Section NodeReclaim.
Context {Cap B : Type} `{Node Cap B}.

Local Open Scope go_scope.

(** A function translated in [RBD], run on this world. *)
Definition lift {A} (m : M (RBD.World B) A) : M (World B) A :=
  fun w =>
    let '(g, a) := m {| RBD.cluster := cluster w; RBD.locks := locks w;
                        RBD.calls := []; RBD.logs := [] |} in
    ({| cluster := RBD.cluster g; locks := RBD.locks g;
        calls := calls w ++ map InRBD (RBD.calls g);
        logs := logs w ++ RBD.logs g |}, a).

Definition ExecCommand (program : string) (args : list string)
    : M (World B) (string * string * option error) :=
  fun w =>
    let '(b, r) := answerExecCommand program args (cluster w) in
    ({| cluster := b; locks := locks w;
        calls := calls w ++ [CallExecCommand program args]; logs := logs w |}, r).

(** The statements that choose [path]: the staging path with the volume
    ID below it, else the volume path; [None] when the function returns
    for lack of both. *)
Definition NodeReclaimSpace_path (req : NodeReclaimSpaceRequest Cap) : option string :=
  let volumeID := GetVolumeId req in
  let path := GetStagingTargetPath req in
  if String.eqb path "" then
    let path := GetVolumePath req in
    if String.eqb path "" then None else Some path
  else Some (path ++ "/" ++ volumeID)%string.

(** The statements of [NodeReclaimSpace] after
    [defer rsns.volumeLocks.Release(volumeID)].  The quotes that [%q]
    puts around the command and the path are left out of the message. *)
Definition NodeReclaimSpace_locked (req : NodeReclaimSpaceRequest Cap)
    : M (World B) reclaimResult :=
  match NodeReclaimSpace_path req with
  | None =>
      ret (None, Some (RBD.statusError RBD.InvalidArgument
             "required parameter staging_target_path or volume_path is not set"))
  | Some path =>
      let '(isBlock, isMultiNode) := IsBlockMultiNode [GetVolumeCapability req] in
      if isMultiNode then
        ret (None, Some (RBD.statusError RBD.Unimplemented
               "multi-node space reclaim is not supported"))
      else if isBlock then
        ret (None, Some (RBD.statusError RBD.Unimplemented
               "block-mode space reclaim is not supported"))
      else
        let cmd := "fstrim" in
        r <- ExecCommand cmd [path] ;;
        let '(_, stderr, err) := r in
        match err with
        | Some e =>
            ret (None, Some (RBD.statusError RBD.Internal
                   ("failed to execute " ++ cmd ++ " on " ++ path ++ " (" ++ Error e
                    ++ "): " ++ stderr)))
        | None => ret (Some (mkResponse None None), None)
        end
  end.

(** [NodeReclaimSpace] *)
Definition NodeReclaimSpace (req : NodeReclaimSpaceRequest Cap)
    : M (World B) reclaimResult :=
  let volumeID := GetVolumeId req in
  if String.eqb volumeID "" then
    ret (None, Some (RBD.statusError RBD.InvalidArgument "empty volume ID in request"))
  else
    acquired <- lift (RBD.TryAcquire volumeID) ;;
    if negb acquired then
      lift (RBD.ErrorLog "an operation with the given Volume ID already exists") ;;;
      ret (None, Some (RBD.statusError RBD.Aborted
             "an operation with the given Volume ID already exists"))
    else
      out <- NodeReclaimSpace_locked req ;;
      lift (RBD.Release volumeID) ;;;
      ret out.

End NodeReclaim.

(** A node that answers from a fixed script, for the examples; a
    capability is given by whether it is block-mode and whether it is
    multi-node. *)
Record Script : Type := mkScript {
  onExecCommand : string * string * option error
}.

#[global] Instance scripted : Node (bool * bool) Script := {|
  IsBlockMultiNode caps :=
    (existsb (fun c => match c with Some (block, _) => block | None => false end) caps,
     existsb (fun c => match c with Some (_, multi) => multi | None => false end) caps);
  answerExecCommand _ _ b := (b, onExecCommand b)
|}.

Definition nodeTrims : Script := {| onExecCommand := ("", "", None) |}.

(** A staged filesystem volume of one node. *)
Definition stagedRequest : NodeReclaimSpaceRequest (bool * bool) :=
  {| GetVolumeId := "0001-0009-rook-ceph-0000000000000002-0001";
     GetStagingTargetPath := "/var/lib/kubelet/plugins/kubernetes.io/csi/pv/pvc-1/globalmount";
     GetVolumePath := "";
     GetVolumeCapability := Some (false, false) |}.

Definition newWorld {B} (b : B) : World B :=
  {| cluster := b; locks := ∅; calls := []; logs := [] |}.

End RBDNode.

(** ** Package [controller]: registering and starting the controllers *)

Module Controller.

(** [Config] *)
Record Config : Type := mkConfig {
  DriverName : string;
  Namespace : string;
  ClusterName : string;
  InstanceID : string;
  SetMetadata : bool
}.

(** The fields of [manager.Options] that [Start] sets; [Scheme] is the
    scheme that the two [AddToScheme] calls filled. *)
Record Options : Type := mkOptions {
  LeaderElection : bool;
  MetricsBindAddress : string;
  LeaderElectionNamespace : string;
  LeaderElectionResourceLock : string;
  LeaderElectionID : string
}.

(** [resourcelock.LeasesResourceLock] and
    [apiruntime.ContentTypeProtobuf]. *)
Definition LeasesResourceLock : string := "leases".
Definition ContentTypeProtobuf : string := "application/vnd.kubernetes.protobuf".

#[global] Instance Config_eq_dec : EqDecision Config.
Proof. solve_decision. Defined.
#[global] Instance Options_eq_dec : EqDecision Options.
Proof. solve_decision. Defined.

(** The calls that leave controller.go.  [Ctl] is the type of the values
    in [ControllerList]; a manager that [manager.New] made is told apart
    by a handle. *)
Inductive Call (Ctl : Type) : Type :=
  | CallReplicationAddToScheme
  | CallClientGoAddToScheme
  | CallGetConfigOrDie
  | CallNewManager (contentType : string) (opts : Options)
  | CallAdd (c : Ctl) (mgr : nat) (cfg : Config)
  | CallManagerStart (mgr : nat).
Arguments CallReplicationAddToScheme {Ctl}.
Arguments CallClientGoAddToScheme {Ctl}.
Arguments CallGetConfigOrDie {Ctl}.
Arguments CallNewManager {Ctl} _ _.
Arguments CallAdd {Ctl} _ _ _.
Arguments CallManagerStart {Ctl} _.

(** The interface [Manager], with its method [Add], and the answers of
    the Kubernetes libraries.  [answerGetConfig] is the error for which
    [GetConfigOrDie] would end the process. *)
Class Manager (Ctl B : Type) : Type := {
  answerAdd : Ctl -> nat -> Config -> B -> B * option error;
  answerReplicationAddToScheme : B -> B * option error;
  answerClientGoAddToScheme : B -> B * option error;
  answerGetConfig : B -> B * option error;
  answerNewManager : string -> Options -> B -> B * result nat;
  answerManagerStart : nat -> B -> B * option error
}.

(** The world: the answering libraries, the package variable
    [ControllerList], the calls made so far (oldest first), the error
    log. *)
Record World (Ctl B : Type) : Type := mkWorld {
  cluster : B;
  ControllerList : list Ctl;
  calls : list (Call Ctl);
  logs : list string
}.
Arguments mkWorld {Ctl B} _ _ _ _.
Arguments cluster {Ctl B} _.
Arguments ControllerList {Ctl B} _.
Arguments calls {Ctl B} _.
Arguments logs {Ctl B} _.

(** How [Start] ends: it returns its error, [utilruntime.Must] panics, or
    [GetConfigOrDie] ends the process. *)
Inductive ending : Type :=
  | Ended (err : option error)
  | MustPanicked
  | ProcessExited.

Section Start.
Context {Ctl B : Type} `{Manager Ctl B}.

Local Open Scope go_scope.

Definition perform {A} (c : Call Ctl) (answer : B -> B * A) : M (World Ctl B) A :=
  fun w =>
    let '(b, r) := answer (cluster w) in
    ({| cluster := b; ControllerList := ControllerList w; calls := calls w ++ [c];
        logs := logs w |}, r).

(** [log.ErrorLogMsg] *)
Definition ErrorLogMsg (line : string) : M (World Ctl B) unit :=
  fun w => ({| cluster := cluster w; ControllerList := ControllerList w;
               calls := calls w; logs := logs w ++ [line] |}, tt).

Definition Add (c : Ctl) (mgr : nat) (cfg : Config) :=
  perform (CallAdd c mgr cfg) (answerAdd c mgr cfg).
Definition replicationAddToScheme :=
  perform CallReplicationAddToScheme answerReplicationAddToScheme.
Definition clientGoAddToScheme :=
  perform CallClientGoAddToScheme answerClientGoAddToScheme.
Definition GetConfigOrDie := perform CallGetConfigOrDie answerGetConfig.
Definition manager_New (contentType : string) (opts : Options) :=
  perform (CallNewManager contentType opts) (answerNewManager contentType opts).
Definition mgr_Start (mgr : nat) := perform (CallManagerStart mgr) (answerManagerStart mgr).

(** The loop [for _, c := range ControllerList] of [addToManager]. *)
Fixpoint addToManager_range (mgr : nat) (config : Config) (l : list Ctl)
    : M (World Ctl B) (option error) :=
  match l with
  | [] => ret None
  | c :: rest =>
      err <- Add c mgr config ;;
      match err with
      | Some e => ret (Some (errWrapf "failed to add: " e ""))
      | None => addToManager_range mgr config rest
      end
  end.

(** [addToManager] *)
Definition addToManager (mgr : nat) (config : Config) : M (World Ctl B) (option error) :=
  fun w => addToManager_range mgr config (ControllerList w) w.

(** The options [Start] builds. *)
Definition startOptions (config : Config) : Options :=
  let electionID := (DriverName config ++ "-" ++ Namespace config)%string in
  {| LeaderElection := true;
     MetricsBindAddress := "0";
     LeaderElectionNamespace := Namespace config;
     LeaderElectionResourceLock := LeasesResourceLock;
     LeaderElectionID := electionID |}.

(** [Start], from [manager.New] on. *)
Definition Start_manager (config : Config) (opts : Options) : M (World Ctl B) ending :=
  r <- manager_New ContentTypeProtobuf opts ;;
  match r with
  | Err e =>
      ErrorLogMsg ("failed to create manager " ++ Error e) ;;;
      ret (Ended (Some e))
  | Ok mgr =>
      err <- addToManager mgr config ;;
      match err with
      | Some e =>
          ErrorLogMsg ("failed to add manager " ++ Error e) ;;;
          ret (Ended (Some e))
      | None =>
          err <- mgr_Start mgr ;;
          match err with
          | Some e =>
              ErrorLogMsg ("failed to start manager " ++ Error e) ;;;
              ret (Ended err)
          | None => ret (Ended err)
          end
      end
  end.

(** [Start] *)
Definition Start (config : Config) : M (World Ctl B) ending :=
  err <- replicationAddToScheme ;;
  match err with
  | Some _ => ret MustPanicked
  | None =>
      err <- clientGoAddToScheme ;;
      match err with
      | Some _ => ret MustPanicked
      | None =>
          let opts := startOptions config in
          err <- GetConfigOrDie ;;
          match err with
          | Some _ => ret ProcessExited
          | None => Start_manager config opts
          end
      end
  end.

End Start.

(** The calls that add the controllers of a list to a manager. *)
Definition adds {Ctl : Type} (mgr : nat) (config : Config) (l : list Ctl)
    : list (Call Ctl) :=
  map (fun c => CallAdd c mgr config) l.

(** Libraries that answer from a fixed script, for the examples: the
    controllers are numbered and [onAdd] tells which of them fail. *)
Record Script : Type := mkScript {
  onAdd : nat -> option error;
  onReplicationAddToScheme : option error;
  onClientGoAddToScheme : option error;
  onGetConfig : option error;
  onNewManager : result nat;
  onManagerStart : option error
}.

#[global] Instance scripted : Manager nat Script := {|
  answerAdd c _ _ b := (b, onAdd b c);
  answerReplicationAddToScheme b := (b, onReplicationAddToScheme b);
  answerClientGoAddToScheme b := (b, onClientGoAddToScheme b);
  answerGetConfig b := (b, onGetConfig b);
  answerNewManager _ _ b := (b, onNewManager b);
  answerManagerStart _ b := (b, onManagerStart b)
|}.

(** Every call succeeds. *)
Definition clusterReady : Script :=
  {| onAdd _ := None; onReplicationAddToScheme := None; onClientGoAddToScheme := None;
     onGetConfig := None; onNewManager := Ok 7; onManagerStart := None |}.

(** The second controller cannot be added. *)
Definition clusterSecondRefused : Script :=
  {| onAdd c := if c =? 2 then Some (errNew "no kind is registered") else None;
     onReplicationAddToScheme := None; onClientGoAddToScheme := None;
     onGetConfig := None; onNewManager := Ok 7; onManagerStart := None |}.

Definition rbdConfig : Config :=
  {| DriverName := "rbd.csi.ceph.com"; Namespace := "ceph-csi"; ClusterName := "";
     InstanceID := ""; SetMetadata := false |}.

Definition threeControllers (b : Script) : World nat Script :=
  {| cluster := b; ControllerList := [1; 2; 3]; calls := []; logs := [] |}.

End Controller.

(** * Properties *)

Module ErrorsFacts.

Lemma errIs_refl e : errIs e e = true.
Proof. destruct e; simpl; rewrite decide_True; auto. Qed.

Lemma errIs_wrapf pre inner post target :
  errIs inner target = true -> errIs (errWrapf pre inner post) target = true.
Proof. intros Hin. simpl. case_decide; auto. Qed.

End ErrorsFacts.

Module GoFacts.

Section Along.
Context {W : Type}.

Lemma along_ret (R : W -> W -> Prop) `{!Reflexive R} {A} (a : A) : along R (ret a).
Proof. intros w w' a' [= <- _]. reflexivity. Qed.

Lemma along_bind (R : W -> W -> Prop) `{!Transitive R} {A C} (m : M W A)
    (k : A -> M W C) :
  along R m -> (forall a, along R (k a)) -> along R (bind m k).
Proof.
  intros Hm Hk w w' c. unfold bind.
  destruct (m w) as [w1 a] eqn:E. intros Hka.
  transitivity w1; [eapply Hm | eapply Hk]; eauto.
Qed.

End Along.

End GoFacts.

Module CephFSCoreFacts.
Import CephFSCore ErrorsFacts GoFacts.

(** The declared states and the state of the sentinel are classified as the
    switch lists them. *)
Lemma ToError_declared_states (cs : cephFSCloneState) :
  (state cs = CloneComplete -> ToError cs = None) /\
  (state cs = CloneInProgress -> ToError cs = Some ErrCloneInProgress) /\
  (state cs = ClonePending -> ToError cs = Some ErrClonePending) /\
  (state cs = CloneFailed ->
     ToError cs = Some (errWrapf "" ErrCloneFailed
                          (": " ++ errorMsg cs ++ " (" ++ errno cs ++ ")"))) /\
  (state cs = state CephFSCloneError ->
     ToError cs = Some (errWrapf "" ErrInvalidClone
                          (": " ++ errorMsg cs ++ " (" ++ errno cs ++ ")"))).
Proof.
  unfold ToError. repeat split; intros ->; reflexivity.
Qed.

(** A state that no case of the switch names falls through to the final
    [return nil]. *)
Lemma ToError_fallthrough (cs : cephFSCloneState) :
  state cs <> CloneComplete -> state cs <> state CephFSCloneError ->
  state cs <> CloneInProgress -> state cs <> ClonePending ->
  state cs <> CloneFailed ->
  ToError cs = None.
Proof.
  intros H1 H2 H3 H4 H5. unfold ToError.
  repeat match goal with
         | |- context [String.eqb ?a ?b] =>
             destruct (String.eqb_spec a b); [congruence|]
         end.
  reflexivity.
Qed.

(** C1 (the code at the failing input): a clone the backend reports as
    "canceled", with its error code and message, is none of the states the
    switch names, and [ToError] answers nil, which callers read as a
    completed clone; the claim asks for the terminal error InvalidClone
    carrying code and message. *)
Theorem ToError_unrecognized_state_is_nil :
  let cs := {| state := "canceled";
               progressReport := mkCloneProgressReport "" "" "";
               errno := "-125";
               errorMsg := "clone canceled" |} in
  ToError cs = None /\
  ToError cs <> Some (errWrapf "" ErrInvalidClone
                        (": " ++ errorMsg cs ++ " (" ++ errno cs ++ ")")).
Proof. split; [reflexivity | discriminate]. Qed.

Section CloneFacts.
Context {B : Type} `{CephFS B}.

Local Abbreviation callsOnly := (@CephFSCore.callsOnly B).
Local Abbreviation gainsAtMost := (@CephFSCore.gainsAtMost B).

#[local] Instance callsOnly_refl P : Reflexive (callsOnly P).
Proof. intros w. exists []. rewrite app_nil_r. auto. Qed.

#[local] Instance callsOnly_trans P : Transitive (callsOnly P).
Proof.
  intros w1 w2 w3 (l1 & E1 & F1) (l2 & E2 & F2). exists (l1 ++ l2).
  rewrite E2, E1, app_assoc. split; [reflexivity | apply Forall_app; auto].
Qed.

#[local] Instance gainsAtMost_refl K V : Reflexive (gainsAtMost K V).
Proof. intros w. unfold CephFSCore.gainsAtMost. split; set_solver. Qed.

#[local] Instance gainsAtMost_trans K V : Transitive (gainsAtMost K V).
Proof. intros w1 w2 w3 [] []. unfold CephFSCore.gainsAtMost in *. split; set_solver. Qed.

Lemma clone_perform_inv c answer effect (w w' : World B) r :
  perform c answer effect w = (w', r) ->
  calls w' = calls w ++ [c] /\ logs w' = logs w /\
  store w' = match r with None => effect (store w) | Some _ => store w end.
Proof.
  unfold perform. destruct (answer (cluster w)) as [b r0].
  intros [= <- <-]. auto.
Qed.

Lemma clone_ErrorLog_inv line (w w' : World B) u :
  ErrorLog line w = (w', u) ->
  calls w' = calls w /\ store w' = store w /\ cluster w' = cluster w /\
  logs w' = logs w ++ [line].
Proof. intros [= <- _]. auto. Qed.

Lemma along_calls_perform (P : Call -> Prop) c answer effect :
  P c -> along (callsOnly P) (perform c answer effect).
Proof.
  intros Hc w w' r E. apply clone_perform_inv in E as (E & _).
  exists [c]. auto.
Qed.

Lemma along_calls_ErrorLog P line : along (callsOnly P) (ErrorLog line).
Proof.
  intros w w' u E. apply clone_ErrorLog_inv in E as (E & _).
  exists []. rewrite app_nil_r. auto.
Qed.

Lemma along_gains_ErrorLog k v line : along (gainsAtMost k v) (ErrorLog line).
Proof.
  intros w w' u E. apply clone_ErrorLog_inv in E as (_ & E & _).
  unfold CephFSCore.gainsAtMost. rewrite E. split; set_solver.
Qed.

Lemma along_gains_perform K V c answer effect :
  (forall st, snapshots (effect st) ⊆ K ∪ snapshots st) ->
  (forall st, dom (subvolumes (effect st)) ⊆ V ∪ dom (subvolumes st)) ->
  along (gainsAtMost K V) (perform c answer effect).
Proof.
  intros Hk Hv w w' r E. apply clone_perform_inv in E as (_ & _ & E).
  unfold CephFSCore.gainsAtMost. rewrite E. destruct r; [split; set_solver|].
  split; [apply Hk | apply Hv].
Qed.

Lemma GetCloneState_calls P s :
  P CallGetFSAdmin -> (forall a b d, P (CallCloneStatus a b d)) ->
  along (callsOnly P) (GetCloneState s).
Proof.
  intros P1 P2. unfold GetCloneState.
  apply along_bind; [apply _ | apply along_calls_perform; auto |].
  intros [e|].
  - apply along_bind; [apply _ | apply along_calls_ErrorLog |].
    intros _. apply along_ret, _.
  - apply along_bind; [apply _ | |].
    + intros w w' r. unfold fsaCloneStatus.
      destruct (answerCloneStatus _ _ _ (cluster w)) as [b r0].
      intros [= <- _]. eexists [_]. simpl. split; [reflexivity|]. auto.
    + intros [cs|e].
      * destruct (GetFailure cs); apply along_ret, _.
      * apply along_bind; [apply _ | apply along_calls_ErrorLog |].
        intros _. apply along_ret, _.
Qed.

Lemma GetCloneState_store s (w w' : World B) r :
  GetCloneState s w = (w', r) -> store w' = store w.
Proof.
  unfold GetCloneState, bind, GetFSAdmin, fsaCloneStatus, perform, ErrorLog, ret.
  destruct (answerGetFSAdmin (cluster w)) as [b [e|]]; simpl.
  - intros [= <- _]. reflexivity.
  - destruct (answerCloneStatus _ _ _ b) as [b' [cs|e]]; simpl.
    + destruct (GetFailure cs); intros [= <- _]; reflexivity.
    + intros [= <- _]. reflexivity.
Qed.

Lemma GetCloneState_gains K V s : along (gainsAtMost K V) (GetCloneState s).
Proof.
  intros w w' r E. apply GetCloneState_store in E.
  unfold CephFSCore.gainsAtMost. rewrite E. split; set_solver.
Qed.

(** When the query succeeds it made its two calls and wrote no log line. *)
Lemma GetCloneState_ok s (w w' : World B) cs :
  GetCloneState s w = (w', (cs, None)) ->
  calls w' = calls w ++
    [CallGetFSAdmin;
     CallCloneStatus (FsName (sSubVolume s)) (SubvolumeGroup (sSubVolume s))
                     (VolID (sSubVolume s))] /\
  logs w' = logs w.
Proof.
  unfold GetCloneState, bind, GetFSAdmin, fsaCloneStatus, perform, ErrorLog, ret.
  destruct (answerGetFSAdmin (cluster w)) as [b [e|]]; simpl; [discriminate|].
  destruct (answerCloneStatus _ _ _ b) as [b' [st|e]]; simpl; [|discriminate].
  destruct (GetFailure st); intros [= <- _]; simpl;
    rewrite <- app_assoc; auto.
Qed.

Ltac along_steps :=
  repeat first
    [ apply along_ret; apply _
    | apply along_calls_ErrorLog
    | apply along_gains_ErrorLog
    | apply GetCloneState_gains
    | apply GetCloneState_calls; [reflexivity | intros; reflexivity]
    | apply along_calls_perform; reflexivity
    | apply along_bind; [apply _ | | intros ?]
    | match goal with
      | |- along _ (match ?x with _ => _ end) => destruct x
      | |- along _ (let '(_, _) := ?x in _) => destruct x
      | |- along _ (if ?x then _ else _) => destruct x
      end ].

(** The statements after the [defer] never purge the target. *)
Lemma steps_never_purge s snapClient :
  along (callsOnly notPurge) (CreateCloneFromSubvolume_steps s snapClient).
Proof.
  unfold CreateCloneFromSubvolume_steps, CloneSnapshot, ExpandVolume, DeleteSnapshot.
  along_steps.
Qed.

Lemma gains_CreateSnapshot sn K V :
  (VolID (snapSubVolume sn), SnapshotID sn) ∈ K ->
  along (gainsAtMost K V) (CreateSnapshot sn).
Proof.
  intros Hin. apply along_gains_perform; intros st; simpl; set_solver.
Qed.

Lemma gains_DeleteSnapshot sn K V : along (gainsAtMost K V) (DeleteSnapshot sn).
Proof. apply along_gains_perform; intros st; simpl; set_solver. Qed.

Lemma gains_CloneSnapshot sn target K V :
  VolID target ∈ V -> along (gainsAtMost K V) (CloneSnapshot sn target).
Proof.
  intros Hin. apply along_gains_perform; intros st; simpl; [set_solver|].
  destruct (subvolumes st !! VolID target); [set_solver|].
  rewrite dom_insert_L. set_solver.
Qed.

Lemma gains_PurgeVolume s force K V : along (gainsAtMost K V) (PurgeVolume s force).
Proof.
  apply along_gains_perform; intros st; simpl; [set_solver|].
  rewrite dom_delete_L. set_solver.
Qed.

Lemma gains_ExpandVolume s q K V :
  VolID (sSubVolume s) ∈ V -> along (gainsAtMost K V) (ExpandVolume s q).
Proof.
  intros Hin. apply along_gains_perform; intros st; simpl; [set_solver|].
  rewrite dom_insert_L. set_solver.
Qed.

Ltac gains_steps :=
  repeat first
    [ apply gains_CreateSnapshot; set_solver
    | apply gains_DeleteSnapshot
    | apply gains_CloneSnapshot; set_solver
    | apply gains_PurgeVolume
    | apply gains_ExpandVolume; set_solver
    | progress along_steps ].

(** A call of [CreateCloneFromSubvolume], whatever the cluster answers,
    adds to the store at most the snapshot and the subvolume that carry the
    target's name. *)
Lemma CreateCloneFromSubvolume_gains s parent :
  along (gainsAtMost {[ (VolID parent, VolID (sSubVolume s)) ]} {[ VolID (sSubVolume s) ]})
        (CreateCloneFromSubvolume s parent).
Proof.
  unfold CreateCloneFromSubvolume, CreateCloneFromSubvolume_steps,
    CreateCloneFromSubvolume_deferred, NewSnapshot.
  gains_steps.
Qed.

(** A call of [CreateCloneFromSnapshot] adds no snapshot and at most the
    target subvolume. *)
Lemma CreateCloneFromSnapshot_gains s snap :
  along (gainsAtMost ∅ {[ VolID (sSubVolume s) ]}) (CreateCloneFromSnapshot s snap).
Proof.
  unfold CreateCloneFromSnapshot, CreateCloneFromSnapshot_steps,
    CreateCloneFromSnapshot_deferred, NewSnapshot.
  gains_steps.
Qed.

(** C3: when the state query answers Pending or InProgress, both clone
    operations return the retryable error with no compensation: the calls
    made are the snapshot creation (for a subvolume source), the clone, and
    the state query, with no PurgeVolume and no DeleteSnapshot after them;
    and a repeated call, whatever the cluster answers then, adds no snapshot
    and no subvolume to the ones the store already holds. *)
Theorem retryable_state_is_not_compensated (s : subVolumeClient) :
  let sv := sSubVolume s in
  let query := [CallGetFSAdmin; CallCloneStatus (FsName sv) (SubvolumeGroup sv) (VolID sv)] in
  (forall (parent : SubVolume) (w w1 w2 w3 : World B) cs,
     let snapClient := NewSnapshot (VolID sv) s parent in
     CreateSnapshot snapClient w = (w1, None) ->
     CloneSnapshot snapClient sv w1 = (w2, None) ->
     GetCloneState s w2 = (w3, (cs, None)) ->
     state cs = ClonePending \/ state cs = CloneInProgress ->
     exists w' e,
       CreateCloneFromSubvolume s parent w = (w', Some e) /\
       (state cs = ClonePending -> e = ErrClonePending) /\
       (state cs = CloneInProgress -> e = ErrCloneInProgress) /\
       calls w' = calls w ++
         [CallCreateSnapshot snapClient; CallCloneSnapshot snapClient sv] ++ query /\
       store w' = storeCloneSnapshot snapClient sv (storeCreateSnapshot snapClient (store w)) /\
       forall w'' r, CreateCloneFromSubvolume s parent w' = (w'', r) ->
         snapshots (store w'') ⊆ snapshots (store w') /\
         dom (subvolumes (store w'')) ⊆ dom (subvolumes (store w'))) /\
  (forall (snap : Snapshot) (w w1 w2 : World B) cs,
     let snapClient := NewSnapshot (SnapshotID snap) s (snapSubVolume snap) in
     CloneSnapshot snapClient sv w = (w1, None) ->
     GetCloneState s w1 = (w2, (cs, None)) ->
     state cs = ClonePending \/ state cs = CloneInProgress ->
     exists w' e,
       CreateCloneFromSnapshot s snap w = (w', Some e) /\
       (state cs = ClonePending -> e = ErrClonePending) /\
       (state cs = CloneInProgress -> e = ErrCloneInProgress) /\
       calls w' = calls w ++ [CallCloneSnapshot snapClient sv] ++ query /\
       store w' = storeCloneSnapshot snapClient sv (store w) /\
       forall w'' r, CreateCloneFromSnapshot s snap w' = (w'', r) ->
         snapshots (store w'') ⊆ snapshots (store w') /\
         dom (subvolumes (store w'')) ⊆ dom (subvolumes (store w'))).
Proof.
  intros sv query. split.
  - intros parent w w1 w2 w3 cs snapClient H1 H2 H3 Hst.
    assert (Hcls : exists e, ToError cs = Some e /\ IsCloneRetryError e = true /\
                     (state cs = ClonePending -> e = ErrClonePending) /\
                     (state cs = CloneInProgress -> e = ErrCloneInProgress)).
    { destruct (ToError_declared_states cs) as (_ & Hip & Hp & _).
      destruct Hst as [Hst|Hst]; [rewrite (Hp Hst) | rewrite (Hip Hst)];
        eexists; (split; [reflexivity|]); (split; [reflexivity|]);
        rewrite Hst; split; intros; (reflexivity || discriminate). }
    destruct Hcls as (e & Hto & Hretry & Hp & Hip).
    pose proof (clone_perform_inv _ _ _ _ _ _ H1) as (Hc1 & _ & Hs1).
    pose proof (clone_perform_inv _ _ _ _ _ _ H2) as (Hc2 & _ & Hs2).
    pose proof (GetCloneState_ok _ _ _ _ H3) as (Hc3 & _).
    pose proof (GetCloneState_store _ _ _ _ H3) as Hs3.
    eexists _, e. split.
    { unfold CreateCloneFromSubvolume, bind. fold sv snapClient. rewrite H1.
      unfold CreateCloneFromSubvolume_steps, bind. fold sv. rewrite H2, H3, Hto.
      unfold ErrorLog, ret, CreateCloneFromSubvolume_deferred. rewrite Hretry.
      reflexivity. }
    simpl. split_and!; auto.
    + rewrite Hc3, Hc2, Hc1, <- !app_assoc. reflexivity.
    + rewrite Hs3, Hs2, Hs1. reflexivity.
    + intros w'' r E. apply CreateCloneFromSubvolume_gains in E as [Ek Ev].
      revert Ek Ev. simpl. rewrite Hs3, Hs2, Hs1. simpl. fold sv.
      split; [set_solver|]. revert Ev.
      destruct (subvolumes (store w) !! VolID sv) eqn:Hl.
      * apply (elem_of_dom_2 (D := gset string)) in Hl. set_solver.
      * rewrite dom_insert_L. set_solver.
  - intros snap w w1 w2 cs snapClient H1 H2 Hst.
    assert (Hcls : exists e, ToError cs = Some e /\ IsCloneRetryError e = true /\
                     (state cs = ClonePending -> e = ErrClonePending) /\
                     (state cs = CloneInProgress -> e = ErrCloneInProgress)).
    { destruct (ToError_declared_states cs) as (_ & Hip & Hp & _).
      destruct Hst as [Hst|Hst]; [rewrite (Hp Hst) | rewrite (Hip Hst)];
        eexists; (split; [reflexivity|]); (split; [reflexivity|]);
        rewrite Hst; split; intros; (reflexivity || discriminate). }
    destruct Hcls as (e & Hto & Hretry & Hp & Hip).
    pose proof (clone_perform_inv _ _ _ _ _ _ H1) as (Hc1 & _ & Hs1).
    pose proof (GetCloneState_ok _ _ _ _ H2) as (Hc2 & _).
    pose proof (GetCloneState_store _ _ _ _ H2) as Hs2.
    eexists _, e. split.
    { unfold CreateCloneFromSnapshot, bind. fold sv snapClient. rewrite H1.
      unfold CreateCloneFromSnapshot_steps, bind. rewrite H2, Hto.
      unfold ret, CreateCloneFromSnapshot_deferred. rewrite Hretry.
      reflexivity. }
    simpl. split_and!; auto.
    + rewrite Hc2, Hc1, <- !app_assoc. reflexivity.
    + rewrite Hs2, Hs1. reflexivity.
    + intros w'' r E. apply CreateCloneFromSnapshot_gains in E as [Ek Ev].
      revert Ek Ev. simpl. rewrite Hs2, Hs1. simpl. fold sv.
      split; [set_solver|]. revert Ev.
      destruct (subvolumes (store w) !! VolID sv) eqn:Hl.
      * apply (elem_of_dom_2 (D := gset string)) in Hl. set_solver.
      * rewrite dom_insert_L. set_solver.
Qed.

(** C4 (as amended): once the intermediate snapshot has been created, a
    call of [CreateCloneFromSubvolume] that ends with a non-retryable error
    runs the compensation exactly once.  The statements after the [defer]
    returned that same error and made no PurgeVolume call; after them, and
    last, come PurgeVolume (forced) and then DeleteSnapshot on the
    intermediate snapshot, both made whatever the other answers; a failing
    answer only adds a log line, and the error returned is the triggering
    one. *)
Theorem terminal_error_compensated_once (s : subVolumeClient) (parent : SubVolume)
    (w w1 w' : World B) (e : error) :
  let sv := sSubVolume s in
  let snapClient := NewSnapshot (VolID sv) s parent in
  CreateSnapshot snapClient w = (w1, None) ->
  CreateCloneFromSubvolume s parent w = (w', Some e) ->
  IsCloneRetryError e = false ->
  exists w2 b3 perr derr,
    CreateCloneFromSubvolume_steps s snapClient w1 = (w2, Some e) /\
    (exists l, calls w2 = calls w1 ++ l /\ Forall notPurge l) /\
    answerPurgeVolume sv true (cluster w2) = (b3, perr) /\
    answerDeleteSnapshot snapClient b3 = (cluster w', derr) /\
    calls w' = calls w2 ++ [CallPurgeVolume sv true; CallDeleteSnapshot snapClient] /\
    logs w' = logs w2 ++ logged "failed to delete volume" perr
                      ++ logged "failed to delete snapshot" derr.
Proof.
  intros sv snapClient H1 Hrun Hterm.
  unfold CreateCloneFromSubvolume, bind in Hrun. fold sv snapClient in Hrun.
  rewrite H1 in Hrun.
  destruct (CreateCloneFromSubvolume_steps s snapClient w1) as [w2 r2] eqn:Hsteps.
  pose proof (steps_never_purge _ _ _ _ _ Hsteps) as Hnp.
  destruct r2 as [e2|]; simpl in Hrun.
  2:{ unfold ret in Hrun. discriminate. }
  destruct (IsCloneRetryError e2) eqn:Hr2; simpl in Hrun.
  { unfold ret in Hrun. congruence. }
  unfold bind, PurgeVolume, DeleteSnapshot, perform, ErrorLog, ret in Hrun.
  fold sv in Hrun.
  destruct (answerPurgeVolume sv true (cluster w2)) as [b3 perr] eqn:Hp.
  destruct perr as [pe|]; simpl in Hrun;
    destruct (answerDeleteSnapshot snapClient b3) as [b4 derr] eqn:Hd;
    destruct derr as [de|]; simpl in Hrun;
    injection Hrun as <- <-; simpl;
    eexists w2, b3, _, _; split_and!; eauto;
    simpl; rewrite <- ?app_assoc, ?app_nil_r; reflexivity.
Qed.

(** C5: when the clone is reported Complete, the next call is the resize to
    the size the caller asked for.  If the resize fails, the statements
    after the [defer] stop there with that error and do not delete the
    snapshot.  If it succeeds, the subvolume has the requested size
    (whatever the size it had, or its parent has), and only then is the
    intermediate snapshot deleted; when that deletion succeeds too the
    function returns nil and the subvolume still has the requested size. *)
Theorem complete_clone_is_resized_then_snapshot_deleted (s : subVolumeClient)
    (parent : SubVolume) (w w1 w2 w3 w4 : World B) cs (xerr : option error) :
  let sv := sSubVolume s in
  let snapClient := NewSnapshot (VolID sv) s parent in
  CreateSnapshot snapClient w = (w1, None) ->
  CloneSnapshot snapClient sv w1 = (w2, None) ->
  GetCloneState s w2 = (w3, (cs, None)) ->
  state cs = CloneComplete ->
  ExpandVolume s (Size sv) w3 = (w4, xerr) ->
  calls w4 = calls w3 ++ [CallExpandVolume sv (Size sv)] /\
  (forall e, xerr = Some e ->
     exists wb, CreateCloneFromSubvolume_steps s snapClient w1 = (wb, Some e) /\
                calls wb = calls w4) /\
  (xerr = None ->
     subvolumes (store w4) !! VolID sv = Some (Size sv) /\
     forall w5 derr, DeleteSnapshot snapClient w4 = (w5, derr) ->
       (exists wb, CreateCloneFromSubvolume_steps s snapClient w1 = (wb, derr) /\
                   calls wb = calls w4 ++ [CallDeleteSnapshot snapClient]) /\
       (derr = None ->
          CreateCloneFromSubvolume s parent w = (w5, None) /\
          subvolumes (store w5) !! VolID sv = Some (Size sv))).
Proof.
  intros sv snapClient H1 H2 H3 Hst H4.
  destruct (ToError_declared_states cs) as (Hto & _). specialize (Hto Hst).
  pose proof (clone_perform_inv _ _ _ _ _ _ H4) as (Hc4 & _ & Hs4).
  assert (Hsteps : CreateCloneFromSubvolume_steps s snapClient w1 =
    (err <- ExpandVolume s (Size sv) ;;
     match err with
     | Some e => ErrorLog "failed to expand volume" ;;; ret (Some e)
     | None =>
         err <- DeleteSnapshot snapClient ;;
         match err with
         | Some e => ErrorLog "failed to delete snapshot" ;;; ret (Some e)
         | None => ret None
         end
     end)%go w3).
  { unfold CreateCloneFromSubvolume_steps, bind. fold sv.
    rewrite H2, H3, Hto. reflexivity. }
  split; [exact Hc4|]. split.
  - intros e ->. eexists. rewrite Hsteps. unfold bind at 1. rewrite H4.
    split; reflexivity.
  - intros ->. split.
    { rewrite Hs4. simpl. apply lookup_insert_eq. }
    intros w5 derr H5.
    pose proof (clone_perform_inv _ _ _ _ _ _ H5) as (Hc5 & _ & Hs5).
    assert (Hsz : subvolumes (store w5) !! VolID sv = Some (Size sv)).
    { rewrite Hs5, Hs4. destruct derr; simpl; apply lookup_insert_eq. }
    split.
    + rewrite Hsteps. unfold bind at 1. rewrite H4. unfold bind at 1. rewrite H5.
      destruct derr; eexists; (split; [reflexivity|]); simpl; exact Hc5.
    + intros ->. split; [|exact Hsz].
      unfold CreateCloneFromSubvolume, bind at 1. fold sv snapClient. rewrite H1.
      unfold bind at 1. rewrite Hsteps. unfold bind at 1. rewrite H4.
      unfold bind at 1. rewrite H5. reflexivity.
Qed.

End CloneFacts.


Lemma retryable_state_is_not_compensated_witness :
  let w := newWorld (clusterInState ClonePending None) parentStore in
  let sv := sSubVolume targetClient in
  (exists w', CreateCloneFromSubvolume targetClient parentVol w = (w', Some ErrClonePending) /\
     Forall (fun c => isPurgeVolume c = false /\ isDeleteSnapshot c = false) (calls w')) /\
  (exists w', CreateCloneFromSnapshot targetClient sourceSnap w = (w', Some ErrClonePending) /\
     Forall (fun c => isPurgeVolume c = false /\ isDeleteSnapshot c = false) (calls w')).
Proof.
  intros w sv.
  destruct (retryable_state_is_not_compensated (B := Script) targetClient)
    as [Hsub Hsnap].
  split.
  - edestruct (Hsub parentVol w) as (w' & e & Hrun & Hp & _ & Hcalls & _);
      [reflexivity | reflexivity | reflexivity | left; reflexivity |].
    exists w'. rewrite Hrun, (Hp eq_refl), Hcalls. split; [reflexivity|].
    repeat constructor.
  - edestruct (Hsnap sourceSnap w) as (w' & e & Hrun & Hp & _ & Hcalls & _);
      [reflexivity | reflexivity | left; reflexivity |].
    exists w'. rewrite Hrun, (Hp eq_refl), Hcalls. split; [reflexivity|].
    repeat constructor.
Defined.

Lemma terminal_error_compensated_once_witness :
  let w := newWorld clusterCloneRefused parentStore in
  let sv := sSubVolume targetClient in
  let snapClient := NewSnapshot (VolID sv) targetClient parentVol in
  exists w',
    CreateCloneFromSubvolume targetClient parentVol w = (w', Some (errNew "EIO")) /\
    IsCloneRetryError (errNew "EIO") = false /\
    calls w' = [CallCreateSnapshot snapClient; CallCloneSnapshot snapClient sv;
                CallPurgeVolume sv true; CallDeleteSnapshot snapClient] /\
    logs w' = ["failed to clone snapshot"; "failed to delete volume"].
Proof.
  intros w sv snapClient. eexists. split; [reflexivity|]. split; [reflexivity|].
  edestruct (terminal_error_compensated_once (B := Script) targetClient parentVol w)
    as (w2 & b3 & perr & derr & Hsteps & _ & Hp & Hd & Hcalls & Hlogs);
    [reflexivity | reflexivity | reflexivity |].
  injection Hsteps as <-. injection Hp as <- <-. injection Hd as <-.
  split; [exact Hcalls | exact Hlogs].
Defined.

(** C4 (counterexample): when the snapshot creation fails, the function
    returns that non-retryable error from the [return] that precedes the
    [defer]; the only call made is CreateSnapshot and no compensation
    runs. *)
Lemma snapshot_failure_is_not_compensated :
  ~ compensatesEveryTerminalError targetClient parentVol
      (newWorld clusterSnapshotRefused parentStore).
Proof.
  intros Hclaim.
  destruct (Hclaim _ (errNew "EDQUOT") eq_refl eq_refl) as [pre Hpre].
  simpl in Hpre. apply (f_equal length) in Hpre.
  rewrite length_app in Hpre. simpl in Hpre. lia.
Qed.

Lemma complete_clone_is_resized_then_snapshot_deleted_witness :
  let w := newWorld (clusterInState CloneComplete None) parentStore in
  let sv := sSubVolume targetClient in
  exists w5,
    CreateCloneFromSubvolume targetClient parentVol w = (w5, None) /\
    subvolumes (store w5) !! "csi-vol-clone" = Some 2147483648%Z /\
    subvolumes (store w5) !! "csi-vol-parent" = Some 1073741824%Z.
Proof.
  intros w sv.
  edestruct (complete_clone_is_resized_then_snapshot_deleted (B := Script)
               targetClient parentVol w) as (_ & _ & Hok);
    [reflexivity | reflexivity | reflexivity | reflexivity | reflexivity |].
  destruct (Hok eq_refl) as (_ & Hdel).
  edestruct Hdel as (_ & Hfin); [reflexivity|].
  destruct (Hfin eq_refl) as (Hrun & Hsize).
  eexists. split; [exact Hrun|]. split; [exact Hsize|].
  vm_compute. reflexivity.
Defined.

End CephFSCoreFacts.

Module RBDGroupFacts.
Import RBDGroup GoFacts.

(** *** Slices on the heap *)

Lemma valid_nil h : valid h nilSlice.
Proof. left. auto. Qed.

Lemma separate_nil t : separate nilSlice t.
Proof. intros Hlt. simpl in Hlt. lia. Qed.

Lemma separate_same s : separate s s.
Proof. intros _ _. lia. Qed.

Lemma elements_empty h s : sl_len s = 0 -> elements h s = [].
Proof.
  unfold elements. intros ->. destruct (h !! sl_arr s); [apply take_0 | reflexivity].
Qed.

Lemma elements_length h s : valid h s -> length (elements h s) = sl_len s.
Proof.
  unfold elements. intros [[Hl _] | (a & Ha & Hle)].
  - rewrite Hl. destruct (h !! sl_arr s); [rewrite take_0|]; reflexivity.
  - rewrite Ha, length_take. lia.
Qed.

Section Slices.
Context `{Runtime}.

Lemma appendSlice_self h s v h' s' :
  valid h s -> appendSlice h s v = (h', s') ->
  elements h' s' = elements h s ++ [v] /\ valid h' s' /\ sl_len s' = S (sl_len s).
Proof.
  intros Hv. pose proof (elements_length _ _ Hv) as Hlen.
  unfold appendSlice. destruct (Nat.ltb_spec (sl_len s) (sl_cap s)) as [Hlt|Hge].
  - intros [= <- <-]. destruct Hv as [[? ?] | (a & Ha & Hle)]; [lia|].
    unfold valid, elements in *. simpl. rewrite list_lookup_alter_eq, Ha. simpl.
    rewrite Ha in Hlen.
    split_and!; [| right; eexists; split; [reflexivity|] | reflexivity].
    + rewrite take_app_ge by lia. rewrite Hlen.
      replace (S (sl_len s) - sl_len s) with 1 by lia. reflexivity.
    + simpl. rewrite !length_app, Hlen. simpl. lia.
  - intros [= <- <-]. unfold valid, elements at 1. simpl.
    rewrite lookup_app_r, Nat.sub_diag by lia. simpl.
    split_and!; [| right; eexists; split; [reflexivity|] | reflexivity].
    + apply take_ge. rewrite length_app. simpl. lia.
    + simpl. rewrite length_app. simpl. lia.
Qed.

Lemma appendSlice_frame h s v h' s' t :
  valid h t -> separate s t -> appendSlice h s v = (h', s') ->
  elements h' t = elements h t /\ valid h' t /\ separate s' t.
Proof.
  intros Hvt Hsep. unfold appendSlice.
  destruct (Nat.ltb_spec (sl_len s) (sl_cap s)) as [Hlt|Hge].
  - intros [= <- <-]. specialize (Hsep Hlt).
    destruct (decide (sl_arr s = sl_arr t)) as [Heq|Hne].
    + specialize (Hsep Heq).
      assert (Hsep' : separate {| sl_arr := sl_arr s; sl_len := S (sl_len s);
                                  sl_cap := sl_cap s |} t).
      { intros _ _. simpl. lia. }
      destruct Hvt as [[Hl Hc] | (a & Ha & Hle)].
      * split_and!; [| left; auto | exact Hsep'].
        unfold elements. rewrite Hl.
        destruct (alter _ _ h !! sl_arr t), (h !! sl_arr t); rewrite ?take_0; reflexivity.
      * split_and!; [| right | exact Hsep'].
        -- unfold elements. rewrite <- Heq, list_lookup_alter_eq, Heq, Ha. simpl.
           rewrite take_app_le by (rewrite length_take; lia).
           rewrite take_take. f_equal. lia.
        -- eexists. split; [rewrite <- Heq, list_lookup_alter_eq, Heq, Ha; reflexivity|].
           simpl. rewrite length_app, length_take. simpl. lia.
    + split_and!.
      * unfold elements. rewrite list_lookup_alter_ne by exact Hne. reflexivity.
      * destruct Hvt as [? | (a & Ha & Hle)]; [left; auto|right].
        exists a. rewrite list_lookup_alter_ne by exact Hne. auto.
      * intros _ Heq. simpl in Heq. contradiction.
  - intros [= <- <-]. destruct Hvt as [[Hl Hc] | (a & Ha & Hle)].
    + split_and!; [| left; auto | intros _ _; simpl; lia].
      unfold elements. rewrite Hl.
      destruct ((h ++ _) !! sl_arr t), (h !! sl_arr t); rewrite ?take_0; reflexivity.
    + pose proof (lookup_lt_Some _ _ _ Ha) as Hlt.
      split_and!.
      * unfold elements. rewrite lookup_app_l by exact Hlt. reflexivity.
      * right. exists a. rewrite lookup_app_l by exact Hlt. auto.
      * intros _ Heq. simpl in Heq. lia.
Qed.

End Slices.

Section GroupFacts.
Context {B : Type} `{RBD B} `{Runtime}.

(** What each primitive does to the world. *)
Lemma perform_inv {A} c (answer : B -> B * A) effect (w w' : World B) r :
  perform c answer effect w = (w', r) ->
  answer (cluster w) = (cluster w', r) /\ heap w' = heap w /\
  store w' = effect r (store w) /\ calls w' = calls w ++ [c] /\ logs w' = logs w.
Proof.
  unfold perform. destruct (answer (cluster w)) as [b r0].
  intros [= <- <-]. auto.
Qed.

Lemma notify_inv c (w w' : World B) u :
  notify c w = (w', u) ->
  cluster w' = cluster w /\ heap w' = heap w /\ store w' = store w /\
  calls w' = calls w ++ [c] /\ logs w' = logs w.
Proof. intros [= <- _]. auto. Qed.

Lemma ErrorLog_inv line (w w' : World B) u :
  ErrorLog line w = (w', u) ->
  cluster w' = cluster w /\ heap w' = heap w /\ store w' = store w /\
  calls w' = calls w /\ logs w' = logs w ++ [line].
Proof. intros [= <- _]. auto. Qed.

Lemma append_inv s v (w w' : World B) s' :
  append s v w = (w', s') ->
  appendSlice (heap w) s v = (heap w', s') /\
  cluster w' = cluster w /\ store w' = store w /\
  calls w' = calls w /\ logs w' = logs w.
Proof.
  unfold append. destruct (appendSlice (heap w) s v) as [h s0].
  intros [= <- <-]. auto.
Qed.

Lemma destroyVolumes_inv l : forall (w w' : World B) u,
  destroyVolumes l w = (w', u) ->
  cluster w' = cluster w /\ heap w' = heap w /\ store w' = store w /\
  calls w' = calls w ++ map CallVolumeDestroy l /\ logs w' = logs w.
Proof.
  induction l as [|v l IH]; intros w w' u; simpl.
  - intros [= <- _]. rewrite app_nil_r. auto.
  - unfold bind. destruct (Volume_Destroy v w) as [w1 []] eqn:E1.
    apply notify_inv in E1 as (Ec & Eh & Es & Ecalls & El).
    intros E. apply IH in E as (Ec' & Eh' & Es' & Ecalls' & El').
    rewrite Ec', Eh', Es', Ecalls', El', Ecalls, <- app_assoc. auto.
Qed.

(** The loop of [GetVolumeGroup] appends every volume the resolver answers
    and asks for one ID more than it resolved when it stops on an error. *)
Lemma GetVolumeGroup_resolve_inv id volIDs : forall s (w w' : World B) s' err,
  GetVolumeGroup_resolve id volIDs s w = (w', (s', err)) ->
  valid (heap w) s ->
  let L := resolvedBy volIDs (cluster w) in
  valid (heap w') s' /\
  elements (heap w') s' = elements (heap w) s ++ L /\
  store w' = store w /\ logs w' = logs w /\
  calls w' = calls w ++ map CallGetVolumeByID (take (S (length L)) volIDs) /\
  (err = None -> length L = length volIDs) /\
  (is_Some err -> length L < length volIDs) /\
  (forall t, valid (heap w) t -> separate s t ->
     elements (heap w') t = elements (heap w) t /\ valid (heap w') t /\ separate s' t).
Proof.
  induction volIDs as [|volID rest IH]; intros s w w' s' err; simpl.
  - intros [= <- <- <-] Hv. rewrite !app_nil_r. split_and!; auto.
    intros [? [=]].
  - unfold bind. destruct (GetVolumeByID volID w) as [w1 r] eqn:E1.
    apply perform_inv in E1 as (Ea & Eh & Es & Ec & El). rewrite Ea.
    unfold noEffect in Es.
    destruct r as [vol|e].
    + destruct (append s vol w1) as [w2 s2] eqn:E2.
      apply append_inv in E2 as (Eapp & Ec2 & Es2 & Ecalls2 & El2).
      intros E Hv. rewrite Eh in Eapp.
      destruct (appendSlice_self _ _ _ _ _ Hv Eapp) as (Hel & Hv2 & _).
      destruct (IH _ _ _ _ _ E Hv2) as (Hv' & Hel' & Hs' & Hl' & Hc' & Hn' & Hlt' & Hfr').
      rewrite Ec2 in *. split_and!.
      * exact Hv'.
      * rewrite Hel', Hel, <- app_assoc. reflexivity.
      * congruence.
      * congruence.
      * rewrite Hc', Ecalls2, Ec, <- app_assoc. reflexivity.
      * intros Hnone. simpl. rewrite (Hn' Hnone). reflexivity.
      * intros Hsome. simpl. specialize (Hlt' Hsome). lia.
      * intros t Hvt Hsep.
        destruct (appendSlice_frame _ _ _ _ _ t Hvt Hsep Eapp) as (F1 & F2 & F3).
        destruct (Hfr' t F2 F3) as (G1 & G2 & G3). rewrite G1, F1. auto.
    + intros [= <- <- <-] Hv. simpl. rewrite app_nil_r, Eh.
      split_and!; auto; [discriminate | intros _; lia].
Qed.


(** What a call of [GetVolumeGroup] that hands back a group leaves: both
    slices are the same header, over the volumes the resolver answered. *)
Lemma GetVolumeGroup_loaded id csiDriver (w w0 : World B) vg r :
  GetVolumeGroup id csiDriver w = (w0, (Some vg, r)) ->
  valid (heap w0) (volumes vg) /\
  volumesToFree vg = volumes vg /\
  elements (heap w0) (volumes vg) = resolvedAtLoad id csiDriver (cluster w).
Proof.
  unfold GetVolumeGroup, resolvedAtLoad, bind.
  destruct (initCommonVolumeGroup id csiDriver w) as [w1 r1] eqn:E1.
  apply perform_inv in E1 as (Ea1 & Eh1 & _). rewrite Ea1.
  destruct r1 as [cvg|e]; [|intros [=]].
  destruct (getVolumeGroupAttributes _ w1) as [w2 r2] eqn:E2.
  apply perform_inv in E2 as (Ea2 & Eh2 & _). simpl in Ea2. rewrite Ea2.
  destruct r2 as [volumeMap|e].
  - destruct (GetVolumeGroup_resolve id volumeMap nilSlice w2)
      as [w3 [vols err]] eqn:E3.
    apply GetVolumeGroup_resolve_inv in E3 as (Hv & Hel & _); [|apply valid_nil].
    destruct err as [e|].
    + destruct (GetVolumeGroup_deferred _ vols w3). intros [=].
    + unfold GetVolumeGroup_deferred. simpl.
      destruct (0 <? sl_len vols).
      * intros [= <- <- <-]. simpl. split_and!; auto.
        rewrite Hel, elements_empty; reflexivity.
      * unfold bind, range. destruct (destroyVolumes _ w3) as [w4 u] eqn:E4.
        apply destroyVolumes_inv in E4 as (_ & Eh4 & _).
        intros [= <- <- <-]. simpl. rewrite Eh4. split_and!; auto.
        rewrite Hel, elements_empty; reflexivity.
  - destruct (errIs e ErrRBDGroupNotFound).
    + unfold bind, ErrorLog, ret. intros [= <- <- <-]. simpl.
      split_and!; [apply valid_nil | reflexivity |].
      rewrite elements_empty by reflexivity. reflexivity.
    + intros [=].
Qed.

(** C6: (a) when the attributes cannot be read because the group does not
    exist, [GetVolumeGroup] hands back the group object, with no member and
    nothing to free, together with that error, and resolves nothing;
    (b) any other error while reading the attributes gives no group;
    (c) when the attributes are read and the function still ends with an
    error, a volume could not be resolved: no group is returned, and after
    the lookups come the Destroy calls of exactly the volumes the resolver
    had answered, each once, in order. *)
Theorem GetVolumeGroup_not_found_or_nothing_leaked (id csiDriver : string)
    (w w1 w2 : World B) (cvg : commonVolumeGroup) :
  let vg := {| common := cvg; volumes := nilSlice; volumesToFree := nilSlice |} in
  initCommonVolumeGroup id csiDriver w = (w1, Ok cvg) ->
  (forall e,
     getVolumeGroupAttributes vg w1 = (w2, Err e) ->
     errIs e ErrRBDGroupNotFound = true ->
     exists w',
       GetVolumeGroup id csiDriver w = (w', (Some vg, Some e)) /\
       elements (heap w') (volumes vg) = [] /\
       elements (heap w') (volumesToFree vg) = [] /\
       calls w' = calls w2 /\ heap w' = heap w) /\
  (forall e,
     getVolumeGroupAttributes vg w1 = (w2, Err e) ->
     errIs e ErrRBDGroupNotFound = false ->
     exists e', GetVolumeGroup id csiDriver w = (w2, (None, Some e'))) /\
  (forall volumeMap w' g e,
     getVolumeGroupAttributes vg w1 = (w2, Ok volumeMap) ->
     GetVolumeGroup id csiDriver w = (w', (g, Some e)) ->
     let L := resolvedBy volumeMap (cluster w2) in
     g = None /\
     length L < length volumeMap /\
     calls w' = calls w2 ++ map CallGetVolumeByID (take (S (length L)) volumeMap)
                         ++ map CallVolumeDestroy L).
Proof.
  intros vg E1. split_and!.
  - intros e E2 Hnf. unfold GetVolumeGroup, bind. rewrite E1. fold vg. rewrite E2, Hnf.
    unfold ErrorLog, ret. eexists. split; [reflexivity|]. simpl.
    apply perform_inv in E1 as (_ & Eh1 & _).
    apply perform_inv in E2 as (_ & Eh2 & _).
    rewrite !elements_empty by reflexivity. split_and!; try reflexivity.
    congruence.
  - intros e E2 Hnf. unfold GetVolumeGroup, bind. rewrite E1. fold vg. rewrite E2, Hnf.
    eexists. reflexivity.
  - intros volumeMap w' g e E2. unfold GetVolumeGroup, bind.
    rewrite E1. fold vg. rewrite E2.
    destruct (GetVolumeGroup_resolve id volumeMap nilSlice w2)
      as [w3 [vols err]] eqn:E3.
    apply GetVolumeGroup_resolve_inv in E3
      as (Hv & Hel & _ & _ & Hc & Hn & Hlt & _); [|apply valid_nil].
    assert (Hel0 : elements (heap w2) nilSlice = []).
    { apply elements_empty. reflexivity. }
    rewrite Hel0 in Hel. simpl in Hel.
    destruct err as [e3|].
    + unfold GetVolumeGroup_deferred. simpl. unfold bind, range.
      destruct (destroyVolumes _ w3) as [w4 u] eqn:E4.
      apply destroyVolumes_inv in E4 as (_ & _ & _ & Hc4 & _).
      intros [= <- <- <-]. split_and!.
      * reflexivity.
      * apply Hlt. eauto.
      * rewrite Hc4, Hc, Hel, <- app_assoc. reflexivity.
    + destruct (GetVolumeGroup_deferred _ vols w3). intros [=].
Qed.

(** Case analysis along a run that is given as an equation. *)
Ltac crunch E :=
  repeat first
    [ progress (unfold bind, ret in E)
    | match type of E with
      | context [match ?x with _ => _ end] =>
          match x with
          | context [match _ with _ => _ end] => fail 1
          | _ => destruct x eqn:?
          end
      end ].

Ltac inv_prims :=
  unfold initCommonVolumeGroup, getVolumeGroupAttributes, GetVolumeByID,
    AddToGroup, RemoveFromGroup, getJournal, AddVolumesMapping,
    RemoveVolumesMapping, GetIOContext, GroupSnapCreate, GroupSnapRemove,
    GroupSnapGetInfo, NewSnapshotByID, Volume_Destroy, commonVolumeGroup_Destroy,
    Snapshot_Destroy in *;
  repeat match goal with
    | E : perform _ _ _ _ = (_, _) |- _ =>
        apply perform_inv in E as (? & ? & ? & ? & ?)
    | E : notify _ _ = (_, _) |- _ =>
        apply notify_inv in E as (? & ? & ? & ? & ?)
    | E : ErrorLog _ _ = (_, _) |- _ =>
        apply ErrorLog_inv in E as (? & ? & ? & ? & ?)
    | E : append _ _ _ = (_, _) |- _ =>
        apply append_inv in E as (? & ? & ? & ? & ?)
    end;
  unfold noEffect, whenNil in *.

Ltac same_heap :=
  repeat match goal with Hh : heap _ = heap _ |- _ => rewrite Hh end.

(** [AddVolume] never touches [volumesToFree]; it leaves the heap alone
    when the cluster refuses the volume and appends to [volumes]
    otherwise.  When it returns nil the journal has the volume's ID. *)
Lemma AddVolume_inv vg vol (w w' : World B) vg' r :
  AddVolume vg vol w = (w', (vg', r)) ->
  common vg' = common vg /\ volumesToFree vg' = volumesToFree vg /\
  ((heap w' = heap w /\ volumes vg' = volumes vg /\ store w' = store w /\ is_Some r) \/
   appendSlice (heap w) (volumes vg) vol = (heap w', volumes vg')) /\
  (r = None ->
     exists volID pool id csiID,
       Volume_GetID vol = Ok volID /\ GetPool (common vg) = Ok pool /\
       GetID (common vg) = Ok id /\ DecomposeCSIID id = Ok csiID /\
       store w' = storeAddVolumesMapping pool (ObjectUUID csiID) [(volID, "")] (store w) /\
       appendSlice (heap w) (volumes vg) vol = (heap w', volumes vg')).
Proof.
  unfold AddVolume. intros E. crunch E; injection E as <- <- <-; inv_prims; simpl in *.
  all: split_and!; try reflexivity.
  all: try (intros [=]).
  all: try (left; split_and!; eauto; congruence).
  all: try (right; congruence).
  eexists _, _, _, _. split_and!; eauto; congruence.
Qed.

Lemma RemoveVolume_rebuild_inv toRemove l : forall s (w w' : World B) s' err,
  RemoveVolume_rebuild toRemove l s w = (w', (s', err)) ->
  valid (heap w) s ->
  cluster w' = cluster w /\ store w' = store w /\ calls w' = calls w /\
  logs w' = logs w /\ valid (heap w') s' /\
  (err = None ->
     elements (heap w') s' = elements (heap w) s ++ List.filter (keeps toRemove) l /\
     Forall (fun v => exists id, Volume_GetID v = Ok id) l) /\
  (forall t, valid (heap w) t -> separate s t ->
     elements (heap w') t = elements (heap w) t /\ valid (heap w') t /\ separate s' t).
Proof.
  induction l as [|v l IH]; intros s w w' s' err; simpl.
  - intros [= <- <- <-] Hv. rewrite app_nil_r. split_and!; auto.
  - unfold keeps at 1. destruct (Volume_GetID v) as [id|e] eqn:Hid.
    + destruct (String.eqb id toRemove); simpl.
      * intros E Hv.
        destruct (IH _ _ _ _ _ E Hv) as (? & ? & ? & ? & ? & Hel' & ?).
        split_and!; auto. intros Hn. destruct (Hel' Hn). split; eauto.
      * unfold bind. destruct (append s v w) as [w1 s1] eqn:E1.
        apply append_inv in E1 as (Eapp & Ec & Es & Ecalls & El).
        intros E Hv.
        destruct (appendSlice_self _ _ _ _ _ Hv Eapp) as (Hel & Hv1 & _).
        destruct (IH _ _ _ _ _ E Hv1) as (Ec' & Es' & Ecalls' & El' & Hv' & Hel' & Hfr').
        split_and!; try congruence.
        -- intros Hn. destruct (Hel' Hn) as [-> Hall].
           rewrite Hel, <- app_assoc. split; eauto.
        -- intros t Hvt Hsep.
           destruct (appendSlice_frame _ _ _ _ _ t Hvt Hsep Eapp) as (F1 & F2 & F3).
           destruct (Hfr' t F2 F3) as (G1 & G2 & G3). rewrite G1, F1. auto.
    + intros [= <- <- <-] Hv. split_and!; auto; discriminate.
Qed.

(** [RemoveVolume] never touches [volumesToFree] either, and whatever it
    appends goes to arrays of its own: every slice of the heap keeps its
    elements.  The three ways in which it returns nil. *)
Lemma RemoveVolume_inv vg vol (w w' : World B) vg' r :
  RemoveVolume vg vol w = (w', (vg', r)) ->
  valid (heap w) (volumes vg) ->
  common vg' = common vg /\ volumesToFree vg' = volumesToFree vg /\
  valid (heap w') (volumes vg') /\
  (forall t, valid (heap w) t -> separate (volumes vg) t ->
     elements (heap w') t = elements (heap w) t /\ valid (heap w') t /\
     separate (volumes vg') t) /\
  (r = None ->
     (sl_len (volumes vg) = 0 /\ w' = w /\ vg' = vg) \/
     (exists e, answerRemoveFromGroup vol (cluster w) = (cluster w', Some e) /\
                errIs e librbd_ErrNotExist = true /\ vg' = vg /\
                heap w' = heap w /\ store w' = store w) \/
     (exists b toRemove pool id csiID,
        answerRemoveFromGroup vol (cluster w) = (b, None) /\
        Volume_GetID vol = Ok toRemove /\ GetPool (common vg) = Ok pool /\
        GetID (common vg) = Ok id /\ DecomposeCSIID id = Ok csiID /\
        elements (heap w') (volumes vg')
          = List.filter (keeps toRemove) (elements (heap w) (volumes vg)) /\
        Forall (fun v => exists id, Volume_GetID v = Ok id)
               (elements (heap w) (volumes vg)) /\
        store w' = storeRemoveVolumesMapping pool (ObjectUUID csiID) [toRemove] (store w))).
Proof.
  unfold RemoveVolume. intros E Hv.
  destruct (Nat.eqb_spec (sl_len (volumes vg)) 0) as [Hz|Hnz].
  { injection E as <- <- <-. split_and!; auto. }
  unfold bind at 1 in E.
  destruct (RemoveFromGroup vol w) as [w1 r1] eqn:E1.
  destruct r1 as [e|].
  { destruct (errIs e librbd_ErrNotExist) eqn:Hne; injection E as <- <- <-;
      inv_prims; (split_and!; [reflexivity | reflexivity | congruence | | ]).
    - intros t Hvt Hs. same_heap. auto.
    - intros _. right. left. exists e. split_and!; auto.
    - intros t Hvt Hs. same_heap. auto.
    - intros [=]. }
  destruct (Volume_GetID vol) as [toRemove|e] eqn:Hid.
  2:{ injection E as <- <- <-. inv_prims.
      split_and!; [reflexivity | reflexivity | congruence | | intros [=]].
      intros t Hvt Hs. same_heap. auto. }
  unfold bind at 1, range at 1 in E. unfold bind at 1 in E.
  destruct (RemoveVolume_rebuild toRemove (elements (heap w1) (volumes vg)) nilSlice w1)
    as [w2 [vols err]] eqn:E2.
  apply perform_inv in E1 as (Ea1 & Eh1 & Es1 & Ec1 & El1). unfold noEffect in Es1.
  apply RemoveVolume_rebuild_inv in E2
    as (Ec2 & Es2 & Ecalls2 & El2 & Hv2 & Hel2 & Hfr2); [|apply valid_nil].
  assert (Hframe : forall t, valid (heap w) t ->
            elements (heap w2) t = elements (heap w) t /\ valid (heap w2) t /\
            separate vols t).
  { intros t Hvt. rewrite <- Eh1 in Hvt |- *. apply Hfr2; [exact Hvt | apply separate_nil]. }
  destruct err as [e|].
  { injection E as <- <- <-.
    split_and!; [reflexivity | reflexivity | | | intros [=]].
    - apply (Hframe _ Hv).
    - intros t Hvt Hs. destruct (Hframe t Hvt) as (F1 & F2 & _). auto. }
  destruct (Hel2 eq_refl) as [Hel Hall]. clear Hel2.
  rewrite (elements_empty (heap w1) nilSlice) in Hel by reflexivity.
  rewrite Eh1 in Hall. simpl in Hel, E.
  crunch E; injection E as <- <- <-; inv_prims; simpl in *.
  all: split_and!; try reflexivity; try (intros [=]).
  all: try (intros t Hvt Hs; destruct (Hframe t Hvt) as (F1 & F2 & F3);
            same_heap; auto).
  all: try (same_heap; exact Hv2).
  right. right. eexists _, _, _, _, _. split_and!; eauto.
  - same_heap. rewrite Hel, Eh1. reflexivity.
  - congruence.
Qed.


(** *** Ownership *)

Lemma owns_after_load id csiDriver (w w0 : World B) vg r :
  GetVolumeGroup id csiDriver w = (w0, (Some vg, r)) ->
  owns (resolvedAtLoad id csiDriver (cluster w)) (heap w0) vg.
Proof.
  intros E. apply GetVolumeGroup_loaded in E as (Hv & Heq & Hel).
  unfold owns. rewrite Heq. split_and!; auto. apply separate_same.
Qed.

Lemma owns_AddVolume L vg vol (w w' : World B) vg' r :
  AddVolume vg vol w = (w', (vg', r)) -> owns L (heap w) vg -> owns L (heap w') vg'.
Proof.
  intros E (Hvf & Hel & Hv & Hsep).
  apply AddVolume_inv in E as (_ & Hf & [(Hh & Hvol & _) | Happ] & _).
  - unfold owns. rewrite Hf, Hh, Hvol. auto.
  - destruct (appendSlice_self _ _ _ _ _ Hv Happ) as (_ & Hv' & _).
    destruct (appendSlice_frame _ _ _ _ _ _ Hvf Hsep Happ) as (F1 & F2 & F3).
    unfold owns. rewrite Hf, F1. auto.
Qed.

Lemma owns_RemoveVolume L vg vol (w w' : World B) vg' r :
  RemoveVolume vg vol w = (w', (vg', r)) -> owns L (heap w) vg -> owns L (heap w') vg'.
Proof.
  intros E (Hvf & Hel & Hv & Hsep).
  apply RemoveVolume_inv in E as (_ & Hf & Hv' & Hfr & _); [|exact Hv].
  destruct (Hfr _ Hvf Hsep) as (F1 & F2 & F3).
  unfold owns. rewrite Hf, F1. auto.
Qed.

Lemma owns_mutate L ops : forall vg (w w' : World B) vg',
  mutate ops vg w = (w', vg') -> owns L (heap w) vg -> owns L (heap w') vg'.
Proof.
  induction ops as [|[vol|vol] ops IH]; intros vg w w' vg'; simpl.
  - intros [= <- <-]. auto.
  - unfold bind. destruct (AddVolume vg vol w) as [w1 [vg1 r]] eqn:E1.
    intros E Hown. eapply IH; [exact E|]. eapply owns_AddVolume; eauto.
  - unfold bind. destruct (RemoveVolume vg vol w) as [w1 [vg1 r]] eqn:E1.
    intros E Hown. eapply IH; [exact E|]. eapply owns_RemoveVolume; eauto.
Qed.

(** [Destroy] calls Destroy on the elements of [volumesToFree], then on
    the common part, and leaves nothing to free. *)
Lemma Destroy_inv vg (w w' : World B) vg' :
  Destroy vg w = (w', vg') ->
  valid (heap w) (volumesToFree vg) ->
  calls w' = calls w ++ map CallVolumeDestroy (elements (heap w) (volumesToFree vg))
                     ++ [CallCommonDestroy] /\
  sl_len (volumesToFree vg') = 0 /\ volumes vg' = volumes vg /\ heap w' = heap w.
Proof.
  unfold Destroy, bind. intros E Hv.
  destruct (Nat.ltb_spec 0 (sl_len (volumesToFree vg))) as [Hpos|Hz].
  - unfold range in E.
    destruct (destroyVolumes _ w) as [w1 u] eqn:E1.
    apply destroyVolumes_inv in E1 as (_ & Eh & _ & Ec & _).
    injection E as <- <-. simpl. rewrite Ec, <- app_assoc. auto.
  - injection E as <- <-. simpl.
    rewrite elements_empty by lia. simpl. split_and!; auto. lia.
Qed.

(** C7: a group that [GetVolumeGroup] handed back (loaded, or empty because
    the group does not exist yet) goes through any sequence of [AddVolume]
    and [RemoveVolume] calls, whatever they return.  [Destroy] then calls
    Destroy on exactly the volumes the resolver answered during
    [GetVolumeGroup], each once and in that order, and on nothing else but
    the common part: a volume handed to [AddVolume] that the load did not
    resolve is not destroyed, its caller keeps it.  Afterwards nothing is
    left to free. *)
Theorem Destroy_releases_exactly_the_loaded_volumes (id csiDriver : string)
    (w w0 w1 w2 : World B) (vg vg1 vg2 : volumeGroup) (r : option error)
    (ops : list mutation) :
  GetVolumeGroup id csiDriver w = (w0, (Some vg, r)) ->
  mutate ops vg w0 = (w1, vg1) ->
  Destroy vg1 w1 = (w2, vg2) ->
  let L := resolvedAtLoad id csiDriver (cluster w) in
  calls w2 = calls w1 ++ map CallVolumeDestroy L ++ [CallCommonDestroy] /\
  (forall vol, vol ∉ L ->
     CallVolumeDestroy vol ∉ map CallVolumeDestroy L ++ [CallCommonDestroy]) /\
  elements (heap w2) (volumesToFree vg2) = [].
Proof.
  intros Hload Hmut Hdestroy L.
  pose proof (owns_after_load _ _ _ _ _ _ Hload) as Hown.
  pose proof (owns_mutate _ _ _ _ _ _ Hmut Hown) as (Hvf & Hel & _ & _).
  apply Destroy_inv in Hdestroy as (Hc & Hz & _ & _); [|exact Hvf].
  fold L in Hel. rewrite Hel in Hc. split_and!.
  - exact Hc.
  - intros vol Hnot Hin. apply elem_of_app in Hin as [Hin|Hin].
    + apply list_elem_of_fmap in Hin as (v' & [= ->] & Hin'). contradiction.
    + apply list_elem_of_singleton in Hin. discriminate.
  - apply elements_empty. exact Hz.
Qed.

(** *** The journal *)

Lemma mappingOf_add pool uuid toAdd st :
  mappingOf (storeAddVolumesMapping pool uuid toAdd st) pool uuid
  = list_to_map toAdd ∪ mappingOf st pool uuid.
Proof. unfold mappingOf at 1. simpl. rewrite lookup_insert_eq. reflexivity. Qed.

Lemma mappingOf_remove pool uuid mapping st :
  mappingOf (storeRemoveVolumesMapping pool uuid mapping st) pool uuid
  = foldr delete (mappingOf st pool uuid) mapping.
Proof. unfold mappingOf at 1. simpl. rewrite lookup_insert_eq. reflexivity. Qed.

Lemma filter_keeps_all toRemove l :
  (forall m, m ∈ l -> exists id, Volume_GetID m = Ok id /\ id <> toRemove) ->
  List.filter (keeps toRemove) l = l.
Proof.
  induction l as [|m l IH]; intros Hall; simpl; [reflexivity|].
  destruct (Hall m) as (id & Hid & Hne); [left|].
  unfold keeps at 1. rewrite Hid.
  destruct (String.eqb_spec id toRemove); [contradiction|]. simpl.
  rewrite IH; [reflexivity|]. intros m' Hin. apply Hall. right. exact Hin.
Qed.

Lemma memberIDs_not_elem h vg vid :
  (forall m, m ∈ elements h (volumes vg) -> Volume_GetID m <> Ok vid) ->
  vid ∉ memberIDs h vg.
Proof.
  intros Hall Hin. unfold memberIDs in Hin.
  apply elem_of_list_to_set, list_elem_of_omap in Hin as (m & Hm & Hid).
  unfold idOf in Hid. destruct (Volume_GetID m) eqn:E; [|discriminate].
  injection Hid as ->. exact (Hall m Hm E).
Qed.

(** C8 (as amended): for a group whose [volumes] is a slice of the heap,
    (1) [RemoveVolume] on an empty membership returns nil and changes
    nothing; (2) it returns nil when the cluster answers that the volume is
    not in the group; (3) when the cluster removes the volume and the
    function returns nil, the membership is the old one without the
    members that have the volume's ID, [volumesToFree] is as before, and
    the journal has lost that ID; (4) when no member has the ID of [vol],
    [AddVolume vol] followed by a [RemoveVolume vol] that the cluster
    carries out leaves the members as they were, and a journal whose keys
    were the member IDs has the member IDs as keys again. *)
Theorem RemoveVolume_undoes_AddVolume_of_a_new_member (vg : volumeGroup)
    (vol : Volume) (w : World B) :
  valid (heap w) (volumes vg) ->
  (sl_len (volumes vg) = 0 -> RemoveVolume vg vol w = (w, (vg, None))) /\
  (forall w1 e,
     sl_len (volumes vg) <> 0 ->
     RemoveFromGroup vol w = (w1, Some e) ->
     errIs e librbd_ErrNotExist = true ->
     exists w' vg', RemoveVolume vg vol w = (w', (vg', None))) /\
  (forall w1 w' vg',
     RemoveFromGroup vol w = (w1, None) ->
     RemoveVolume vg vol w = (w', (vg', None)) ->
     sl_len (volumes vg) <> 0 ->
     exists toRemove pool id csiID,
       Volume_GetID vol = Ok toRemove /\ GetPool (common vg) = Ok pool /\
       GetID (common vg) = Ok id /\ DecomposeCSIID id = Ok csiID /\
       elements (heap w') (volumes vg')
         = List.filter (keeps toRemove) (elements (heap w) (volumes vg)) /\
       volumesToFree vg' = volumesToFree vg /\
       mappingOf (store w') pool (ObjectUUID csiID)
         = delete toRemove (mappingOf (store w) pool (ObjectUUID csiID))) /\
  (forall w1 vg1 w1' w2 vg2 vid,
     AddVolume vg vol w = (w1, (vg1, None)) ->
     RemoveFromGroup vol w1 = (w1', None) ->
     RemoveVolume vg1 vol w1 = (w2, (vg2, None)) ->
     Volume_GetID vol = Ok vid ->
     (forall m, m ∈ elements (heap w) (volumes vg) -> Volume_GetID m <> Ok vid) ->
     elements (heap w2) (volumes vg2) = elements (heap w) (volumes vg) /\
     memberIDs (heap w2) vg2 = memberIDs (heap w) vg /\
     exists pool id csiID,
       GetPool (common vg) = Ok pool /\ GetID (common vg) = Ok id /\
       DecomposeCSIID id = Ok csiID /\
       mappingOf (store w2) pool (ObjectUUID csiID)
         = delete vid (mappingOf (store w) pool (ObjectUUID csiID)) /\
       (dom (mappingOf (store w) pool (ObjectUUID csiID)) = memberIDs (heap w) vg ->
        dom (mappingOf (store w2) pool (ObjectUUID csiID)) = memberIDs (heap w2) vg2)).
Proof.
  intros Hv. split_and!.
  - intros Hz. unfold RemoveVolume. rewrite Hz. reflexivity.
  - intros w1 e Hnz E1 Hne. unfold RemoveVolume.
    destruct (Nat.eqb_spec (sl_len (volumes vg)) 0); [contradiction|].
    unfold bind. rewrite E1, Hne. eexists _, _. reflexivity.
  - intros w1 w' vg' E1 E Hnz.
    apply perform_inv in E1 as (Ea1 & _).
    apply RemoveVolume_inv in E as (_ & Hf & _ & Hfr & Hnil); [|exact Hv].
    destruct (Hnil eq_refl) as [(Hz & _) | [(e & Ea & _) | Hmain]].
    + contradiction.
    + rewrite Ea1 in Ea. discriminate.
    + destruct Hmain as (b & toRemove & pool & id & csiID & _ & Hid & Hp & Hi & Hd
                         & Hel & _ & Hst).
      exists toRemove, pool, id, csiID. split_and!; auto.
      rewrite Hst, mappingOf_remove. reflexivity.
  - intros w1 vg1 w1' w2 vg2 vid Eadd Ermv Erem Hvid Hnew.
    apply AddVolume_inv in Eadd as (Hc1 & _ & _ & Hadd).
    destruct (Hadd eq_refl) as (volID & pool & id & csiID & Hid & Hp & Hi & Hd
                                & Hst1 & Happ).
    destruct (appendSlice_self _ _ _ _ _ Hv Happ) as (Hel1 & Hv1 & Hlen1).
    apply perform_inv in Ermv as (Ea & _).
    apply RemoveVolume_inv in Erem as (_ & _ & _ & _ & Hnil); [|exact Hv1].
    destruct (Hnil eq_refl) as [(Hz & _) | [(e & Ea' & _) | Hmain]].
    + lia.
    + rewrite Ea in Ea'. discriminate.
    + destruct Hmain as (b & toRemove & pool' & id' & csiID' & _ & Hid' & Hp' & Hi' & Hd'
                         & Hel2 & Hall & Hst2).
      rewrite Hc1 in Hp', Hi'.
      assert (toRemove = vid) as -> by congruence.
      assert (pool' = pool) as -> by congruence.
      assert (id' = id) as -> by congruence.
      assert (csiID' = csiID) as -> by congruence.
      assert (volID = vid) as -> by congruence.
      assert (Hels : elements (heap w2) (volumes vg2) = elements (heap w) (volumes vg)).
      { rewrite Hel2, Hel1, List.filter_app. simpl. unfold keeps at 2.
        rewrite Hvid, String.eqb_refl. simpl. rewrite app_nil_r.
        apply filter_keeps_all. intros m Hm.
        rewrite Hel1 in Hall. apply Forall_app in Hall as [Hall _].
        rewrite Forall_forall in Hall. destruct (Hall m Hm) as [i Hi0].
        exists i. split; [exact Hi0|]. intros ->. exact (Hnew m Hm Hi0). }
      assert (Hids : memberIDs (heap w2) vg2 = memberIDs (heap w) vg).
      { unfold memberIDs. rewrite Hels. reflexivity. }
      assert (Hmap : mappingOf (store w2) pool (ObjectUUID csiID)
                     = delete vid (mappingOf (store w) pool (ObjectUUID csiID))).
      { rewrite Hst2, mappingOf_remove, Hst1, mappingOf_add. simpl.
        rewrite delete_union, delete_insert_eq, delete_empty, (left_id_L ∅ (∪)).
        reflexivity. }
      split_and!; auto. exists pool, id, csiID. split_and!; auto.
      intros Hsync. rewrite Hmap, dom_delete_L, Hids, Hsync.
      pose proof (memberIDs_not_elem _ _ _ Hnew). set_solver.
Qed.


End GroupFacts.

Lemma GetVolumeGroup_not_found_or_nothing_leaked_witness :
  let id := "0001-vg-1" in
  let drv := "rbd.csi.ceph.com" in
  let empty := {| common := vg1Common; volumes := nilSlice; volumesToFree := nilSlice |} in
  (exists w' e,
     GetVolumeGroup id drv (newWorld clusterGroupMissing) = (w', (Some empty, Some e)) /\
     errIs e ErrRBDGroupNotFound = true /\
     calls w' = [CallInitCommonVolumeGroup id drv; CallGetVolumeGroupAttributes]) /\
  (exists w' e,
     GetVolumeGroup id drv (newWorld clusterVolumeMissing) = (w', (None, Some e)) /\
     calls w' = [CallInitCommonVolumeGroup id drv; CallGetVolumeGroupAttributes;
                 CallGetVolumeByID "v1"; CallGetVolumeByID "v9";
                 CallVolumeDestroy vol1]).
Proof.
  intros id drv empty. split.
  - edestruct (GetVolumeGroup_not_found_or_nothing_leaked (B := Script) id drv
                 (newWorld clusterGroupMissing)) as (Hnf & _ & _); [reflexivity|].
    edestruct Hnf as (w' & Hrun & _ & _ & Hcalls & _); [reflexivity | reflexivity |].
    eexists w', _. split; [exact Hrun|]. split; [reflexivity | exact Hcalls].
  - edestruct (GetVolumeGroup_not_found_or_nothing_leaked (B := Script) id drv
                 (newWorld clusterVolumeMissing)) as (_ & _ & Hres); [reflexivity|].
    edestruct Hres as (Hg & _ & Hcalls);
      [reflexivity | vm_compute; reflexivity |].
    eexists _, _. split; [vm_compute; reflexivity | exact Hcalls].
Defined.

Lemma Destroy_releases_exactly_the_loaded_volumes_witness :
  let id := "0001-vg-1" in
  let drv := "rbd.csi.ceph.com" in
  let ops := [DoAddVolume vol3; DoRemoveVolume vol1] in
  exists w0 vg w1 vg1 w2 vg2,
    GetVolumeGroup id drv (newWorld clusterHealthy) = (w0, (Some vg, None)) /\
    mutate ops vg w0 = (w1, vg1) /\
    Destroy vg1 w1 = (w2, vg2) /\
    elements (heap w1) (volumes vg1) = [vol2; vol3] /\
    calls w2 = calls w1 ++ [CallVolumeDestroy vol1; CallVolumeDestroy vol2; CallCommonDestroy].
Proof.
  intros id drv ops. eexists _, _, _, _, _, _.
  split; [vm_compute; reflexivity|]. split; [vm_compute; reflexivity|].
  split; [vm_compute; reflexivity|]. split; [vm_compute; reflexivity|].
  edestruct (Destroy_releases_exactly_the_loaded_volumes (B := Script) id drv
               (newWorld clusterHealthy)) with (ops := ops) as (Hcalls & _ & _);
    [vm_compute; reflexivity | vm_compute; reflexivity | vm_compute; reflexivity |].
  exact Hcalls.
Defined.

Lemma RemoveVolume_undoes_AddVolume_of_a_new_member_witness :
  let w := {| cluster := clusterHealthy; heap := loadedHeap; store := journalOfVg1;
              calls := []; logs := [] |} in
  valid (heap w) (volumes loadedGroup) /\
  exists w1 vg1 w2 vg2,
    AddVolume loadedGroup vol3 w = (w1, (vg1, None)) /\
    RemoveVolume vg1 vol3 w1 = (w2, (vg2, None)) /\
    elements (heap w1) (volumes vg1) = [vol1; vol2; vol3] /\
    elements (heap w2) (volumes vg2) = [vol1; vol2] /\
    dom (mappingOf (store w2) "replicapool" "0001-vg-1") = memberIDs (heap w2) vg2.
Proof.
  intros w.
  assert (Hv : valid (heap w) (volumes loadedGroup)).
  { right. eexists. split; [reflexivity|]. simpl. lia. }
  split; [exact Hv|].
  destruct (RemoveVolume_undoes_AddVolume_of_a_new_member (B := Script)
              loadedGroup vol3 w Hv) as (_ & _ & _ & Hround).
  eexists _, _, _, _.
  split; [vm_compute; reflexivity|]. split; [vm_compute; reflexivity|].
  split; [vm_compute; reflexivity|].
  edestruct Hround as (Hels & _ & pool & id & csiID & Hp & Hi & Hd & _ & Hsync);
    [vm_compute; reflexivity | vm_compute; reflexivity | vm_compute; reflexivity
     | reflexivity | |].
  { intros m Hm. simpl in Hm.
    apply elem_of_cons in Hm as [-> | Hm]; [discriminate|].
    apply list_elem_of_singleton in Hm as ->. discriminate. }
  split; [exact Hels|].
  injection Hp as <-. injection Hi as <-. injection Hd as <-.
  apply Hsync. vm_compute. reflexivity.
Defined.

(** C8 (counterexample): [AddVolume] does not look for the volume among
    the members.  After loading "vg-1" with "v1" and "v2", adding "v1"
    again gives the members v1, v2, v1, and removing "v1" takes out every
    member with that ID: both calls return nil and the member IDs are
    {v2}, not {v1, v2}. *)
Lemma adding_a_member_again_then_removing_it_loses_it :
  ~ addThenRemoveRestores loadedGroup vol1 (loadedWorld clusterHealthy).
Proof.
  intros Hclaim.
  specialize (Hclaim _ _ _ _ eq_refl eq_refl).
  apply (f_equal (fun ids => bool_decide ("v1" ∈ ids))) in Hclaim.
  vm_compute in Hclaim. discriminate.
Qed.

Example load_vg1 :
  GetVolumeGroup "0001-vg-1" "rbd.csi.ceph.com" (newWorld clusterHealthy)
  = ({| cluster := clusterHealthy; heap := loadedHeap; store := emptyStore;
        calls := [CallInitCommonVolumeGroup "0001-vg-1" "rbd.csi.ceph.com";
                  CallGetVolumeGroupAttributes;
                  CallGetVolumeByID "v1"; CallGetVolumeByID "v2"];
        logs := [] |},
     (Some loadedGroup, None)).
Proof. reflexivity. Qed.

Example snapshots_vg1 :
  let r := CreateSnapshots loadedGroup "snap-A" (loadedWorld clusterHealthy) in
  snd r = Returned (Some [Some (mkSnapshot 1); Some (mkSnapshot 2)], None) /\
  calls (fst r) =
    [CallGetIOContext; CallGroupSnapCreate "vg-1" "snap-A";
     CallGroupSnapGetInfo "vg-1" "snap-A";
     CallNewSnapshotByID vol1 "vg-1-snap-0" 11;
     CallNewSnapshotByID vol2 "vg-1-snap-1" 12;
     CallGroupSnapRemove "vg-1" "snap-A"] /\
  groupSnapshots (store (fst r)) = ∅.
Proof. vm_compute. split_and!; reflexivity. Qed.

(** The deferred loop stops with a panic at the first nil slot: it has
    destroyed the snapshots in front of it and none behind it. *)
Lemma destroySnapshots_panics_at_nil_slot {B : Type} (front : list Snapshot)
    (back : snapshotSlice) (w : World B) :
  destroySnapshots (map Some front ++ None :: back) w
  = ({| cluster := cluster w; heap := heap w; store := store w;
        calls := calls w ++ map CallSnapshotDestroy front; logs := logs w |},
     Panicked).
Proof.
  revert w. induction front as [|sn front IH]; intros w; simpl.
  - rewrite app_nil_r. destruct w; reflexivity.
  - unfold bind, Snapshot_Destroy, notify. rewrite IH. simpl.
    rewrite <- app_assoc. reflexivity.
Qed.

(** C2 (the code at the failing inputs).  Group "vg-1" has the members
    "img-1" and "img-2" and the group snapshot one entry for each; the
    entry of "img-1" is materialised and the entry of "img-2" fails.  The
    deferred loop destroys the snapshot of "img-1", reaches the nil slot of
    "img-2" and panics: the group snapshot is still removed, but no error
    is returned.  When the group snapshot begins with an entry that
    matches no member, the loop panics on that first nil slot and the
    snapshot of "img-1" is never destroyed.  The claim has the
    materialised snapshots destroyed and the error returned. *)
Theorem failed_materialization_panics_in_teardown :
  let r1 := CreateSnapshots loadedGroup "snap-A" (loadedWorld clusterSecondFails) in
  let r2 := CreateSnapshots loadedGroup "snap-A" (loadedWorld clusterStaleEntryFails) in
  (snd r1 = Panicked /\
   calls (fst r1) =
     [CallGetIOContext; CallGroupSnapCreate "vg-1" "snap-A";
      CallGroupSnapGetInfo "vg-1" "snap-A";
      CallNewSnapshotByID vol1 "vg-1-snap-0" 11;
      CallNewSnapshotByID vol2 "vg-1-snap-1" 12;
      CallSnapshotDestroy (mkSnapshot 1);
      CallGroupSnapRemove "vg-1" "snap-A"]) /\
  (snd r2 = Panicked /\
   calls (fst r2) =
     [CallGetIOContext; CallGroupSnapCreate "vg-1" "snap-A";
      CallGroupSnapGetInfo "vg-1" "snap-A";
      CallNewSnapshotByID vol1 "vg-1-snap-1" 11;
      CallNewSnapshotByID vol2 "vg-1-snap-2" 12;
      CallGroupSnapRemove "vg-1" "snap-A"]).
Proof. vm_compute. split_and!; reflexivity. Qed.

(** C10 (the code at the failing inputs).  With the stale entry "img-0" in
    the group snapshot and every call succeeding, the slice handed to the
    caller has nil in slot 0.  With a member whose name cannot be read,
    the entry of "img-2" makes the function return from the inner loop;
    the deferred loop then walks the whole slice, calls Destroy on the
    snapshot of "img-1" and next on the nil slot 1, which panics. *)
Theorem nil_slots_reach_the_caller_and_the_teardown :
  let r1 := CreateSnapshots loadedGroup "snap-A" (loadedWorld clusterStaleEntry) in
  let members := [vol1; volNameless] in
  let r2 := CreateSnapshots (groupWith members) "snap-A"
              (worldWith clusterHealthy members) in
  snd r1 = Returned (Some [None; Some (mkSnapshot 1); Some (mkSnapshot 2)], None) /\
  snd r2 = Panicked /\
  calls (fst r2) =
    [CallGetIOContext; CallGroupSnapCreate "vg-1" "snap-A";
     CallGroupSnapGetInfo "vg-1" "snap-A";
     CallNewSnapshotByID vol1 "vg-1-snap-0" 11;
     CallSnapshotDestroy (mkSnapshot 1);
     CallGroupSnapRemove "vg-1" "snap-A"] /\
  (forall (w : World Script) e sn,
     snd (CreateSnapshots_free (Some e) [Some sn; None] w) = Panicked).
Proof. vm_compute. split_and!; reflexivity. Qed.

End RBDGroupFacts.

Module RBDFacts.
Import RBD.

Section ReclaimFacts.
Context {B : Type} `{Images B}.

(** C9: when [isInUse] answers true, [Sparsify] returns [ErrImageInUse]
    and the check is the only call it makes: the image is not opened, not
    inspected, not sparsified.  [ControllerReclaimSpace], for a volume ID
    that is not empty, not locked and resolves to such an image, returns
    an empty response and a nil error; its calls are the lock, the lookup,
    the check and the deferred releases, and the lock is free again. *)
Theorem sparsify_in_use_is_a_noop_for_the_controller :
  (forall (ri : rbdImage) (w w1 : World B),
     isInUse ri w = (w1, (true, None)) ->
     Sparsify ri w = (w1, Returned (Some ErrImageInUse)) /\
     calls w1 = calls w ++ [CallIsInUse ri]) /\
  (forall (req : ControllerReclaimSpaceRequest) (w : World B) (rbdVol : rbdImage) b1 b2,
     let volumeID := GetVolumeId req in
     volumeID <> "" ->
     volumeID ∉ locks w ->
     answerGetVolumeByID volumeID (cluster w) = (b1, Ok rbdVol) ->
     answerIsInUse rbdVol b1 = (b2, (true, None)) ->
     exists w',
       ControllerReclaimSpace req w = (w', Returned (Some (mkResponse None None), None)) /\
       calls w' = calls w ++
         [CallTryAcquire volumeID; CallGetVolumeByID volumeID; CallIsInUse rbdVol;
          CallVolumeDestroy rbdVol; CallManagerDestroy; CallRelease volumeID] /\
       locks w' = locks w /\ logs w' = logs w).
Proof.
  split.
  - intros ri w w1 Hin. unfold Sparsify, bind. rewrite Hin. split; [reflexivity|].
    unfold isInUse, perform in Hin.
    destruct (answerIsInUse ri (cluster w)) as [b r]. injection Hin as <- _.
    reflexivity.
  - intros req w rbdVol b1 b2 volumeID Hne Hfree Hget Huse.
    unfold ControllerReclaimSpace. fold volumeID.
    destruct (String.eqb_spec volumeID ""); [contradiction|].
    unfold bind, TryAcquire. rewrite decide_False by exact Hfree. simpl.
    unfold GetVolumeByID, perform. simpl. rewrite Hget.
    unfold ControllerReclaimSpace_sparsify, Sparsify, bind, isInUse, perform.
    simpl. rewrite Huse. simpl.
    eexists. split; [reflexivity|]. simpl. split_and!.
    + rewrite <- !app_assoc. reflexivity.
    + set_solver.
    + reflexivity.
Qed.

End ReclaimFacts.

Lemma sparsify_in_use_is_a_noop_for_the_controller_witness :
  let w := {| cluster := clusterImageInUse; locks := ∅; calls := []; logs := [] |} in
  let req := {| GetVolumeId := "0001-0009-rook-ceph-0000000000000002-0001" |} in
  let w1 := {| cluster := clusterImageInUse; locks := ∅;
               calls := [CallIsInUse busyImage]; logs := [] |} in
  isInUse busyImage w = (w1, (true, None)) /\
  Sparsify busyImage w = (w1, Returned (Some ErrImageInUse)) /\
  snd (ControllerReclaimSpace req w) = Returned (Some (mkResponse None None), None).
Proof.
  intros w req w1.
  destruct (sparsify_in_use_is_a_noop_for_the_controller (B := Script)) as [Hs Hc].
  split; [reflexivity|]. split.
  - apply (Hs busyImage w). reflexivity.
  - edestruct (Hc req w) as (w' & Hrun & _);
      [discriminate | set_solver | reflexivity | reflexivity |].
    rewrite Hrun. reflexivity.
Defined.

End RBDFacts.

(** ** Further properties of the clone operations *)

Module CephFSCoreMoreFacts.
Import CephFSCore CephFSCoreCalls ErrorsFacts GoFacts CephFSCoreFacts.

(** [ToError] answers nil for Complete.  An error it returns is retryable
    exactly for Pending and InProgress; for the sentinel state and for
    Failed it wraps [ErrInvalidClone] and [ErrCloneFailed], with the
    message and the code in its text, and is not retryable. *)
Theorem ToError_classification (cs : cephFSCloneState) :
  (state cs = CloneComplete -> ToError cs = None) /\
  (forall e, ToError cs = Some e ->
     (IsCloneRetryError e = true <->
        state cs = ClonePending \/ state cs = CloneInProgress) /\
     (state cs = "" ->
        errIs e ErrInvalidClone = true /\
        Error e = (Error ErrInvalidClone ++ ": " ++ errorMsg cs ++ " (" ++ errno cs ++ ")")%string) /\
     (state cs = CloneFailed ->
        errIs e ErrCloneFailed = true /\
        Error e = (Error ErrCloneFailed ++ ": " ++ errorMsg cs ++ " (" ++ errno cs ++ ")")%string)).
Proof.
  unfold ToError. simpl.
  destruct (String.eqb_spec (state cs) CloneComplete) as [Hc|Hc].
  { split; [reflexivity|]. intros e [=]. }
  split; [contradiction|].
  destruct (String.eqb_spec (state cs) "") as [He|He]; simpl.
  { intros e [= <-]. rewrite He. split; [|split].
    - split; [discriminate | intros [[=]|[=]]].
    - intros _. split; reflexivity.
    - discriminate. }
  destruct (String.eqb_spec (state cs) CloneInProgress) as [Hi|Hi]; simpl.
  { intros e [= <-]. rewrite Hi. split; [|split]; try discriminate. split; auto. }
  destruct (String.eqb_spec (state cs) ClonePending) as [Hp|Hp]; simpl.
  { intros e [= <-]. rewrite Hp. split; [|split]; try discriminate. split; auto. }
  destruct (String.eqb_spec (state cs) CloneFailed) as [Hf|Hf]; simpl.
  { intros e [= <-]. rewrite Hf. split; [|split].
    - split; [discriminate | intros [[=]|[=]]].
    - discriminate.
    - intros _. split; reflexivity. }
  intros e [=].
Qed.

Section MoreCloneFacts.
Context {B : Type} `{CephFS B}.

Local Abbreviation callsOnly := (@CephFSCore.callsOnly B).
#[local] Existing Instance callsOnly_refl.
#[local] Existing Instance callsOnly_trans.

Ltac calls_steps :=
  repeat first
    [ apply along_ret; apply _
    | apply along_calls_ErrorLog
    | apply GetCloneState_calls; [reflexivity | intros; reflexivity]
    | apply along_calls_perform; reflexivity
    | apply along_bind; [apply _ | | intros ?]
    | match goal with
      | |- along _ (match ?x with _ => _ end) => destruct x
      | |- along _ (let '(_, _) := ?x in _) => destruct x
      | |- along _ (if ?x then _ else _) => destruct x
      end ].

(** [CreateCloneFromSnapshot] never creates and never deletes a snapshot,
    whatever the cluster answers: the source snapshot stays the
    caller's. *)
Theorem CreateCloneFromSnapshot_leaves_snapshots_alone (s : subVolumeClient)
    (snap : Snapshot) (w : World B) :
  let '(w', _) := CreateCloneFromSnapshot s snap w in
  exists l, calls w' = calls w ++ l /\ Forall (fun c => touchesSnapshot c = false) l.
Proof.
  destruct (CreateCloneFromSnapshot s snap w) as [w' r] eqn:E. revert E.
  generalize w, w', r.
  change (along (callsOnly (fun c => touchesSnapshot c = false))
                (CreateCloneFromSnapshot s snap)).
  unfold CreateCloneFromSnapshot, CreateCloneFromSnapshot_steps,
    CreateCloneFromSnapshot_deferred, CloneSnapshot, ExpandVolume, PurgeVolume.
  calls_steps.
Qed.

(** Case analysis along a run that is given as an equation. *)
Ltac crunch E :=
  repeat first
    [ progress (unfold bind, ret in E)
    | match type of E with
      | context [match ?x with _ => _ end] =>
          match x with
          | context [match _ with _ => _ end] => fail 1
          | _ => destruct x eqn:?
          end
      end ].

Ltac inv_prims :=
  unfold CreateSnapshot, DeleteSnapshot, CloneSnapshot, PurgeVolume,
    ExpandVolume, GetFSAdmin in *;
  repeat match goal with
    | E : perform _ _ _ _ = (_, _) |- _ =>
        apply clone_perform_inv in E as (? & ? & ?)
    | E : ErrorLog _ _ = (_, _) |- _ =>
        apply clone_ErrorLog_inv in E as (? & ? & ? & ?)
    | E : GetCloneState _ _ = (_, (_, None)) |- _ =>
        apply GetCloneState_ok in E as (? & ?)
    end.

(** When [CreateCloneFromSubvolume] returns nil it made exactly the six
    calls of a complete run, in order, and logged nothing: the snapshot
    was created, cloned, the state queried, the clone resized to the
    requested size and the snapshot deleted, with no purge. *)
Theorem CreateCloneFromSubvolume_nil_is_a_complete_run (s : subVolumeClient)
    (parent : SubVolume) (w w' : World B) :
  CreateCloneFromSubvolume s parent w = (w', None) ->
  calls w' = calls w ++ completeRun s parent /\ logs w' = logs w.
Proof.
  unfold CreateCloneFromSubvolume, CreateCloneFromSubvolume_steps,
    CreateCloneFromSubvolume_deferred, completeRun.
  intros E. crunch E; try discriminate.
  all: unfold ErrorLog in E; simpl in E; try discriminate.
  injection E as <-. inv_prims.
  repeat match goal with Hc : calls _ = _ |- _ => rewrite Hc; clear Hc end.
  repeat match goal with Hl : logs _ = _ |- _ => rewrite Hl; clear Hl end.
  rewrite <- !app_assoc. auto.
Qed.

Lemma filter_purge_none (l : list Call) :
  Forall notPurge l -> List.filter isPurgeVolume l = [].
Proof.
  induction 1 as [|c l Hc _ IH]; simpl; [reflexivity|].
  unfold notPurge in Hc. rewrite Hc. exact IH.
Qed.

(** Whatever the cluster answers, [CreateCloneFromSubvolume] purges the
    target at most once, and only when it returns an error that is not
    retryable: a call that succeeds, or that reports the clone pending or
    in progress, never removes the target volume. *)
Theorem CreateCloneFromSubvolume_purges_only_on_terminal_error
    (s : subVolumeClient) (parent : SubVolume) (w : World B) :
  let '(w', r) := CreateCloneFromSubvolume s parent w in
  exists l,
    calls w' = calls w ++ l /\
    length (List.filter isPurgeVolume l) <= 1 /\
    (List.filter isPurgeVolume l <> [] ->
     exists e, r = Some e /\ IsCloneRetryError e = false).
Proof.
  destruct (CreateCloneFromSubvolume s parent w) as [w' r] eqn:E.
  unfold CreateCloneFromSubvolume, bind in E.
  destruct (CreateSnapshot _ w) as [w1 r1] eqn:E1.
  apply clone_perform_inv in E1 as (Hc1 & _).
  destruct r1 as [e1|].
  { unfold ErrorLog, ret in E. injection E as <- <-. simpl.
    eexists. split; [exact Hc1|]. simpl. split; [lia | congruence]. }
  destruct (CreateCloneFromSubvolume_steps s _ w1) as [w2 r2] eqn:E2.
  apply steps_never_purge in E2 as (l2 & Hc2 & Hnp).
  pose proof (filter_purge_none _ Hnp) as Hf.
  unfold CreateCloneFromSubvolume_deferred in E.
  destruct r2 as [e2|].
  2:{ unfold ret in E. injection E as <- <-.
      exists ([CallCreateSnapshot (NewSnapshot (VolID (sSubVolume s)) s parent)] ++ l2).
      rewrite Hc2, Hc1, <- app_assoc. split; [reflexivity|].
      rewrite List.filter_app, Hf. simpl. split; [lia | congruence]. }
  destruct (IsCloneRetryError e2) eqn:Hr; simpl in E.
  { unfold ret in E. injection E as <- <-.
    exists ([CallCreateSnapshot (NewSnapshot (VolID (sSubVolume s)) s parent)] ++ l2).
    rewrite Hc2, Hc1, <- app_assoc. split; [reflexivity|].
    rewrite List.filter_app, Hf. simpl. split; [lia | congruence]. }
  crunch E; unfold ErrorLog in E; simpl in E; injection E as <- <-; inv_prims; simpl.
  all: exists ([CallCreateSnapshot (NewSnapshot (VolID (sSubVolume s)) s parent)] ++ l2
               ++ [CallPurgeVolume (sSubVolume s) true;
                   CallDeleteSnapshot (NewSnapshot (VolID (sSubVolume s)) s parent)]).
  all: split; [repeat match goal with Hc : calls _ = _ |- _ => rewrite Hc; clear Hc end;
               rewrite <- ?app_assoc; reflexivity|].
  all: rewrite !List.filter_app, Hf; simpl; split; [lia | eauto].
Qed.

(** When [CreateCloneFromSnapshot] returns nil it made exactly four calls:
    the clone of the caller's snapshot, the two calls of the state query
    and the resize to the requested size; it logged nothing. *)
Theorem CreateCloneFromSnapshot_nil_is_a_complete_run (s : subVolumeClient)
    (snap : Snapshot) (w w' : World B) :
  let sv := sSubVolume s in
  CreateCloneFromSnapshot s snap w = (w', None) ->
  calls w' = calls w ++
    [CallCloneSnapshot (NewSnapshot (SnapshotID snap) s (snapSubVolume snap)) sv;
     CallGetFSAdmin; CallCloneStatus (FsName sv) (SubvolumeGroup sv) (VolID sv);
     CallExpandVolume sv (Size sv)] /\
  logs w' = logs w.
Proof.
  intros sv E.
  unfold CreateCloneFromSnapshot, CreateCloneFromSnapshot_steps,
    CreateCloneFromSnapshot_deferred in E.
  crunch E; try discriminate.
  all: unfold ErrorLog in E; simpl in E; try discriminate.
  injection E as <-. inv_prims.
  repeat match goal with Hc : calls _ = _ |- _ => rewrite Hc; clear Hc end.
  repeat match goal with Hl : logs _ = _ |- _ => rewrite Hl; clear Hl end.
  rewrite <- !app_assoc. auto.
Qed.

(** When the clone of the caller's snapshot was started and
    [CreateCloneFromSnapshot] ends with an error that is not retryable,
    the last call is the forced purge of the target, made once; a failing
    purge only adds a log line and the error returned is the one of the
    failed step.  The snapshot is not deleted. *)
Theorem CreateCloneFromSnapshot_purges_once_on_terminal_error
    (s : subVolumeClient) (snap : Snapshot) (w w1 w' : World B) (e : error) :
  let sv := sSubVolume s in
  let snapClient := NewSnapshot (SnapshotID snap) s (snapSubVolume snap) in
  CloneSnapshot snapClient sv w = (w1, None) ->
  CreateCloneFromSnapshot s snap w = (w', Some e) ->
  IsCloneRetryError e = false ->
  exists w2 l perr,
    CreateCloneFromSnapshot_steps s w1 = (w2, Some e) /\
    calls w2 = calls w1 ++ l /\
    Forall (fun c => isPurgeVolume c = false /\ touchesSnapshot c = false) l /\
    answerPurgeVolume sv true (cluster w2) = (cluster w', perr) /\
    calls w' = calls w2 ++ [CallPurgeVolume sv true] /\
    logs w' = logs w2 ++ logged "failed to delete volume" perr.
Proof.
  intros sv snapClient E1 Erun Hterm.
  unfold CreateCloneFromSnapshot, bind in Erun. fold sv snapClient in Erun.
  rewrite E1 in Erun.
  destruct (CreateCloneFromSnapshot_steps s w1) as [w2 r2] eqn:Hsteps.
  assert (Hl : exists l, calls w2 = calls w1 ++ l /\
            Forall (fun c => isPurgeVolume c = false /\ touchesSnapshot c = false) l).
  { revert Hsteps. generalize w1, w2, r2.
    change (along (callsOnly (fun c => isPurgeVolume c = false /\ touchesSnapshot c = false))
                  (CreateCloneFromSnapshot_steps s)).
    unfold CreateCloneFromSnapshot_steps, ExpandVolume.
    repeat first
      [ apply along_ret; apply _
      | apply along_calls_ErrorLog
      | apply GetCloneState_calls; [split; reflexivity | intros; split; reflexivity]
      | apply along_calls_perform; split; reflexivity
      | apply along_bind; [apply _ | | intros ?]
      | match goal with
        | |- along _ (match ?x with _ => _ end) => destruct x
        | |- along _ (let '(_, _) := ?x in _) => destruct x
        end ]. }
  destruct Hl as (l & Hc2 & Hall).
  unfold CreateCloneFromSnapshot_deferred in Erun.
  destruct r2 as [e2|]; [|unfold ret in Erun; discriminate].
  destruct (IsCloneRetryError e2) eqn:Hr; simpl in Erun.
  { unfold ret in Erun. congruence. }
  unfold bind, PurgeVolume, perform, ErrorLog, ret in Erun. fold sv in Erun.
  destruct (answerPurgeVolume sv true (cluster w2)) as [b3 perr] eqn:Hp.
  destruct perr as [pe|]; simpl in Erun; injection Erun as <- <-; simpl;
    eexists w2, l, _; split_and!; eauto; simpl;
    rewrite ?app_nil_r; reflexivity.
Qed.

(** [CleanupSnapshotFromSubvolume] makes one call: it deletes, on the same
    parent, the snapshot that [CreateCloneFromSubvolume] creates first
    (both are named after the target).  It returns the answer of that call
    and logs a line exactly when the answer is an error. *)
Theorem CleanupSnapshotFromSubvolume_deletes_the_clone_snapshot
    (s : subVolumeClient) (parent : SubVolume) (w w0 : World B) :
  let '(w', r) := CleanupSnapshotFromSubvolume s parent w in
  let '(w0', _) := CreateCloneFromSubvolume s parent w0 in
  exists sn rest b,
    calls w0' = calls w0 ++ CallCreateSnapshot sn :: rest /\
    calls w' = calls w ++ [CallDeleteSnapshot sn] /\
    answerDeleteSnapshot sn (cluster w) = (b, r) /\
    logs w' = logs w ++ logged "failed to delete snapshot" r.
Proof.
  destruct (CleanupSnapshotFromSubvolume s parent w) as [w' r] eqn:E.
  destruct (CreateCloneFromSubvolume s parent w0) as [w0' r0] eqn:E0.
  assert (H0 : exists rest,
            calls w0' = calls w0 ++
              CallCreateSnapshot (NewSnapshot (VolID (sSubVolume s)) s parent) :: rest).
  { unfold CreateCloneFromSubvolume, bind in E0.
    destruct (CreateSnapshot _ w0) as [w1 r1] eqn:E1.
    apply clone_perform_inv in E1 as (Hc1 & _).
    assert (Hrest : callsOnly (fun _ => True) w1 w0').
    { revert E0. generalize w1, w0', r0.
      change (along (callsOnly (fun _ => True))
                (match r1 with
                 | Some e => (ErrorLog "failed to create snapshot" ;;; ret (Some e))%go
                 | None =>
                     (err <- CreateCloneFromSubvolume_steps s
                               (NewSnapshot (VolID (sSubVolume s)) s parent) ;;
                      CreateCloneFromSubvolume_deferred s
                        (NewSnapshot (VolID (sSubVolume s)) s parent) err ;;;
                      ret err)%go
                 end)).
      unfold CreateCloneFromSubvolume_steps, CreateCloneFromSubvolume_deferred,
        CloneSnapshot, ExpandVolume, DeleteSnapshot, PurgeVolume.
      repeat first
        [ apply along_ret; apply _
        | apply along_calls_ErrorLog
        | apply GetCloneState_calls; [exact I | intros; exact I]
        | apply along_calls_perform; exact I
        | apply along_bind; [apply _ | | intros ?]
        | match goal with
          | |- along _ (match ?x with _ => _ end) => destruct x
          | |- along _ (let '(_, _) := ?x in _) => destruct x
          | |- along _ (if ?x then _ else _) => destruct x
          end ]. }
    destruct Hrest as (rest & Hc & _). exists rest.
    rewrite Hc, Hc1, <- app_assoc. reflexivity. }
  destruct H0 as [rest H0].
  unfold CleanupSnapshotFromSubvolume, bind, DeleteSnapshot, perform in E.
  destruct (answerDeleteSnapshot _ (cluster w)) as [b r1] eqn:Ed.
  destruct r1 as [e|]; unfold ErrorLog, ret in E; injection E as <- <-; simpl;
    eexists _, rest, b; split_and!; eauto; simpl; rewrite ?app_nil_r; reflexivity.
Qed.

(** [GetCloneState] only queries: it leaves the store alone.  When it
    fails, the state it hands back is the [CephFSCloneError] sentinel and
    one line is logged; when it succeeds, the state is the one the cluster
    reports, and the code and message are empty unless the cluster reports
    a failure. *)
Theorem GetCloneState_sentinel_or_state (s : subVolumeClient) (w : World B) :
  let '(w', (cs, err)) := GetCloneState s w in
  store w' = store w /\
  (forall e, err = Some e ->
     cs = CephFSCloneError /\ length (logs w') = S (length (logs w))) /\
  (err = None ->
     logs w' = logs w /\
     exists b b' status,
       answerCloneStatus (FsName (sSubVolume s)) (SubvolumeGroup (sSubVolume s))
                         (VolID (sSubVolume s)) b = (b', Ok status) /\
       state cs = State status /\ progressReport cs = ProgressReport status /\
       match GetFailure status with
       | Some failure => errno cs = Errno failure /\ errorMsg cs = ErrStr failure
       | None => errno cs = "" /\ errorMsg cs = ""
       end).
Proof.
  destruct (GetCloneState s w) as [w' [cs err]] eqn:E.
  split; [exact (GetCloneState_store _ _ _ _ E)|].
  unfold GetCloneState, bind, GetFSAdmin, fsaCloneStatus, perform, ErrorLog, ret in E.
  destruct (answerGetFSAdmin (cluster w)) as [b [e|]]; simpl in E.
  - injection E as <- <- <-. simpl. split; [|discriminate].
    intros e' _. rewrite length_app. simpl. split; [reflexivity | lia].
  - destruct (answerCloneStatus _ _ _ b) as [b' [st|e]] eqn:Ea; simpl in E.
    + destruct (GetFailure st) eqn:Hf; injection E as <- <- <-; simpl;
        (split; [discriminate|]); intros _; (split; [reflexivity|]);
        exists b, b', st; rewrite Hf; auto.
    + injection E as <- <- <-. simpl. split; [|discriminate].
      intros e' _. rewrite length_app. simpl. split; [reflexivity | lia].
Qed.

End MoreCloneFacts.

Lemma CreateCloneFromSubvolume_nil_is_a_complete_run_witness :
  let w := newWorld (clusterInState CloneComplete None) parentStore in
  exists w',
    CreateCloneFromSubvolume targetClient parentVol w = (w', None) /\
    calls w' = completeRun targetClient parentVol /\ logs w' = [].
Proof.
  intros w. eexists. split; [vm_compute; reflexivity|].
  apply (CreateCloneFromSubvolume_nil_is_a_complete_run (B := Script)
           targetClient parentVol w).
  vm_compute. reflexivity.
Defined.

Lemma CreateCloneFromSnapshot_nil_is_a_complete_run_witness :
  let w := newWorld (clusterInState CloneComplete None) parentStore in
  exists w',
    CreateCloneFromSnapshot targetClient sourceSnap w = (w', None) /\
    length (calls w') = 4 /\ logs w' = [].
Proof.
  intros w. eexists. split; [vm_compute; reflexivity|].
  edestruct (CreateCloneFromSnapshot_nil_is_a_complete_run (B := Script)
               targetClient sourceSnap w) as [Hc Hl]; [vm_compute; reflexivity|].
  split; [rewrite Hc; reflexivity | exact Hl].
Defined.

Lemma CreateCloneFromSnapshot_purges_once_on_terminal_error_witness :
  let failed := clusterInState CloneFailed (Some (mkCloneFailure "-5" "I/O error")) in
  let w := newWorld failed parentStore in
  exists w' e,
    CreateCloneFromSnapshot targetClient sourceSnap w = (w', Some e) /\
    errIs e ErrCloneFailed = true /\ IsCloneRetryError e = false /\
    last (calls w') = Some (CallPurgeVolume (sSubVolume targetClient) true).
Proof.
  intros failed w. eexists _, _. split; [vm_compute; reflexivity|].
  split; [vm_compute; reflexivity|]. split; [vm_compute; reflexivity|].
  edestruct (CreateCloneFromSnapshot_purges_once_on_terminal_error (B := Script)
               targetClient sourceSnap w)
    as (w2 & l & perr & _ & _ & _ & _ & Hc & _);
    [vm_compute; reflexivity | vm_compute; reflexivity | vm_compute; reflexivity |].
  rewrite Hc. apply last_snoc.
Defined.

End CephFSCoreMoreFacts.

(** ** Further properties of the volume group *)

Module RBDGroupMoreFacts.
Import RBDGroup RBDGroupCalls ErrorsFacts GoFacts RBDGroupFacts.

Section MoreGroupFacts.
Context {B : Type} `{RBD B} `{Runtime}.

Ltac crunch E :=
  repeat first
    [ progress (unfold bind, ret in E)
    | match type of E with
      | context [match ?x with _ => _ end] =>
          match x with
          | context [match _ with _ => _ end] => fail 1
          | _ => destruct x eqn:?
          end
      end ].

Ltac inv_prims :=
  unfold initCommonVolumeGroup, getVolumeGroupAttributes, GetVolumeByID,
    AddToGroup, RemoveFromGroup, getJournal, AddVolumesMapping,
    RemoveVolumesMapping, GetIOContext, GroupSnapCreate, GroupSnapRemove,
    GroupSnapGetInfo, NewSnapshotByID, Volume_Destroy, commonVolumeGroup_Destroy,
    Snapshot_Destroy in *;
  repeat match goal with
    | E : perform _ _ _ _ = (_, _) |- _ =>
        apply perform_inv in E as (? & ? & ? & ? & ?)
    | E : notify _ _ = (_, _) |- _ =>
        apply notify_inv in E as (? & ? & ? & ? & ?)
    | E : ErrorLog _ _ = (_, _) |- _ =>
        apply ErrorLog_inv in E as (? & ? & ? & ? & ?)
    | E : append _ _ _ = (_, _) |- _ =>
        apply append_inv in E as (? & ? & ? & ? & ?)
    end;
  unfold noEffect, whenNil in *.

Ltac same_heap :=
  repeat match goal with Hh : heap _ = heap _ |- _ => rewrite Hh end.

(** [GetVolumeGroup] never returns a nil group with a nil error and never
    writes the journal.  When the common part cannot be initialised that
    is its only call and the cause is wrapped in the error.  When it
    returns a nil error, the attributes were read, every ID of the volume
    map was resolved, in the order of the map and with no other call, and
    the group's [volumes] and [volumesToFree] are one slice over the
    resolved volumes. *)
Theorem GetVolumeGroup_nil_error_means_every_member_resolved
    (id csiDriver : string) (w : World B) :
  let '(w', (g, err)) := GetVolumeGroup id csiDriver w in
  store w' = store w /\
  (g = None -> err <> None) /\
  (forall b0 e,
     answerInitCommonVolumeGroup id csiDriver (cluster w) = (b0, Err e) ->
     g = None /\ calls w' = calls w ++ [CallInitCommonVolumeGroup id csiDriver] /\
     exists e', err = Some e' /\ errIs e' e = true) /\
  (err = None ->
     exists vg b0 cvg b1 volumeMap,
       g = Some vg /\
       answerInitCommonVolumeGroup id csiDriver (cluster w) = (b0, Ok cvg) /\
       answerGetVolumeGroupAttributes cvg b0 = (b1, Ok volumeMap) /\
       common vg = cvg /\ volumesToFree vg = volumes vg /\
       elements (heap w') (volumes vg) = resolvedBy volumeMap b1 /\
       length (resolvedBy volumeMap b1) = length volumeMap /\
       calls w' = calls w ++ [CallInitCommonVolumeGroup id csiDriver;
                              CallGetVolumeGroupAttributes]
                          ++ map CallGetVolumeByID volumeMap).
Proof.
  destruct (GetVolumeGroup id csiDriver w) as [w' [g err]] eqn:E.
  unfold GetVolumeGroup, bind in E.
  destruct (initCommonVolumeGroup id csiDriver w) as [w1 r1] eqn:E1.
  apply perform_inv in E1 as (Ea1 & Eh1 & Es1 & Ec1 & El1). unfold noEffect in Es1.
  destruct r1 as [cvg|e].
  2:{ injection E as <- <- <-. split_and!; [auto | discriminate | | discriminate].
      intros b0 e0 Ha. rewrite Ha in Ea1. injection Ea1 as _ ->.
      split_and!; auto. eexists. split; [reflexivity|].
      apply errIs_wrapf, errIs_refl. }
  destruct (getVolumeGroupAttributes _ w1) as [w2 r2] eqn:E2.
  apply perform_inv in E2 as (Ea2 & Eh2 & Es2 & Ec2 & El2). unfold noEffect in Es2.
  simpl in Ea2.
  destruct r2 as [volumeMap|e].
  2:{ destruct (errIs e ErrRBDGroupNotFound); unfold ErrorLog, ret in E;
        injection E as <- <- <-; simpl;
        (split_and!; [congruence | discriminate | | discriminate]);
        intros b0 e0 Ha; rewrite Ha in Ea1; discriminate. }
  destruct (GetVolumeGroup_resolve id volumeMap nilSlice w2) as [w3 [vols rerr]] eqn:E3.
  apply GetVolumeGroup_resolve_inv in E3
    as (Hv & Hel & Hs3 & Hl3 & Hc3 & Hn & Hlt & _); [|apply valid_nil].
  rewrite (elements_empty (heap w2) nilSlice) in Hel by reflexivity. simpl in Hel.
  destruct rerr as [e3|].
  - unfold GetVolumeGroup_deferred in E. simpl in E. unfold bind, range in E.
    destruct (destroyVolumes _ w3) as [w4 u] eqn:E4.
    apply destroyVolumes_inv in E4 as (_ & _ & Hs4 & _).
    injection E as <- <- <-.
    split_and!; [congruence | discriminate | | discriminate].
    intros b0 e0 Ha. rewrite Ha in Ea1. discriminate.
  - assert (Hsame : exists w4, GetVolumeGroup_deferred
              {| common := cvg; volumes := vols; volumesToFree := vols |} vols w3
              = (w4, tt) /\ heap w4 = heap w3 /\ store w4 = store w3 /\
                calls w4 = calls w3).
    { unfold GetVolumeGroup_deferred. simpl.
      destruct (Nat.ltb_spec 0 (sl_len vols)) as [Hpos|Hz].
      - exists w3. auto.
      - unfold bind, range. rewrite elements_empty by lia. simpl.
        exists w3. auto. }
    destruct Hsame as (w4 & Hrun & Hh4 & Hs4 & Hc4). rewrite Hrun in E.
    injection E as <- <- <-.
    split_and!; [congruence | discriminate | |].
    + intros b0 e0 Ha. rewrite Ha in Ea1. discriminate.
    + intros _. specialize (Hn eq_refl).
      eexists _, _, cvg, _, volumeMap. split_and!; eauto.
      * simpl. rewrite Hh4. exact Hel.
      * rewrite Hc4, Hc3, Ec2, Ec1, <- !app_assoc. simpl.
        rewrite Hn, firstn_all2 by lia. reflexivity.
Qed.

(** [Destroy] a second time frees no volume again: the second call only
    destroys the common part and leaves the group as the first call left
    it. *)
Theorem Destroy_again_frees_nothing (vg : volumeGroup) (w : World B) :
  let '(w1, vg1) := Destroy vg w in
  let '(w2, vg2) := Destroy vg1 w1 in
  calls w2 = calls w1 ++ [CallCommonDestroy] /\ vg2 = vg1 /\
  sl_len (volumesToFree vg1) = 0 /\ volumes vg1 = volumes vg /\
  heap w2 = heap w /\ store w2 = store w.
Proof.
  destruct (Destroy vg w) as [w1 vg1] eqn:E1.
  destruct (Destroy vg1 w1) as [w2 vg2] eqn:E2.
  unfold Destroy, bind in E1.
  assert (Hfirst : sl_len (volumesToFree vg1) = 0 /\ volumes vg1 = volumes vg /\
                   heap w1 = heap w /\ store w1 = store w).
  { destruct (Nat.ltb_spec 0 (sl_len (volumesToFree vg))) as [Hpos|Hz].
    - unfold range in E1. destruct (destroyVolumes _ w) as [w0 u] eqn:E0.
      apply destroyVolumes_inv in E0 as (_ & Eh & Es & _).
      injection E1 as <- <-. simpl. auto.
    - injection E1 as <- <-. simpl. split_and!; auto. lia. }
  destruct Hfirst as (Hz & Hvol & Hh & Hs).
  unfold Destroy, bind in E2. rewrite Hz in E2. simpl in E2.
  injection E2 as <- <-. simpl. split_and!; auto.
Qed.

(** [AddVolume] asks the cluster first and the journal last.  When the
    cluster refuses the volume nothing else is called and the group is
    unchanged.  Once the cluster accepted it, the volume is appended to
    [volumes] whatever the later steps return.  [volumesToFree] is never
    touched, and the journal is as before unless the result is nil. *)
Theorem AddVolume_asks_the_cluster_first_and_the_journal_last
    (vg : volumeGroup) (vol : Volume) (w : World B) :
  let '(w', (vg', r)) := AddVolume vg vol w in
  common vg' = common vg /\ volumesToFree vg' = volumesToFree vg /\
  (r <> None -> store w' = store w) /\
  (exists l, calls w' = calls w ++ CallAddToGroup vol :: l /\
             Forall (fun c => onJournal c = true) l /\
             (forall b e, answerAddToGroup vol (cluster w) = (b, Some e) -> l = [])) /\
  (forall b e, answerAddToGroup vol (cluster w) = (b, Some e) ->
     vg' = vg /\ heap w' = heap w /\ exists e', r = Some e' /\ errIs e' e = true) /\
  (forall b, answerAddToGroup vol (cluster w) = (b, None) ->
     valid (heap w) (volumes vg) ->
     elements (heap w') (volumes vg') = elements (heap w) (volumes vg) ++ [vol]).
Proof.
  destruct (AddVolume vg vol w) as [w' [vg' r]] eqn:E.
  unfold AddVolume in E. unfold bind at 1 in E.
  destruct (AddToGroup vol w) as [w1 r1] eqn:E1.
  apply perform_inv in E1 as (Ea1 & Eh1 & Es1 & Ec1 & El1). unfold noEffect in Es1.
  destruct r1 as [e|].
  { injection E as <- <- <-. split_and!; auto.
    - exists []. split_and!; auto.
    - intros b e0 Ha. rewrite Ha in Ea1. injection Ea1 as _ ->.
      destruct vg. split_and!; auto. eexists. split; [reflexivity|].
      apply errIs_wrapf, errIs_refl.
    - intros b Ha. rewrite Ha in Ea1. discriminate. }
  unfold bind at 1 in E.
  destruct (append (volumes vg) vol w1) as [w2 vols] eqn:E2.
  apply append_inv in E2 as (Eapp & Ecl2 & Es2 & Ec2 & El2). rewrite Eh1 in Eapp.
  assert (Hel : forall (w0 : World B), heap w0 = heap w2 ->
            valid (heap w) (volumes vg) ->
            elements (heap w0) vols = elements (heap w) (volumes vg) ++ [vol]).
  { intros w0 Hw0 Hv. rewrite Hw0.
    destruct (appendSlice_self _ _ _ _ _ Hv Eapp) as (Hel & _). exact Hel. }
  simpl in E.
  crunch E; injection E as <- <- <-; inv_prims; simpl in *.
  all: split_and!; try reflexivity.
  all: try (intros ?; congruence).
  all: try (intros b0 e0 Ha; rewrite Ha in Ea1; discriminate).
  all: try (intros b0 Ha Hv; apply Hel; [congruence | exact Hv]).
  all: try (eexists; split_and!;
            [ repeat match goal with Hc : calls _ = _ |- _ => rewrite Hc end;
              rewrite <- ?app_assoc; simpl; reflexivity
            | repeat constructor
            | intros b0 e0 Ha; rewrite Ha in Ea1; discriminate ]).
Qed.

(** [RemoveVolume] never adds a member: every volume of the list it
    leaves was in the list before.  [volumesToFree] is never touched, and
    the journal is as before when the result is an error. *)
Theorem RemoveVolume_never_adds_a_member
    (vg : volumeGroup) (vol : Volume) (w w' : World B) (vg' : volumeGroup)
    (r : option error) :
  valid (heap w) (volumes vg) ->
  RemoveVolume vg vol w = (w', (vg', r)) ->
  (forall v, v ∈ elements (heap w') (volumes vg') -> v ∈ elements (heap w) (volumes vg)) /\
  volumesToFree vg' = volumesToFree vg /\
  (r <> None -> store w' = store w).
Proof.
  intros Hv E. unfold RemoveVolume in E.
  destruct (Nat.eqb_spec (sl_len (volumes vg)) 0) as [Hz|Hnz].
  { injection E as <- <- <-. split_and!; auto. }
  unfold bind at 1 in E.
  destruct (RemoveFromGroup vol w) as [w1 r1] eqn:E1.
  apply perform_inv in E1 as (Ea1 & Eh1 & Es1 & Ec1 & El1). unfold noEffect in Es1.
  destruct r1 as [e|].
  { destruct (errIs e librbd_ErrNotExist); injection E as <- <- <-;
      rewrite Eh1; split_and!; auto. }
  destruct (Volume_GetID vol) as [toRemove|e] eqn:Hid.
  2:{ injection E as <- <- <-. rewrite Eh1. split_and!; auto. }
  unfold bind at 1, range at 1 in E. unfold bind at 1 in E.
  destruct (RemoveVolume_rebuild toRemove (elements (heap w1) (volumes vg)) nilSlice w1)
    as [w2 [vols err]] eqn:E2.
  apply RemoveVolume_rebuild_inv in E2
    as (Ec2 & Es2 & Ecalls2 & El2 & Hv2 & Hel2 & Hfr2); [|apply valid_nil].
  destruct err as [e|].
  { injection E as <- <- <-.
    destruct (Hfr2 (volumes vg)) as (F1 & _); [congruence | apply separate_nil |].
    rewrite F1, Eh1. split_and!; auto. intros _. congruence. }
  destruct (Hel2 eq_refl) as [Hel _]. clear Hel2.
  rewrite (elements_empty (heap w1) nilSlice) in Hel by reflexivity.
  rewrite Eh1 in Hel. simpl in Hel, E.
  assert (Hsub : forall (w0 : World B), heap w0 = heap w2 ->
            forall v, v ∈ elements (heap w0) vols -> v ∈ elements (heap w) (volumes vg)).
  { intros w0 -> v. rewrite Hel, !list_elem_of_In, List.filter_In. tauto. }
  crunch E; injection E as <- <- <-; inv_prims; simpl in *.
  all: split_and!; try reflexivity.
  all: try (apply Hsub; congruence).
  all: try (intros ?; congruence).
Qed.

(** *** CreateSnapshots *)

Lemma CreateSnapshots_volumes_inv group i snap l :
  forall snapshots err (w w' : World B) snapshots' err' returned,
  CreateSnapshots_volumes group i snap l snapshots err w
    = (w', (snapshots', err', returned)) ->
  heap w' = heap w /\ store w' = store w /\ logs w' = logs w /\
  length snapshots' = length snapshots /\
  (returned <> None -> err' <> None) /\
  (err = None -> returned = None -> err' = None) /\
  ((calls w' = calls w /\ snapshots' = snapshots) \/
   (exists v sn,
      v ∈ l /\ Volume_GetName v = Ok (Name snap) /\
      calls w' = calls w ++
        [CallNewSnapshotByID v (group ++ "-snap-" ++ pretty i)%string (SnapID snap)] /\
      snapshots' = <[i := sn]> snapshots)).
Proof.
  induction l as [|volume rest IH]; intros snapshots err w w' snapshots' err' returned;
    simpl.
  - intros [= <- <- <- <-]. split_and!; auto; congruence.
  - destruct (Volume_GetName volume) as [volName|e] eqn:Hname.
    2:{ intros [= <- <- <- <-]. split_and!; auto; discriminate. }
    destruct (String.eqb_spec volName (Name snap)) as [Heq|Hne]; simpl.
    + unfold bind.
      destruct (NewSnapshotByID volume _ (SnapID snap) w) as [w1 [sn e1]] eqn:E1.
      apply perform_inv in E1 as (_ & Eh1 & Es1 & Ec1 & El1). unfold noEffect in Es1.
      intros E.
      assert (Hshape : w' = w1 /\ snapshots' = <[i := sn]> snapshots /\ err' = e1 /\
                       (returned <> None <-> e1 <> None)).
      { destruct e1; injection E as <- <- <- <-; split_and!; auto; split; congruence. }
      destruct Hshape as (-> & -> & -> & Hret).
      split_and!; auto.
      * apply length_insert.
      * tauto.
      * intros _ Hn. destruct e1; [|reflexivity]. exfalso. apply Hret; [discriminate | exact Hn].
      * right. exists volume, sn. split_and!; auto; [left | congruence].
    + intros E. apply IH in E as (? & ? & ? & ? & ? & Hnone & Hcalls).
      split_and!; auto.
      destruct Hcalls as [?|(v & sn & Hin & ?)]; [left; auto|].
      right. exists v, sn. split; [right; exact Hin | auto].
Qed.

Lemma materialisedFrom_insert group info members cs snapshots i snap v sn :
  materialisedFrom group info members cs snapshots ->
  info !! i = Some snap -> v ∈ members -> Volume_GetName v = Ok (Name snap) ->
  CallNewSnapshotByID v (group ++ "-snap-" ++ pretty i)%string (SnapID snap) ∈ cs ->
  materialisedFrom group info members cs (<[i := sn]> snapshots).
Proof.
  intros Hm Hi Hv Hn Hc j s Hj.
  apply list_lookup_insert_Some in Hj as [(<- & -> & _) | (Hne & Hj)].
  - exists snap, v. auto.
  - exact (Hm j s Hj).
Qed.

Lemma materialisedFrom_more group info members cs cs' snapshots :
  materialisedFrom group info members cs snapshots ->
  materialisedFrom group info members (cs ++ cs') snapshots.
Proof.
  intros Hm j s Hj. destruct (Hm j s Hj) as (snap & v & ? & ? & ? & Hin).
  exists snap, v. split_and!; auto. apply elem_of_app. left. exact Hin.
Qed.

Lemma CreateSnapshots_each_inv vg group info snaps :
  forall i snapshots err (w w' : World B) snapshots' err' returned,
  CreateSnapshots_each vg group i snaps snapshots err w
    = (w', (snapshots', err', returned)) ->
  (forall k snap, snaps !! k = Some snap -> info !! (i + k) = Some snap) ->
  materialisedFrom group info (elements (heap w) (volumes vg)) (calls w) snapshots ->
  heap w' = heap w /\ store w' = store w /\ logs w' = logs w /\
  length snapshots' = length snapshots /\
  (returned <> None -> err' <> None) /\
  (err = None -> returned = None -> err' = None) /\
  (exists l, calls w' = calls w ++ l /\ Forall (fun c => isNewSnapshotByID c = true) l) /\
  materialisedFrom group info (elements (heap w) (volumes vg)) (calls w') snapshots'.
Proof.
  induction snaps as [|snap rest IH];
    intros i snapshots err w w' snapshots' err' returned; simpl.
  - intros [= <- <- <- <-] _ Hm. split_and!; auto; try congruence.
    exists []. rewrite app_nil_r. auto.
  - unfold bind, range.
    destruct (CreateSnapshots_volumes group i snap _ snapshots err w)
      as [w1 [[snapshots1 err1] returned1]] eqn:E1.
    apply CreateSnapshots_volumes_inv in E1
      as (Eh1 & Es1 & El1 & Hlen1 & Hret1 & Hnone1 & Hcalls1).
    intros E Hidx Hm.
    assert (Hhead : info !! i = Some snap).
    { specialize (Hidx 0 snap eq_refl). rewrite Nat.add_0_r in Hidx. exact Hidx. }
    assert (Hl1 : exists l, calls w1 = calls w ++ l /\
                            Forall (fun c => isNewSnapshotByID c = true) l).
    { destruct Hcalls1 as [(Hc & _) | (v & sn & _ & _ & Hc & _)].
      - exists []. rewrite app_nil_r. auto.
      - eexists. split; [exact Hc|]. repeat constructor. }
    assert (Hm1 : materialisedFrom group info (elements (heap w) (volumes vg))
                    (calls w1) snapshots1).
    { destruct Hcalls1 as [(Hc & ->) | (v & sn & Hin & Hname & Hc & ->)].
      - rewrite Hc. exact Hm.
      - rewrite Hc. eapply materialisedFrom_insert; eauto.
        + apply materialisedFrom_more. exact Hm.
        + apply elem_of_app. right. left. }
    destruct returned1 as [e|].
    + injection E as <- <- <- <-. split_and!; auto.
    + specialize (IH (S i) snapshots1 err1 w1 w' snapshots' err' returned E).
      destruct IH as (Eh & Es & El & Hlen & Hret & Hnone & (l2 & Hc2 & Hf2) & Hm').
      * intros k s Hk. replace (S i + k) with (i + S k) by lia. apply Hidx. exact Hk.
      * rewrite Eh1. exact Hm1.
      * rewrite Eh1 in *.
        split_and!; auto; try congruence.
        destruct Hl1 as (l1 & Hc1 & Hf1). exists (l1 ++ l2).
        rewrite Hc2, Hc1, <- app_assoc. split; [reflexivity|].
        apply Forall_app. auto.
Qed.

Lemma destroySnapshots_inv l : forall (w w' : World B) out,
  destroySnapshots l w = (w', out) ->
  heap w' = heap w /\ store w' = store w /\ logs w' = logs w /\
  exists destroyed, calls w' = calls w ++ map CallSnapshotDestroy destroyed.
Proof.
  induction l as [|[sn|] l IH]; intros w w' out; simpl.
  - intros [= <- <-]. split_and!; auto. exists []. rewrite app_nil_r. reflexivity.
  - unfold bind. destruct (Snapshot_Destroy sn w) as [w1 []] eqn:E1.
    apply notify_inv in E1 as (_ & Eh & Es & Ec & El).
    intros E. apply IH in E as (Eh' & Es' & El' & destroyed & Ec').
    split_and!; try congruence.
    exists (sn :: destroyed). rewrite Ec', Ec, <- app_assoc. reflexivity.
  - intros [= <- <-]. split_and!; auto. exists []. rewrite app_nil_r. reflexivity.
Qed.

Lemma Forall_onSnapshotObject_new l :
  Forall (fun c => isNewSnapshotByID c = true) l ->
  Forall (fun c => onSnapshotObject c = true) l.
Proof.
  intros Hl. eapply Forall_impl; [exact Hl|].
  intros [] Hc; simpl in *; congruence.
Qed.

Lemma Forall_onSnapshotObject_destroy l :
  Forall (fun c => onSnapshotObject c = true) (map CallSnapshotDestroy l).
Proof. induction l; constructor; auto. Qed.

(** What runs between the two ends of the first deferred closure. *)
Lemma CreateSnapshots_materialize_inv vg group name (w w' : World B) out :
  CreateSnapshots_materialize vg group name w = (w', out) ->
  heap w' = heap w /\ store w' = store w /\ logs w' = logs w /\
  (exists work,
     calls w' = calls w ++ CallGroupSnapGetInfo group name :: work /\
     Forall (fun c => onSnapshotObject c = true) work /\
     (forall r, out = Returned (r, None) ->
        Forall (fun c => isNewSnapshotByID c = true) work)) /\
  (forall r, out = Returned (r, None) ->
     exists b info snapshots,
       r = Some snapshots /\
       answerGroupSnapGetInfo group name (cluster w) = (b, Ok info) /\
       length snapshots = length (Snapshots info) /\
       materialisedFrom group (Snapshots info) (elements (heap w) (volumes vg))
                        (calls w') snapshots).
Proof.
  unfold CreateSnapshots_materialize. unfold bind at 1.
  destruct (GroupSnapGetInfo group name w) as [w1 r1] eqn:E1.
  apply perform_inv in E1 as (Ea1 & Eh1 & Es1 & Ec1 & El1). unfold noEffect in Es1.
  destruct r1 as [info|e].
  2:{ intros [= <- <-]. split_and!; auto; [|intros r [=]].
      exists []. split_and!; auto. }
  unfold bind at 1.
  destruct (CreateSnapshots_each vg group 0 (Snapshots info) _ None w1)
    as [w2 [[snapshots err] returned]] eqn:E2.
  apply (CreateSnapshots_each_inv vg group (Snapshots info)) in E2
    as (Eh2 & Es2 & El2 & Hlen & Hret & Hnone & (l2 & Hc2 & Hf2) & Hm2).
  2:{ intros k s Hk. exact Hk. }
  2:{ intros j s Hj. apply lookup_replicate in Hj as [[=] _]. }
  rewrite length_replicate in Hlen.
  unfold bind, CreateSnapshots_free.
  destruct err as [e|].
  - destruct (destroySnapshots snapshots w2) as [w3 freed] eqn:E3.
    apply destroySnapshots_inv in E3 as (Eh3 & Es3 & El3 & destroyed & Hc3).
    intros E.
    assert (Hout : w' = w3 /\ forall r, out <> Returned (r, None)).
    { destruct freed as [[]|]; [|injection E as <- <-; split; [reflexivity | discriminate]].
      destruct returned as [e'|].
      - injection E as <- <-. split; [reflexivity | discriminate].
      - exfalso. specialize (Hnone eq_refl eq_refl). discriminate. }
    destruct Hout as (-> & Hout).
    split_and!; try congruence.
    + exists (l2 ++ map CallSnapshotDestroy destroyed). split_and!.
      * rewrite Hc3, Hc2, Ec1, <- !app_assoc. reflexivity.
      * apply Forall_app. split;
          [apply Forall_onSnapshotObject_new; exact Hf2
          | apply Forall_onSnapshotObject_destroy].
      * intros r Hr. destruct (Hout r Hr).
  - unfold ret. intros E.
    destruct returned as [e'|].
    { exfalso. apply Hret; [discriminate | reflexivity]. }
    injection E as <- <-.
    split_and!; try congruence.
    + exists l2. split_and!.
      * rewrite Hc2, Ec1, <- !app_assoc. reflexivity.
      * apply Forall_onSnapshotObject_new. exact Hf2.
      * intros _ _. exact Hf2.
    + intros r [= <-]. exists (cluster w1), info, snapshots.
      split_and!; auto. rewrite <- Eh1. exact Hm2.
Qed.

(** [CreateSnapshots] leaves the heap and the journal alone.  Its calls
    have one of three shapes: the I/O context alone; the I/O context and a
    create that failed with an error other than "exists"; or the I/O
    context, the create, the info, calls on snapshot objects, and the
    removal of the group snapshot as the last call, made once.  So the
    temporary group snapshot is removed on every exit after the create
    step, also when the body fails or panics, and is never removed
    before the work on the snapshot objects is over. *)
Theorem CreateSnapshots_removes_the_group_snapshot_last
    (vg : volumeGroup) (name : string) (w : World B) :
  let '(w', out) := CreateSnapshots vg name w in
  heap w' = heap w /\ journal (store w') = journal (store w) /\
  match GetName (common vg) with
  | Err e => w' = w /\ out = Returned (None, Some e)
  | Ok group =>
      exists l,
        calls w' = calls w ++ CallGetIOContext :: l /\
        ((l = [] /\ exists e, out = Returned (None, Some e)) \/
         (l = [CallGroupSnapCreate group name] /\
          exists e, out = Returned (None, Some e) /\ errIs e librbd_ErrExist = false) \/
         (exists work,
            l = [CallGroupSnapCreate group name; CallGroupSnapGetInfo group name]
                ++ work ++ [CallGroupSnapRemove group name] /\
            Forall (fun c => onSnapshotObject c = true) work))
  end.
Proof.
  destruct (CreateSnapshots vg name w) as [w' out] eqn:E.
  unfold CreateSnapshots in E.
  destruct (GetName (common vg)) as [group|e].
  2:{ injection E as <- <-. auto. }
  unfold bind at 1 in E.
  destruct (GetIOContext w) as [w1 r1] eqn:E1.
  apply perform_inv in E1 as (Ea1 & Eh1 & Es1 & Ec1 & El1). unfold noEffect in Es1.
  destruct r1 as [e|].
  { injection E as <- <-. split_and!; [auto | congruence |].
    exists []. split; [exact Ec1|]. left. eauto. }
  unfold bind at 1 in E.
  destruct (GroupSnapCreate group name w1) as [w2 r2] eqn:E2.
  apply perform_inv in E2 as (Ea2 & Eh2 & Es2 & Ec2 & El2).
  assert (Hj2 : journal (store w2) = journal (store w)).
  { rewrite Es2, Es1. unfold whenNil. destruct r2; reflexivity. }
  assert (Hrest : forall w0 out0,
            (out1 <- CreateSnapshots_materialize vg group name ;;
             CreateSnapshots_cleanup group name ;;; ret out1)%go w2 = (w0, out0) ->
            heap w0 = heap w /\ journal (store w0) = journal (store w) /\
            exists work,
              calls w0 = calls w ++ CallGetIOContext ::
                ([CallGroupSnapCreate group name; CallGroupSnapGetInfo group name]
                 ++ work ++ [CallGroupSnapRemove group name]) /\
              Forall (fun c => onSnapshotObject c = true) work).
  { intros w0 out0. unfold bind at 1.
    destruct (CreateSnapshots_materialize vg group name w2) as [w3 out3] eqn:E3.
    apply CreateSnapshots_materialize_inv in E3
      as (Eh3 & Es3 & El3 & (work & Hc3 & Hf3 & _) & _).
    unfold CreateSnapshots_cleanup, bind.
    destruct (GroupSnapRemove group name w3) as [w4 r4] eqn:E4.
    apply perform_inv in E4 as (Ea4 & Eh4 & Es4 & Ec4 & El4).
    assert (Hj4 : journal (store w4) = journal (store w3)).
    { rewrite Es4. unfold whenNil. destruct r4; reflexivity. }
    intros E5.
    assert (Hw0 : heap w0 = heap w4 /\ store w0 = store w4 /\ calls w0 = calls w4).
    { destruct r4; unfold ErrorLog, ret in E5; injection E5 as <- <-; auto. }
    destruct Hw0 as (Hh0 & Hs0 & Hc0).
    split_and!; [congruence | congruence |].
    exists work. split; [|exact Hf3].
    rewrite Hc0, Ec4, Hc3, Ec2, Ec1, <- !app_assoc. reflexivity. }
  destruct r2 as [e|].
  - destruct (errIs e librbd_ErrExist) eqn:Hex; simpl in E.
    + apply Hrest in E as (? & ? & work & Hc & Hf). split_and!; auto.
      eexists. split; [exact Hc|]. right. right. exists work. auto.
    + injection E as <- <-. split_and!; [congruence | exact Hj2 |].
      exists [CallGroupSnapCreate group name]. split.
      * rewrite Ec2, Ec1, <- app_assoc. reflexivity.
      * right. left. split; [reflexivity|]. eexists. split; [reflexivity|].
        simpl. exact Hex.
  - apply Hrest in E as (? & ? & work & Hc & Hf). split_and!; auto.
    eexists. split; [exact Hc|]. right. right. exists work. auto.
Qed.

(** When [CreateSnapshots] returns a nil error it returns one slot per
    entry of the group snapshot's info; every snapshot object in a slot
    was materialised from a member whose name is the entry's, under the
    name [<group>-snap-<index>] and with the entry's snapshot ID; no
    snapshot object was destroyed, and the group snapshot was removed
    last. *)
Theorem CreateSnapshots_success_materialises_from_members
    (vg : volumeGroup) (name : string) (w w' : World B)
    (r : option snapshotSlice) :
  CreateSnapshots vg name w = (w', Returned (r, None)) ->
  exists group b b' info snapshots work,
    GetName (common vg) = Ok group /\
    r = Some snapshots /\
    answerGroupSnapGetInfo group name b = (b', Ok info) /\
    length snapshots = length (Snapshots info) /\
    materialisedFrom group (Snapshots info) (elements (heap w) (volumes vg))
                     (calls w') snapshots /\
    calls w' = calls w ++
      [CallGetIOContext; CallGroupSnapCreate group name; CallGroupSnapGetInfo group name]
      ++ work ++ [CallGroupSnapRemove group name] /\
    Forall (fun c => isNewSnapshotByID c = true) work.
Proof.
  intros E. unfold CreateSnapshots in E.
  destruct (GetName (common vg)) as [group|e]; [|discriminate].
  unfold bind at 1 in E.
  destruct (GetIOContext w) as [w1 r1] eqn:E1.
  apply perform_inv in E1 as (Ea1 & Eh1 & Es1 & Ec1 & El1).
  destruct r1 as [e|]; [discriminate|].
  unfold bind at 1 in E.
  destruct (GroupSnapCreate group name w1) as [w2 r2] eqn:E2.
  apply perform_inv in E2 as (Ea2 & Eh2 & Es2 & Ec2 & El2).
  assert (Hrest : (out1 <- CreateSnapshots_materialize vg group name ;;
                   CreateSnapshots_cleanup group name ;;; ret out1)%go w2
                  = (w', Returned (r, None))).
  { destruct r2 as [e|]; [|exact E].
    destruct (errIs e librbd_ErrExist); simpl in E; [exact E | discriminate]. }
  clear E. unfold bind at 1 in Hrest.
  destruct (CreateSnapshots_materialize vg group name w2) as [w3 out3] eqn:E3.
  apply CreateSnapshots_materialize_inv in E3
    as (Eh3 & Es3 & El3 & (work & Hc3 & _ & Hnew) & Hok).
  unfold CreateSnapshots_cleanup, bind in Hrest.
  destruct (GroupSnapRemove group name w3) as [w4 r4] eqn:E4.
  apply perform_inv in E4 as (Ea4 & Eh4 & Es4 & Ec4 & El4).
  assert (Hw' : calls w' = calls w4 /\ out3 = Returned (r, None)).
  { destruct r4; unfold ErrorLog, ret in Hrest; injection Hrest as <- <-; auto. }
  destruct Hw' as (Hc' & ->).
  destruct (Hok r eq_refl) as (b' & info & snapshots & -> & Hinfo & Hlen & Hm).
  exists group, (cluster w2), b', info, snapshots, work.
  split_and!; auto.
  - rewrite Hc', Ec4. apply materialisedFrom_more.
    rewrite Eh2, Eh1 in Hm. exact Hm.
  - rewrite Hc', Ec4, Hc3, Ec2, Ec1, <- !app_assoc. reflexivity.
  - eapply Hnew. reflexivity.
Qed.

End MoreGroupFacts.

Lemma GetVolumeGroup_nil_error_means_every_member_resolved_witness :
  let w := newWorld clusterHealthy in
  exists w' vg,
    GetVolumeGroup "0001-vg-1" "rbd.csi.ceph.com" w = (w', (Some vg, None)) /\
    elements (heap w') (volumes vg) = [vol1; vol2].
Proof.
  intros w.
  pose proof (GetVolumeGroup_nil_error_means_every_member_resolved (B := Script)
                "0001-vg-1" "rbd.csi.ceph.com" w) as Hs.
  destruct (GetVolumeGroup "0001-vg-1" "rbd.csi.ceph.com" w) as [w' [g [e|]]] eqn:E;
    [vm_compute in E; discriminate|].
  destruct Hs as (_ & _ & _ & Hok).
  destruct (Hok eq_refl) as (vg & b0 & cvg & b1 & volumeMap & -> & Hinit & Hattr &
                             _ & _ & Hel & _).
  simpl in Hinit. injection Hinit as <- <-. simpl in Hattr. injection Hattr as <- <-.
  exists w', vg. split; [reflexivity | exact Hel].
Defined.

Lemma RemoveVolume_never_adds_a_member_witness :
  let w := loadedWorld clusterHealthy in
  exists w' vg',
    RemoveVolume loadedGroup vol1 w = (w', (vg', None)) /\
    (forall v, v ∈ elements (heap w') (volumes vg') -> v ∈ [vol1; vol2]).
Proof.
  intros w. eexists _, _. split; [vm_compute; reflexivity|].
  edestruct (RemoveVolume_never_adds_a_member (B := Script) loadedGroup vol1 w)
    as (Hsub & _).
  - right. eexists. split; [reflexivity|]. simpl. lia.
  - vm_compute. reflexivity.
  - exact Hsub.
Defined.

Lemma CreateSnapshots_success_materialises_from_members_witness :
  let w := loadedWorld clusterHealthy in
  exists w' r snapshots,
    CreateSnapshots loadedGroup "snap" w = (w', Returned (r, None)) /\
    r = Some snapshots /\ length snapshots = 2.
Proof.
  intros w. eexists _, _, _. split; [vm_compute; reflexivity|].
  edestruct (CreateSnapshots_success_materialises_from_members (B := Script)
               loadedGroup "snap" w)
    as (group & b & b' & info & snapshots & work & Hg & Hr & Hi & Hlen & _).
  - vm_compute. reflexivity.
  - injection Hr as <-. split; [reflexivity|]. reflexivity.
Defined.

End RBDGroupMoreFacts.

(** ** Creating, deleting and converting a volume group *)

Module RBDGroupAdminFacts.
Import RBDGroupAdmin ErrorsFacts.

Section AdminFacts.
Context {B : Type} `{RBDGroup.RBD B} `{GroupAdmin B}.

Lemma admin_perform_inv {A} c (answer : B -> B * A) (w w' : World B) r :
  perform c answer w = (w', r) ->
  answer (cluster w) = (cluster w', r) /\ heap w' = heap w /\
  store w' = store w /\ calls w' = calls w ++ [c] /\ logs w' = logs w.
Proof.
  unfold perform. destruct (answer (cluster w)) as [b r0].
  intros [= <- <-]. auto.
Qed.

Lemma lift_GetIOContext_inv (w w' : World B) r :
  lift RBDGroup.GetIOContext w = (w', r) ->
  RBDGroup.answerGetIOContext (cluster w) = (cluster w', r) /\ heap w' = heap w /\
  store w' = store w /\ calls w' = calls w ++ [InGroup RBDGroup.CallGetIOContext] /\
  logs w' = logs w.
Proof.
  unfold lift, RBDGroup.GetIOContext, RBDGroup.perform. simpl.
  destruct (RBDGroup.answerGetIOContext (cluster w)) as [b r0].
  intros [= <- <-]. simpl. rewrite app_nil_r. auto.
Qed.

Lemma lift_ListVolumes_inv vg (w w' : World B) r :
  lift (RBDGroup.ListVolumes vg) w = (w', r) ->
  r = (RBDGroup.elements (heap w) (RBDGroup.volumes vg), None) /\
  cluster w' = cluster w /\ heap w' = heap w /\ store w' = store w /\
  calls w' = calls w /\ logs w' = logs w.
Proof.
  unfold lift, RBDGroup.ListVolumes, RBDGroup.range, bind, ret. simpl.
  intros [= <- <-]. simpl. rewrite !app_nil_r. split_and!; reflexivity.
Qed.

(** [Create] takes an "exists" answer of the cluster for success: with a
    name and an I/O context, it returns nil exactly when the cluster
    created the group or answered an error that is [librbd.ErrExist].
    It asks for the I/O context and creates at most once, and every
    error it returns carries its cause. *)
Theorem Create_tolerates_an_existing_group
    (vg : RBDGroup.volumeGroup) (w : World B) :
  let '(w', err) := Create vg w in
  heap w' = heap w /\ store w' = store w /\
  match RBDGroup.GetName (RBDGroup.common vg) with
  | Err cause => w' = w /\ exists e, err = Some e /\ errIs e cause = true
  | Ok name =>
      exists b0 r0,
        RBDGroup.answerGetIOContext (cluster w) = (b0, r0) /\
        match r0 with
        | Some cause =>
            err = Some cause /\
            calls w' = calls w ++ [InGroup RBDGroup.CallGetIOContext]
        | None =>
            exists r1,
              answerGroupCreate name b0 = (cluster w', r1) /\
              calls w' = calls w ++ [InGroup RBDGroup.CallGetIOContext;
                                     CallGroupCreate name] /\
              (err = None <-> r1 = None \/ Is r1 RBDGroup.librbd_ErrExist = true) /\
              (forall e, err = Some e ->
                 exists cause, r1 = Some cause /\ errIs e cause = true)
        end
  end.
Proof.
  destruct (Create vg w) as [w' err] eqn:E. unfold Create in E.
  destruct (RBDGroup.GetName (RBDGroup.common vg)) as [name|cause].
  2:{ injection E as <- <-. split_and!; auto. eexists. split; [reflexivity|].
      apply errIs_wrapf, errIs_refl. }
  unfold bind at 1 in E.
  destruct (lift RBDGroup.GetIOContext w) as [w1 r0] eqn:E1.
  apply lift_GetIOContext_inv in E1 as (Ea1 & Eh1 & Es1 & Ec1 & El1).
  destruct r0 as [cause|].
  { injection E as <- <-. split_and!; auto. exists (cluster w1), (Some cause). auto. }
  unfold bind at 1 in E.
  destruct (GroupCreate name w1) as [w2 r1] eqn:E2.
  apply admin_perform_inv in E2 as (Ea2 & Eh2 & Es2 & Ec2 & El2).
  assert (Hw : w' = w2).
  { destruct r1 as [e|]; [destruct (errIs e RBDGroup.librbd_ErrExist)|];
      injection E as <- _; reflexivity. }
  subst w'. split_and!; [congruence | congruence |].
  exists (cluster w1), None. split; [exact Ea1|].
  exists r1. split_and!; auto.
  - rewrite Ec2, Ec1, <- app_assoc. reflexivity.
  - destruct r1 as [e|]; simpl.
    + destruct (errIs e RBDGroup.librbd_ErrExist); simpl in E; injection E as <-;
        split; auto; try discriminate. intros [[=]|[=]].
    + injection E as <-. split; auto.
  - intros e0 ->. destruct r1 as [e|]; [|discriminate].
    destruct (errIs e RBDGroup.librbd_ErrExist); simpl in E; [discriminate|].
    injection E as <-. exists e. split; [reflexivity|].
    apply errIs_wrapf, errIs_refl.
Qed.

(** [Delete] deletes the common part, which is the journal's side of the
    group, only after the cluster removed the group or answered that it
    is not there ([rados.ErrNotFound]); then that is its last call and
    its answer is the result.  Any other error of the removal is
    returned with its cause, and the common part is left alone. *)
Theorem Delete_deletes_the_common_part_last
    (vg : RBDGroup.volumeGroup) (w : World B) :
  let '(w', err) := Delete vg w in
  heap w' = heap w /\ store w' = store w /\
  match RBDGroup.GetName (RBDGroup.common vg) with
  | Err cause => w' = w /\ err = Some cause
  | Ok name =>
      exists b0 r0,
        RBDGroup.answerGetIOContext (cluster w) = (b0, r0) /\
        match r0 with
        | Some cause =>
            err = Some cause /\
            calls w' = calls w ++ [InGroup RBDGroup.CallGetIOContext]
        | None =>
            exists b1 r1,
              answerGroupRemove name b0 = (b1, r1) /\
              if decide (r1 = None \/ Is r1 RBDGroup.rados_ErrNotFound = true) then
                answerCommonDelete (RBDGroup.common vg) b1 = (cluster w', err) /\
                calls w' = calls w ++ [InGroup RBDGroup.CallGetIOContext;
                                       CallGroupRemove name; CallCommonDelete]
              else
                calls w' = calls w ++ [InGroup RBDGroup.CallGetIOContext;
                                       CallGroupRemove name] /\
                exists cause e, r1 = Some cause /\ err = Some e /\ errIs e cause = true
        end
  end.
Proof.
  destruct (Delete vg w) as [w' err] eqn:E. unfold Delete in E.
  destruct (RBDGroup.GetName (RBDGroup.common vg)) as [name|cause].
  2:{ injection E as <- <-. auto. }
  unfold bind at 1 in E.
  destruct (lift RBDGroup.GetIOContext w) as [w1 r0] eqn:E1.
  apply lift_GetIOContext_inv in E1 as (Ea1 & Eh1 & Es1 & Ec1 & El1).
  destruct r0 as [cause|].
  { injection E as <- <-. split_and!; auto. exists (cluster w1), (Some cause). auto. }
  unfold bind at 1 in E.
  destruct (GroupRemove name w1) as [w2 r1] eqn:E2.
  apply admin_perform_inv in E2 as (Ea2 & Eh2 & Es2 & Ec2 & El2).
  assert (Hdel : forall w0 r, commonVolumeGroup_Delete (RBDGroup.common vg) w2 = (w0, r) ->
            heap w0 = heap w /\ store w0 = store w /\
            answerCommonDelete (RBDGroup.common vg) (cluster w2) = (cluster w0, r) /\
            calls w0 = calls w ++ [InGroup RBDGroup.CallGetIOContext;
                                   CallGroupRemove name; CallCommonDelete]).
  { intros w0 r E3. apply admin_perform_inv in E3 as (Ea3 & Eh3 & Es3 & Ec3 & El3).
    split_and!; try congruence.
    rewrite Ec3, Ec2, Ec1, <- !app_assoc. reflexivity. }
  destruct r1 as [e|].
  - destruct (errIs e RBDGroup.rados_ErrNotFound) eqn:Hnf; simpl in E.
    + apply Hdel in E as (? & ? & ? & ?). split_and!; auto.
      exists (cluster w1), None. split; [exact Ea1|].
      exists (cluster w2), (Some e). split; [exact Ea2|].
      rewrite decide_True by (right; exact Hnf). auto.
    + injection E as <- <-. split_and!; [congruence | congruence |].
      exists (cluster w1), None. split; [exact Ea1|].
      exists (cluster w2), (Some e). split; [exact Ea2|].
      rewrite decide_False.
      * split; [rewrite Ec2, Ec1, <- app_assoc; reflexivity|].
        exists e. eexists. split_and!; auto. apply errIs_wrapf, errIs_refl.
      * intros [[=]|Hin]. simpl in Hin. congruence.
  - apply Hdel in E as (? & ? & ? & ?). split_and!; auto.
    exists (cluster w1), None. split; [exact Ea1|].
    exists (cluster w2), None. split; [exact Ea2|].
    rewrite decide_True by (left; reflexivity). auto.
Qed.

Lemma ToCSI_range_inv l : forall i csiVolumes (w w' : World B) csiVolumes' err,
  ToCSI_range l i csiVolumes w = (w', (csiVolumes', err)) ->
  heap w' = heap w /\ store w' = store w /\ logs w' = logs w /\
  length csiVolumes' = length csiVolumes /\
  exists converted,
    calls w' = calls w ++ map CallVolumeToCSI converted /\
    converted `prefix_of` l /\
    (err = None -> converted = l) /\
    (err <> None -> converted <> []).
Proof.
  induction l as [|vol rest IH]; intros i csiVolumes w w' csiVolumes' err; simpl.
  - intros [= <- <- <-]. split_and!; auto. exists []. simpl. rewrite app_nil_r.
    split_and!; auto; congruence.
  - unfold bind. destruct (Volume_ToCSI vol w) as [w1 [cv e1]] eqn:E1.
    apply admin_perform_inv in E1 as (_ & Eh1 & Es1 & Ec1 & El1).
    destruct e1 as [e|].
    + intros [= <- <- <-]. split_and!; auto; [apply length_insert|].
      exists [vol]. split_and!; auto; try discriminate.
      apply prefix_cons, prefix_nil.
    + intros E. apply IH in E as (Eh & Es & El & Hlen & converted & Hc & Hp & Hnone & _).
      rewrite length_insert in Hlen.
      split_and!; try congruence.
      exists (vol :: converted). split_and!.
      * rewrite Hc, Ec1, <- app_assoc. reflexivity.
      * apply prefix_cons. exact Hp.
      * intros Hn. rewrite (Hnone Hn). reflexivity.
      * discriminate.
Qed.

(** [ToCSI] converts the members in the order of the list and stops at
    the first one that cannot be converted.  It returns a group exactly
    when it returns no error; the group then has the ID of the volume
    group, an empty context and one slot per member, every member was
    converted, once, and nothing else was called. *)
Theorem ToCSI_converts_the_members_in_order
    (vg : RBDGroup.volumeGroup) (w : World B) :
  let '(w', (g, err)) := ToCSI vg w in
  let members := RBDGroup.elements (heap w) (RBDGroup.volumes vg) in
  heap w' = heap w /\ store w' = store w /\
  (g = None <-> err <> None) /\
  exists converted,
    calls w' = calls w ++ map CallVolumeToCSI converted /\
    converted `prefix_of` members /\
    (forall csi, g = Some csi ->
       converted = members /\
       RBDGroup.GetID (RBDGroup.common vg) = Ok (VolumeGroupId csi) /\
       VolumeGroupContext csi = ∅ /\
       length (Volumes csi) = length members).
Proof.
  destruct (ToCSI vg w) as [w' [g err]] eqn:E. intros members.
  unfold ToCSI in E. unfold bind at 1 in E.
  destruct (lift (RBDGroup.ListVolumes vg) w) as [w1 r1] eqn:E1.
  apply lift_ListVolumes_inv in E1 as (-> & Ecl1 & Eh1 & Es1 & Ec1 & El1).
  fold members in E. simpl in E. unfold bind at 1 in E.
  destruct (ToCSI_range members 0 _ w1) as [w2 [csiVolumes rerr]] eqn:E2.
  apply ToCSI_range_inv in E2 as (Eh2 & Es2 & El2 & Hlen & converted & Hc & Hp & Hnone & _).
  rewrite length_replicate in Hlen. rewrite Ec1 in Hc.
  destruct rerr as [e|].
  { injection E as <- <- <-. split_and!; try congruence.
    - split; [discriminate | reflexivity].
    - exists converted. split_and!; auto. intros csi [=]. }
  destruct (RBDGroup.GetID (RBDGroup.common vg)) as [id|e] eqn:Hid;
    injection E as <- <- <-.
  - split_and!; try congruence.
    + split; [discriminate | congruence].
    + exists converted. split_and!; auto. intros csi [= <-]. simpl. auto.
  - split_and!; try congruence.
    + split; [discriminate | reflexivity].
    + exists converted. split_and!; auto. intros csi [=].
Qed.

End AdminFacts.

Lemma Create_tolerates_an_existing_group_witness :
  let w := loadedWorld clusterGroupExists in
  exists w', Create RBDGroup.loadedGroup w = (w', None) /\
             calls w' = [InGroup RBDGroup.CallGetIOContext; CallGroupCreate "vg-1"].
Proof.
  intros w.
  pose proof (Create_tolerates_an_existing_group (B := Script) RBDGroup.loadedGroup w)
    as Hs.
  destruct (Create RBDGroup.loadedGroup w) as [w' [e|]] eqn:E;
    [vm_compute in E; discriminate|].
  destruct Hs as (_ & _ & b0 & r0 & Ha & Hs). simpl in Ha. injection Ha as <- <-.
  destruct Hs as (r1 & _ & Hc & _).
  exists w'. split; [reflexivity | exact Hc].
Defined.

Lemma Delete_deletes_the_common_part_last_witness :
  let w := loadedWorld clusterGroupExists in
  exists w', Delete RBDGroup.loadedGroup w = (w', None) /\
             calls w' = [InGroup RBDGroup.CallGetIOContext; CallGroupRemove "vg-1";
                         CallCommonDelete].
Proof.
  intros w.
  pose proof (Delete_deletes_the_common_part_last (B := Script) RBDGroup.loadedGroup w)
    as Hs.
  destruct (Delete RBDGroup.loadedGroup w) as [w' [e|]] eqn:E;
    [vm_compute in E; discriminate|].
  destruct Hs as (_ & _ & b0 & r0 & Ha & Hs). simpl in Ha. injection Ha as <- <-.
  destruct Hs as (b1 & r1 & Hr & Hs). simpl in Hr. injection Hr as <- <-.
  rewrite decide_True in Hs by (left; reflexivity).
  exists w'. split; [reflexivity | apply Hs].
Defined.

Lemma ToCSI_converts_the_members_in_order_witness :
  let w := loadedWorld clusterGroupExists in
  exists w' csi, ToCSI RBDGroup.loadedGroup w = (w', (Some csi, None)) /\
                 VolumeGroupId csi = "0001-vg-1" /\ length (Volumes csi) = 2 /\
                 calls w' = [CallVolumeToCSI RBDGroup.vol1; CallVolumeToCSI RBDGroup.vol2].
Proof.
  intros w.
  pose proof (ToCSI_converts_the_members_in_order (B := Script) RBDGroup.loadedGroup w)
    as Hs.
  destruct (ToCSI RBDGroup.loadedGroup w) as [w' [[csi|] [e|]]] eqn:E;
    try (vm_compute in E; discriminate).
  destruct Hs as (_ & _ & _ & converted & Hc & _ & Hcsi).
  destruct (Hcsi csi eq_refl) as (-> & Hid & _ & Hlen).
  exists w', csi. split_and!; auto.
  simpl in Hid. congruence.
Defined.

End RBDGroupAdminFacts.

(** ** Further properties of Sparsify and ControllerReclaimSpace *)

Module RBDMoreFacts.
Import RBD.

(** [1 << imageInfo.Order] is the object size [2 ^ Order] for an order
    below 64, wraps to 0 from 64 on, and is not computed for a negative
    order. *)
Theorem sparseSizeOf_is_the_object_size (order : Z) :
  ((0 <= order < 64)%Z -> sparseSizeOf order = Some (2 ^ order)%Z) /\
  ((64 <= order)%Z -> sparseSizeOf order = Some 0%Z) /\
  ((order < 0)%Z -> sparseSizeOf order = None).
Proof.
  unfold sparseSizeOf. split_and!; intros Ho.
  - destruct (Z.ltb_spec order 0); [lia|]. f_equal.
    rewrite Z.shiftl_1_l. apply Z.mod_small. split; [apply Z.pow_nonneg; lia|].
    apply Z.pow_lt_mono_r; lia.
  - destruct (Z.ltb_spec order 0); [lia|]. f_equal.
    rewrite Z.shiftl_1_l.
    replace order with (64 + (order - 64))%Z by lia.
    rewrite Z.pow_add_r by lia. rewrite Z.mul_comm. apply Z.mod_mul. lia.
  - destruct (Z.ltb_spec order 0); [reflexivity | lia].
Qed.

Lemma sparseSizeOf_is_the_object_size_witness :
  sparseSizeOf 22 = Some 4194304%Z /\ sparseSizeOf 64 = Some 0%Z /\
  sparseSizeOf (-1) = None.
Proof.
  destruct (sparseSizeOf_is_the_object_size 22) as (H22 & _ & _).
  destruct (sparseSizeOf_is_the_object_size 64) as (_ & H64 & _).
  destruct (sparseSizeOf_is_the_object_size (-1)) as (_ & _ & Hneg).
  split; [apply H22; lia|]. split; [apply H64; lia | apply Hneg; lia].
Defined.

Section MoreReclaimFacts.
Context {B : Type} `{Images B}.

Lemma image_perform_inv {A} c (answer : B -> B * A) (w w' : World B) r :
  perform c answer w = (w', r) ->
  answer (cluster w) = (cluster w', r) /\ locks w' = locks w /\
  calls w' = calls w ++ [c] /\ logs w' = logs w.
Proof.
  unfold perform. destruct (answer (cluster w)) as [b r0].
  intros [= <- <-]. auto.
Qed.

(** The calls of [Sparsify] have one of three shapes: only the in-use
    check; the check and a failed open; or the check, a successful open,
    the work on the image, and [Close] as the last call, made once.  An
    image that was opened is closed on every path, also when the work
    fails or panics.  When [Sparsify] returns nil the image was
    sparsified with the size [1 << Order] of the order that [Stat]
    answered. *)
Theorem Sparsify_closes_the_image_it_opened (ri : rbdImage) (w : World B) :
  let '(w', out) := Sparsify ri w in
  exists l,
    calls w' = calls w ++ l /\ locks w' = locks w /\
    (l = [CallIsInUse ri] \/
     (l = [CallIsInUse ri; CallOpen ri] /\ exists e, out = Returned (Some e)) \/
     (exists work,
        l = [CallIsInUse ri; CallOpen ri; CallStat ri] ++ work ++ [CallClose ri] /\
        (work = [] \/ exists sparseSize, work = [CallSparsify ri sparseSize]))) /\
    (out = Returned None ->
     exists b b' info sparseSize,
       answerStat ri b = (b', Ok info) /\
       sparseSizeOf (Order info) = Some sparseSize /\
       l = [CallIsInUse ri; CallOpen ri; CallStat ri;
            CallSparsify ri sparseSize; CallClose ri]).
Proof.
  destruct (Sparsify ri w) as [w' out] eqn:E.
  unfold Sparsify, bind in E.
  destruct (isInUse ri w) as [w1 [inUse err]] eqn:E1.
  apply image_perform_inv in E1 as (_ & Hl1 & Hc1 & _).
  destruct err as [e|].
  { injection E as <- <-. exists [CallIsInUse ri]. split_and!; auto. discriminate. }
  destruct inUse.
  { injection E as <- <-. exists [CallIsInUse ri]. split_and!; auto. discriminate. }
  destruct (open ri w1) as [w2 oerr] eqn:E2.
  apply image_perform_inv in E2 as (_ & Hl2 & Hc2 & _).
  destruct oerr as [e|].
  { injection E as <- <-. exists [CallIsInUse ri; CallOpen ri].
    rewrite Hc2, Hc1, <- app_assoc. split_and!; eauto; [congruence | discriminate]. }
  destruct (Sparsify_opened ri w2) as [w3 out3] eqn:E3.
  unfold image_Close, notify, ret in E. injection E as <- <-. simpl.
  unfold Sparsify_opened, bind in E3.
  destruct (image_Stat ri w2) as [w4 r4] eqn:E4.
  apply image_perform_inv in E4 as (Ha4 & Hl4 & Hc4 & _).
  destruct r4 as [info|e].
  2:{ injection E3 as <- <-.
      exists ([CallIsInUse ri; CallOpen ri; CallStat ri] ++ [] ++ [CallClose ri]).
      rewrite Hc4, Hc2, Hc1, <- !app_assoc. split_and!; [reflexivity | congruence | | discriminate].
      right. right. exists []. auto. }
  destruct (sparseSizeOf (Order info)) as [sz|] eqn:Hsz.
  2:{ injection E3 as <- <-.
      exists ([CallIsInUse ri; CallOpen ri; CallStat ri] ++ [] ++ [CallClose ri]).
      rewrite Hc4, Hc2, Hc1, <- !app_assoc. split_and!; [reflexivity | congruence | | discriminate].
      right. right. exists []. auto. }
  destruct (image_Sparsify ri sz w4) as [w5 r5] eqn:E5.
  apply image_perform_inv in E5 as (_ & Hl5 & Hc5 & _).
  exists ([CallIsInUse ri; CallOpen ri; CallStat ri] ++ [CallSparsify ri sz] ++ [CallClose ri]).
  destruct r5 as [e|]; injection E3 as <- <-;
    rewrite Hc5, Hc4, Hc2, Hc1, <- !app_assoc;
    (split_and!; [reflexivity | congruence | right; right; eexists; split; eauto |]).
  - discriminate.
  - intros _. eexists _, _, info, sz. split_and!; eauto.
Qed.

Lemma Sparsify_frame (ri : rbdImage) (w w' : World B) out :
  Sparsify ri w = (w', out) ->
  locks w' = locks w /\ exists l, calls w' = calls w ++ l.
Proof.
  unfold Sparsify, Sparsify_opened, isInUse, open, image_Stat, image_Sparsify,
    image_Close, perform, notify.
  intros E.
  repeat first
    [ progress (unfold bind, ret in E)
    | match type of E with
      | context [match ?x with _ => _ end] =>
          match x with
          | context [match _ with _ => _ end] => fail 1
          | _ => destruct x eqn:?
          end
      end ].
  all: injection E as <- <-; simpl; (split; [reflexivity|]).
  all: eexists; rewrite <- ?app_assoc; reflexivity.
Qed.

(** [ControllerReclaimSpace] refuses a request with an empty volume ID
    with InvalidArgument before it does anything, and a request for a
    volume whose lock is held with Aborted after the failed attempt to
    take the lock: in both cases the cluster is not asked anything and the
    locks are as before. *)
Theorem ControllerReclaimSpace_refuses_without_asking_the_cluster
    (req : ControllerReclaimSpaceRequest) (w : World B) :
  let volumeID := GetVolumeId req in
  let '(w', out) := ControllerReclaimSpace req w in
  (volumeID = "" ->
     w' = w /\
     out = Returned (None, Some (statusError InvalidArgument "empty volume ID in request"))) /\
  (volumeID <> "" -> volumeID ∈ locks w ->
     cluster w' = cluster w /\ locks w' = locks w /\
     calls w' = calls w ++ [CallTryAcquire volumeID] /\
     exists msg, out = Returned (None, Some (statusError Aborted msg))).
Proof.
  intros volumeID.
  destruct (ControllerReclaimSpace req w) as [w' out] eqn:E.
  unfold ControllerReclaimSpace in E. fold volumeID in E.
  destruct (String.eqb_spec volumeID "") as [He|Hne].
  - injection E as <- <-. split; [auto | contradiction].
  - split; [contradiction|]. intros _ Hheld.
    unfold bind, TryAcquire in E. rewrite decide_True in E by exact Hheld.
    simpl in E. unfold ErrorLog, ret in E. injection E as <- <-. simpl.
    split_and!; eauto.
Qed.

(** For a volume ID that is not empty and whose lock is free,
    [ControllerReclaimSpace] takes the lock first and, whatever the
    cluster answers and also when [Sparsify] panics, ends with destroying
    the manager and releasing the lock, so that the locks are as before.
    A volume that was resolved is destroyed just before that.  A failed
    lookup gives Aborted, and the result has a response exactly when it
    has no error. *)
Theorem ControllerReclaimSpace_releases_lock_and_volume
    (req : ControllerReclaimSpaceRequest) (w : World B) :
  let volumeID := GetVolumeId req in
  volumeID <> "" -> volumeID ∉ locks w ->
  let '(w', out) := ControllerReclaimSpace req w in
  locks w' = locks w /\
  (exists b r work,
     answerGetVolumeByID volumeID (cluster w) = (b, r) /\
     calls w' = calls w ++ [CallTryAcquire volumeID; CallGetVolumeByID volumeID]
                        ++ work ++ [CallManagerDestroy; CallRelease volumeID] /\
     match r with
     | Err _ => work = [] /\ exists msg, out = Returned (None, Some (statusError Aborted msg))
     | Ok rbdVol => exists sparsify, work = sparsify ++ [CallVolumeDestroy rbdVol]
     end) /\
  (forall resp err, out = Returned (resp, err) -> (resp = None <-> err <> None)).
Proof.
  intros volumeID Hne Hfree.
  destruct (ControllerReclaimSpace req w) as [w' out] eqn:E.
  unfold ControllerReclaimSpace in E. fold volumeID in E.
  destruct (String.eqb_spec volumeID ""); [contradiction|].
  unfold bind at 1, TryAcquire in E. rewrite decide_False in E by exact Hfree.
  simpl in E. unfold bind at 1 in E. unfold bind at 1 in E.
  match type of E with
  | context [GetVolumeByID volumeID ?w0] => set (w1 := w0) in *
  end.
  destruct (GetVolumeByID volumeID w1) as [w2 r] eqn:E2.
  apply image_perform_inv in E2 as (Ha2 & Hl2 & Hc2 & _).
  destruct r as [rbdVol|e].
  - unfold ControllerReclaimSpace_sparsify, bind at 1 in E. unfold bind at 1 in E.
    destruct (Sparsify rbdVol w2) as [w3 out3] eqn:E3.
    apply Sparsify_frame in E3 as (Hl3 & ls & Hc3).
    assert (Hshape : exists out4, forall (w4 : World B),
              (match out3 with
               | Returned err =>
                   if Is err ErrImageInUse
                   then ret (Returned (Some (mkResponse None None), None))
                   else match err with
                        | Some e0 =>
                            ret (Returned (None,
                                   Some (statusError Internal
                                           ("failed to sparsify volume: " ++ Error e0))))
                        | None => ret (Returned (Some (mkResponse None None), None))
                        end
               | Panicked => ret Panicked
               end) w4 = (w4, out4) /\
              (forall resp err, out4 = Returned (resp, err) -> (resp = None <-> err <> None))).
    { destruct out3 as [[e0|]|]; simpl.
      - destruct (errIs e0 ErrImageInUse); eexists; intros w4; (split; [reflexivity|]);
          intros resp err [= <- <-]; split; congruence.
      - eexists; intros w4; (split; [reflexivity|]);
          intros resp err [= <- <-]; split; congruence.
      - eexists; intros w4; (split; [reflexivity|]). intros resp err [=]. }
    destruct Hshape as (out4 & Hshape). destruct (Hshape w3) as (Hrun & Hex).
    rewrite Hrun in E.
    unfold rbdVol_Destroy, mgr_Destroy, Release, notify, bind, ret in E.
    injection E as <- <-. simpl. subst w1. simpl in *.
    split_and!.
    + rewrite Hl3, Hl2. set_solver.
    + eexists _, _, (ls ++ [CallVolumeDestroy rbdVol]). split; [exact Ha2|].
      split; [|eauto]. rewrite Hc3, Hc2, <- !app_assoc. reflexivity.
    + exact Hex.
  - unfold ret, mgr_Destroy, Release, notify, bind in E.
    injection E as <- <-. simpl. subst w1. simpl in *.
    split_and!.
    + rewrite Hl2. set_solver.
    + eexists _, _, []. split; [exact Ha2|]. split; [|eauto].
      rewrite Hc2, <- !app_assoc. reflexivity.
    + intros resp err [= <- <-]. split; congruence.
Qed.

End MoreReclaimFacts.

Lemma ControllerReclaimSpace_refuses_without_asking_the_cluster_witness :
  let w := {| cluster := clusterImageInUse; locks := {[ "vol-1" ]}; calls := [];
              logs := [] |} in
  let req := {| GetVolumeId := "vol-1" |} in
  calls (fst (ControllerReclaimSpace req w)) = [CallTryAcquire "vol-1"].
Proof.
  intros w req.
  pose proof (ControllerReclaimSpace_refuses_without_asking_the_cluster (B := Script) req w)
    as Hr.
  simpl in Hr. destruct (ControllerReclaimSpace req w) as [w' out].
  destruct Hr as (_ & Hheld).
  destruct Hheld as (_ & _ & Hc & _); [discriminate | set_solver |]. exact Hc.
Defined.

Lemma ControllerReclaimSpace_releases_lock_and_volume_witness :
  let w := {| cluster := clusterImageInUse; locks := {[ "other" ]}; calls := []; logs := [] |} in
  let req := {| GetVolumeId := "vol-1" |} in
  locks (fst (ControllerReclaimSpace req w)) = {[ "other" ]}.
Proof.
  intros w req.
  pose proof (ControllerReclaimSpace_releases_lock_and_volume (B := Script) req w) as Hr.
  simpl in Hr. destruct (ControllerReclaimSpace req w) as [w' out].
  apply Hr; [discriminate | set_solver].
Defined.

End RBDMoreFacts.

(** ** NodeReclaimSpace *)

Module RBDNodeFacts.
Import RBDNode.

Section NodeReclaimFacts.
Context {Cap B : Type} `{Node Cap B}.

Lemma lift_TryAcquire_inv volumeID (w w' : World B) acquired :
  lift (RBD.TryAcquire volumeID) w = (w', acquired) ->
  cluster w' = cluster w /\ logs w' = logs w /\
  calls w' = calls w ++ [InRBD (RBD.CallTryAcquire volumeID)] /\
  ((acquired = false /\ volumeID ∈ locks w /\ locks w' = locks w) \/
   (acquired = true /\ (volumeID ∉ locks w) /\ locks w' = {[ volumeID ]} ∪ locks w)).
Proof.
  unfold lift, RBD.TryAcquire. simpl.
  destruct (decide (volumeID ∈ locks w)) as [Hin|Hout];
    intros [= <- <-]; simpl; rewrite app_nil_r; split_and!; auto.
Qed.

Lemma lift_Release_inv volumeID (w w' : World B) u :
  lift (RBD.Release volumeID) w = (w', u) ->
  cluster w' = cluster w /\ logs w' = logs w /\
  calls w' = calls w ++ [InRBD (RBD.CallRelease volumeID)] /\
  locks w' = locks w ∖ {[ volumeID ]}.
Proof.
  unfold lift, RBD.Release. simpl. intros [= <- _]. simpl.
  rewrite app_nil_r. split_and!; reflexivity.
Qed.

Lemma NodeReclaimSpace_locked_inv req (w w' : World B) out :
  NodeReclaimSpace_locked req w = (w', out) ->
  locks w' = locks w /\ logs w' = logs w /\
  (fst out = None <-> snd out <> None) /\
  ((calls w' = calls w /\ cluster w' = cluster w /\ snd out <> None /\
    (NodeReclaimSpace_path req = None \/
     IsBlockMultiNode [GetVolumeCapability req] <> (false, false))) \/
   (exists path stdout stderr err,
      NodeReclaimSpace_path req = Some path /\
      IsBlockMultiNode [GetVolumeCapability req] = (false, false) /\
      answerExecCommand "fstrim" [path] (cluster w) = (cluster w', (stdout, stderr, err)) /\
      calls w' = calls w ++ [CallExecCommand "fstrim" [path]] /\
      (err = None <-> snd out = None))).
Proof.
  unfold NodeReclaimSpace_locked.
  assert (Hrefused : forall (e : error) (P : Prop), P ->
            locks w = locks w /\ logs w = logs w /\
            (fst (None : option NodeReclaimSpaceResponse, Some e) = None <->
             snd (None : option NodeReclaimSpaceResponse, Some e) <> None) /\
            ((calls w = calls w /\ cluster w = cluster w /\
              snd (None : option NodeReclaimSpaceResponse, Some e) <> None /\ P) \/
             (exists path stdout stderr err,
                NodeReclaimSpace_path req = Some path /\
                IsBlockMultiNode [GetVolumeCapability req] = (false, false) /\
                answerExecCommand "fstrim" [path] (cluster w)
                  = (cluster w, (stdout, stderr, err)) /\
                calls w = calls w ++ [CallExecCommand "fstrim" [path]] /\
                (err = None <-> snd (None : option NodeReclaimSpaceResponse, Some e) = None)))).
  { intros e P HP. simpl. split; [reflexivity|]. split; [reflexivity|].
    split; [split; [discriminate | reflexivity]|].
    left. split; [reflexivity|]. split; [reflexivity|]. split; [discriminate | exact HP]. }
  destruct (NodeReclaimSpace_path req) as [path|] eqn:Hpath.
  2:{ intros [= <- <-]. apply Hrefused. left. reflexivity. }
  destruct (IsBlockMultiNode [GetVolumeCapability req]) as [isBlock isMultiNode] eqn:Hcap.
  destruct isMultiNode.
  { intros [= <- <-]. apply Hrefused. right. destruct isBlock; discriminate. }
  destruct isBlock.
  { intros [= <- <-]. apply Hrefused. right. discriminate. }
  clear Hrefused. unfold bind, ExecCommand.
  destruct (answerExecCommand "fstrim" [path] (cluster w)) as [b [[stdout stderr] err]] eqn:Ea.
  destruct err as [e|]; intros [= <- <-]; simpl.
  - split; [reflexivity|]. split; [reflexivity|].
    split; [split; [discriminate | reflexivity]|].
    right. exists path, stdout, stderr, (Some e).
    split; [reflexivity|]. split; [reflexivity|]. split; [exact Ea|].
    split; [reflexivity|]. split; discriminate.
  - split; [reflexivity|]. split; [reflexivity|].
    split; [split; [discriminate | congruence]|].
    right. exists path, stdout, stderr, None.
    split; [reflexivity|]. split; [reflexivity|]. split; [exact Ea|].
    split; [reflexivity|]. split; reflexivity.
Qed.

(** [NodeReclaimSpace] runs at most one command, which is [fstrim] on the
    path it chose: the staging path with the volume ID below it, and the
    volume path only when there is no staging path.  It runs it only
    while it holds the lock of the volume, and only for a volume that is
    neither block-mode nor multi-node.  On every path the locks are as
    before, and the result has a response exactly when it has no
    error. *)
Theorem NodeReclaimSpace_trims_once_under_the_lock
    (req : NodeReclaimSpaceRequest Cap) (w : World B) :
  let volumeID := GetVolumeId req in
  let '(w', (resp, err)) := NodeReclaimSpace req w in
  locks w' = locks w /\
  (resp = None <-> err <> None) /\
  exists l,
    calls w' = calls w ++ l /\
    (l = [] \/
     l = [InRBD (RBD.CallTryAcquire volumeID)] \/
     l = [InRBD (RBD.CallTryAcquire volumeID); InRBD (RBD.CallRelease volumeID)] \/
     exists path,
       l = [InRBD (RBD.CallTryAcquire volumeID); CallExecCommand "fstrim" [path];
            InRBD (RBD.CallRelease volumeID)] /\
       volumeID <> "" /\ (volumeID ∉ locks w) /\
       IsBlockMultiNode [GetVolumeCapability req] = (false, false) /\
       path <> "" /\
       (GetStagingTargetPath req = "" -> path = GetVolumePath req) /\
       (GetStagingTargetPath req <> "" ->
          path = (GetStagingTargetPath req ++ "/" ++ volumeID)%string)).
Proof.
  intros volumeID.
  destruct (NodeReclaimSpace req w) as [w' [resp err]] eqn:E.
  unfold NodeReclaimSpace in E. fold volumeID in E.
  destruct (String.eqb_spec volumeID "") as [He|Hne].
  { unfold ret in E. injection E as <- <- <-.
    split; [reflexivity|]. split; [split; [discriminate | reflexivity]|].
    exists []. rewrite app_nil_r. auto. }
  unfold bind at 1 in E.
  destruct (lift (RBD.TryAcquire volumeID) w) as [w1 acquired] eqn:E1.
  apply lift_TryAcquire_inv in E1 as (Ecl1 & El1 & Ec1 & Hacq).
  destruct Hacq as [(-> & Hheld & Hl1) | (-> & Hfree & Hl1)]; simpl in E.
  { unfold bind, lift, RBD.ErrorLog, ret in E. simpl in E. injection E as <- <- <-. simpl.
    split; [exact Hl1|]. split; [split; [discriminate | reflexivity]|].
    exists [InRBD (RBD.CallTryAcquire volumeID)]. rewrite app_nil_r. auto. }
  unfold bind at 1 in E.
  destruct (NodeReclaimSpace_locked req w1) as [w2 out] eqn:E2.
  apply NodeReclaimSpace_locked_inv in E2 as (Hl2 & Hlog2 & Hex & Hcalls).
  unfold bind in E.
  destruct (lift (RBD.Release volumeID) w2) as [w3 u] eqn:E3.
  apply lift_Release_inv in E3 as (Ecl3 & El3 & Ec3 & Hl3).
  unfold ret in E. injection E as <- ->. simpl in Hex.
  split_and!.
  - rewrite Hl3, Hl2, Hl1. set_solver.
  - exact Hex.
  - destruct Hcalls as [(Hc2 & _) | (path & stdout & stderr & xerr & Hpath & Hcap & _ & Hc2 & _)].
    + eexists. split; [rewrite Ec3, Hc2, Ec1, <- app_assoc; reflexivity|].
      right. right. left. reflexivity.
    + eexists. split; [rewrite Ec3, Hc2, Ec1, <- !app_assoc; reflexivity|].
      right. right. right. exists path. split_and!; auto.
      * unfold NodeReclaimSpace_path in Hpath.
        destruct (String.eqb_spec (GetStagingTargetPath req) "") as [Hs|Hs].
        -- destruct (String.eqb_spec (GetVolumePath req) ""); [discriminate|].
           injection Hpath as <-. assumption.
        -- injection Hpath as <-. intros Hempty.
           destruct (GetStagingTargetPath req); [contradiction | discriminate].
      * intros Hs. unfold NodeReclaimSpace_path in Hpath. rewrite Hs in Hpath.
        simpl in Hpath. destruct (String.eqb (GetVolumePath req) ""); congruence.
      * intros Hs. unfold NodeReclaimSpace_path in Hpath.
        destruct (String.eqb_spec (GetStagingTargetPath req) ""); [contradiction|].
        fold volumeID in Hpath. congruence.
Qed.

(** The status codes of [NodeReclaimSpace]: InvalidArgument for an empty
    volume ID and, under the lock, for a request without a path; Aborted
    when the lock is held; Unimplemented for a multi-node volume, whether
    it is block-mode or not, and for a block-mode volume; and for a
    filesystem volume of one node the result is nil exactly when the
    command succeeded. *)
Theorem NodeReclaimSpace_status_codes
    (req : NodeReclaimSpaceRequest Cap) (w : World B) :
  let volumeID := GetVolumeId req in
  let '(w', (resp, err)) := NodeReclaimSpace req w in
  (volumeID = "" ->
     err = Some (RBD.statusError RBD.InvalidArgument "empty volume ID in request")) /\
  (volumeID <> "" -> volumeID ∈ locks w ->
     exists msg, err = Some (RBD.statusError RBD.Aborted msg)) /\
  (volumeID <> "" -> volumeID ∉ locks w ->
     match NodeReclaimSpace_path req with
     | None => exists msg, err = Some (RBD.statusError RBD.InvalidArgument msg)
     | Some path =>
         match IsBlockMultiNode [GetVolumeCapability req] with
         | (_, true) =>
             err = Some (RBD.statusError RBD.Unimplemented
                           "multi-node space reclaim is not supported")
         | (true, false) =>
             err = Some (RBD.statusError RBD.Unimplemented
                           "block-mode space reclaim is not supported")
         | (false, false) =>
             exists b stdout stderr xerr,
               answerExecCommand "fstrim" [path] (cluster w) = (b, (stdout, stderr, xerr)) /\
               (xerr = None -> err = None) /\
               (xerr <> None -> exists msg, err = Some (RBD.statusError RBD.Internal msg))
         end
     end).
Proof.
  intros volumeID.
  destruct (NodeReclaimSpace req w) as [w' [resp err]] eqn:E.
  unfold NodeReclaimSpace in E. fold volumeID in E.
  destruct (String.eqb_spec volumeID "") as [He|Hne].
  { unfold ret in E. injection E as <- <- <-.
    split; [reflexivity|]. split; contradiction. }
  split; [contradiction|].
  unfold bind at 1 in E.
  destruct (lift (RBD.TryAcquire volumeID) w) as [w1 acquired] eqn:E1.
  apply lift_TryAcquire_inv in E1 as (Ecl1 & El1 & Ec1 & Hacq).
  destruct Hacq as [(-> & Hheld & Hl1) | (-> & Hfree & Hl1)]; simpl in E.
  { unfold bind, lift, RBD.ErrorLog, ret in E. simpl in E. injection E as <- <- <-.
    split; [eauto | contradiction]. }
  split; [contradiction|]. intros _ _.
  unfold bind at 1 in E.
  destruct (NodeReclaimSpace_locked req w1) as [w2 out] eqn:E2.
  unfold bind in E.
  destruct (lift (RBD.Release volumeID) w2) as [w3 u] eqn:E3.
  unfold ret in E. injection E as _ ->. clear E3.
  unfold NodeReclaimSpace_locked in E2.
  destruct (NodeReclaimSpace_path req) as [path|].
  2:{ unfold ret in E2; injection E2 as _ <- <-. eauto. }
  destruct (IsBlockMultiNode [GetVolumeCapability req]) as [isBlock isMultiNode].
  destruct isMultiNode.
  { unfold ret in E2. injection E2 as _ _ <-. destruct isBlock; reflexivity. }
  destruct isBlock.
  { unfold ret in E2; injection E2 as _ <- <-. reflexivity. }
  unfold bind, ExecCommand in E2. rewrite Ecl1 in E2.
  destruct (answerExecCommand "fstrim" [path] (cluster w)) as [b [[stdout stderr] xerr]].
  exists b, stdout, stderr, xerr. split; [reflexivity|].
  destruct xerr as [e|]; unfold ret in E2; injection E2 as _ <- <-.
  - split; [discriminate | eauto].
  - split; [reflexivity | congruence].
Qed.

End NodeReclaimFacts.

Lemma NodeReclaimSpace_trims_once_under_the_lock_witness :
  let w := newWorld nodeTrims in
  exists w' resp,
    NodeReclaimSpace stagedRequest w = (w', (Some resp, None)) /\
    calls w' =
      [InRBD (RBD.CallTryAcquire (GetVolumeId stagedRequest));
       CallExecCommand "fstrim"
         [(GetStagingTargetPath stagedRequest ++ "/" ++ GetVolumeId stagedRequest)%string];
       InRBD (RBD.CallRelease (GetVolumeId stagedRequest))].
Proof.
  intros w.
  pose proof (NodeReclaimSpace_trims_once_under_the_lock (B := Script) stagedRequest w)
    as Hs.
  destruct (NodeReclaimSpace stagedRequest w) as [w' [[resp|] [e|]]] eqn:E;
    try (vm_compute in E; discriminate).
  destruct Hs as (_ & _ & l & Hc & Hl).
  exists w', resp. split; [reflexivity|].
  vm_compute in E. injection E as <- <-. simpl in Hc. subst l. reflexivity.
Defined.

End RBDNodeFacts.

(** ** The controller manager *)

Module ControllerFacts.
Import Controller ErrorsFacts.

Lemma string_app_empty_r (s : string) : (s ++ "")%string = s.
Proof.
  induction s as [|a s IH]; [reflexivity|].
  change (String a (s ++ "")%string = String a s). rewrite IH. reflexivity.
Qed.

Section StartFacts.
Context {Ctl B : Type} `{Manager Ctl B}.

Lemma controller_perform_inv {A} c (answer : B -> B * A) (w w' : World Ctl B) r :
  perform c answer w = (w', r) ->
  answer (cluster w) = (cluster w', r) /\ ControllerList w' = ControllerList w /\
  calls w' = calls w ++ [c] /\ logs w' = logs w.
Proof.
  unfold perform. destruct (answer (cluster w)) as [b r0].
  intros [= <- <-]. auto.
Qed.

Lemma addToManager_range_inv mgr config l : forall (w w' : World Ctl B) err,
  addToManager_range mgr config l w = (w', err) ->
  ControllerList w' = ControllerList w /\ logs w' = logs w /\
  exists added,
    calls w' = calls w ++ adds mgr config added /\
    (err = None -> added = l) /\
    (forall e, err = Some e ->
       exists before c later cause b,
         l = before ++ c :: later /\ added = before ++ [c] /\
         answerAdd c mgr config b = (cluster w', Some cause) /\
         e = errWrapf "failed to add: " cause "").
Proof.
  induction l as [|c rest IH]; intros w w' err; simpl.
  - intros [= <- <-]. split_and!; auto. exists []. unfold adds. simpl.
    rewrite app_nil_r. split_and!; auto. intros e [=].
  - unfold bind. destruct (Add c mgr config w) as [w1 r1] eqn:E1.
    apply controller_perform_inv in E1 as (Ea1 & El1 & Ec1 & Elog1).
    destruct r1 as [cause|].
    + intros [= <- <-]. split_and!; auto. exists [c]. split_and!; auto.
      * discriminate.
      * intros e [= <-]. exists [], c, rest, cause, (cluster w).
        split_and!; auto.
    + intros E. apply IH in E as (El & Elog & added & Hc & Hnone & Hsome).
      split_and!; try congruence.
      exists (c :: added). split_and!.
      * rewrite Hc, Ec1, <- app_assoc. reflexivity.
      * intros Hn. rewrite (Hnone Hn). reflexivity.
      * intros e He. destruct (Hsome e He) as (before & c0 & later & cause & b &
                                               -> & -> & Ha & ->).
        exists (c :: before), c0, later, cause, b. split_and!; auto.
Qed.

(** [addToManager] adds the controllers of [ControllerList] in order to
    the manager it was given and stops at the first one that cannot be
    added: the controllers after it are not added, and the error wraps
    the cause.  With a nil result every controller was added, once. *)
Theorem addToManager_stops_at_the_first_failure
    (mgr : nat) (config : Config) (w : World Ctl B) :
  let '(w', err) := addToManager mgr config w in
  ControllerList w' = ControllerList w /\ logs w' = logs w /\
  exists added,
    calls w' = calls w ++ adds mgr config added /\
    (err = None -> added = ControllerList w) /\
    (forall e, err = Some e ->
       exists before c later cause,
         ControllerList w = before ++ c :: later /\ added = before ++ [c] /\
         errIs e cause = true /\
         Error e = ("failed to add: " ++ Error cause)%string).
Proof.
  destruct (addToManager mgr config w) as [w' err] eqn:E.
  unfold addToManager in E.
  apply addToManager_range_inv in E as (El & Elog & added & Hc & Hnone & Hsome).
  split_and!; auto. exists added. split_and!; auto.
  intros e He. destruct (Hsome e He) as (before & c & later & cause & b &
                                         Hl & Ha & _ & ->).
  exists before, c, later, cause. split_and!; auto.
  - apply errIs_wrapf, errIs_refl.
  - simpl. rewrite string_app_empty_r. reflexivity.
Qed.

(** Whenever [Start] starts a manager, it is the one that [manager.New]
    made with leader election on, the election ID
    [<DriverName>-<Namespace>] in the namespace of the configuration, and
    every controller of [ControllerList] was added to it before, in
    order; starting it is the last call. *)
Theorem Start_starts_the_manager_with_every_controller_added
    (config : Config) (w : World Ctl B) :
  let '(w', out) := Start config w in
  exists l,
    calls w' = calls w ++ l /\
    forall mgr, CallManagerStart mgr ∈ l ->
      exists opts,
        l = [CallReplicationAddToScheme; CallClientGoAddToScheme; CallGetConfigOrDie;
             CallNewManager ContentTypeProtobuf opts]
            ++ adds mgr config (ControllerList w) ++ [CallManagerStart mgr] /\
        LeaderElection opts = true /\
        LeaderElectionID opts = (DriverName config ++ "-" ++ Namespace config)%string /\
        LeaderElectionNamespace opts = Namespace config.
Proof.
  destruct (Start config w) as [w' out] eqn:E.
  unfold Start in E. unfold bind at 1 in E.
  destruct (replicationAddToScheme w) as [w1 r1] eqn:E1.
  apply controller_perform_inv in E1 as (_ & El1 & Ec1 & _).
  destruct r1 as [e|].
  { injection E as <- <-. eexists. split; [exact Ec1|].
    intros mgr Hin. set_solver. }
  unfold bind at 1 in E.
  destruct (clientGoAddToScheme w1) as [w2 r2] eqn:E2.
  apply controller_perform_inv in E2 as (_ & El2 & Ec2 & _).
  destruct r2 as [e|].
  { injection E as <- <-. eexists. split; [rewrite Ec2, Ec1, <- app_assoc; reflexivity|].
    intros mgr Hin. set_solver. }
  unfold bind at 1 in E.
  destruct (GetConfigOrDie w2) as [w3 r3] eqn:E3.
  apply controller_perform_inv in E3 as (_ & El3 & Ec3 & _).
  destruct r3 as [e|].
  { injection E as <- <-. eexists.
    split; [rewrite Ec3, Ec2, Ec1, <- !app_assoc; reflexivity|].
    intros mgr Hin. set_solver. }
  unfold Start_manager in E. unfold bind at 1 in E.
  destruct (manager_New ContentTypeProtobuf (startOptions config) w3) as [w4 r4] eqn:E4.
  apply controller_perform_inv in E4 as (_ & El4 & Ec4 & _).
  destruct r4 as [mgr0|e].
  2:{ unfold bind, ErrorLogMsg, ret in E. injection E as <- <-. simpl. eexists.
      split; [rewrite Ec4, Ec3, Ec2, Ec1, <- !app_assoc; reflexivity|].
      intros mgr Hin. set_solver. }
  unfold bind at 1 in E.
  destruct (addToManager mgr0 config w4) as [w5 r5] eqn:E5.
  unfold addToManager in E5.
  apply addToManager_range_inv in E5 as (El5 & _ & added & Ec5 & Hnone & _).
  destruct r5 as [e|].
  { unfold bind, ErrorLogMsg, ret in E. injection E as <- <-. simpl. eexists.
    split; [rewrite Ec5, Ec4, Ec3, Ec2, Ec1, <- !app_assoc; reflexivity|].
    intros mgr Hin. exfalso. simpl in Hin.
    repeat (apply elem_of_cons in Hin as [Hin|Hin]; [discriminate|]).
    unfold adds in Hin. apply list_elem_of_In, in_map_iff in Hin as (c & Hc & _).
    discriminate. }
  rewrite (Hnone eq_refl) in Ec5. rewrite El4, El3, El2, El1 in Ec5.
  unfold bind at 1 in E.
  destruct (mgr_Start mgr0 w5) as [w6 r6] eqn:E6.
  apply controller_perform_inv in E6 as (_ & El6 & Ec6 & _).
  assert (Hc : calls w' = calls w6).
  { destruct r6; unfold bind, ErrorLogMsg, ret in E; injection E as <- <-; reflexivity. }
  eexists. split.
  { rewrite Hc, Ec6, Ec5, Ec4, Ec3, Ec2, Ec1, <- !app_assoc. reflexivity. }
  intros mgr Hin. simpl in Hin.
  repeat (apply elem_of_cons in Hin as [Hin|Hin]; [discriminate|]).
  apply elem_of_app in Hin as [Hin|Hin].
  { unfold adds in Hin. apply list_elem_of_In, in_map_iff in Hin as (c & Hc' & _).
    discriminate. }
  apply list_elem_of_singleton in Hin. injection Hin as ->.
  exists (startOptions config). split_and!; reflexivity.
Qed.

(** [Start] logs one line exactly when it returns an error, and none
    when it returns nil, panics or ends the process.  A returned error
    is what the last call answered: the error of [manager.New] or of the
    manager's [Start] as it is, the error of a controller's [Add] behind
    the prefix of [addToManager]. *)
Theorem Start_logs_each_returned_error_once (config : Config) (w : World Ctl B) :
  let '(w', out) := Start config w in
  ControllerList w' = ControllerList w /\
  match out with
  | Ended (Some e) =>
      exists line before c,
        logs w' = logs w ++ [line] /\ calls w' = before ++ [c] /\
        match c with
        | CallNewManager ct opts =>
            exists b, answerNewManager ct opts b = (cluster w', Err e)
        | CallManagerStart mgr =>
            exists b, answerManagerStart mgr b = (cluster w', Some e)
        | CallAdd c0 mgr cfg =>
            exists b cause,
              answerAdd c0 mgr cfg b = (cluster w', Some cause) /\
              e = errWrapf "failed to add: " cause ""
        | _ => False
        end
  | _ => logs w' = logs w
  end.
Proof.
  destruct (Start config w) as [w' out] eqn:E.
  unfold Start in E. unfold bind at 1 in E.
  destruct (replicationAddToScheme w) as [w1 r1] eqn:E1.
  apply controller_perform_inv in E1 as (_ & El1 & _ & Elog1).
  destruct r1 as [e|].
  { injection E as <- <-. split_and!; auto. }
  unfold bind at 1 in E.
  destruct (clientGoAddToScheme w1) as [w2 r2] eqn:E2.
  apply controller_perform_inv in E2 as (_ & El2 & _ & Elog2).
  destruct r2 as [e|].
  { injection E as <- <-. split_and!; auto; congruence. }
  unfold bind at 1 in E.
  destruct (GetConfigOrDie w2) as [w3 r3] eqn:E3.
  apply controller_perform_inv in E3 as (_ & El3 & _ & Elog3).
  destruct r3 as [e|].
  { injection E as <- <-. split_and!; auto; congruence. }
  unfold Start_manager in E. unfold bind at 1 in E.
  destruct (manager_New ContentTypeProtobuf (startOptions config) w3) as [w4 r4] eqn:E4.
  apply controller_perform_inv in E4 as (Ea4 & El4 & Ec4 & Elog4).
  destruct r4 as [mgr0|e].
  2:{ unfold bind, ErrorLogMsg, ret in E. injection E as <- <-. simpl.
      split; [congruence|]. eexists _, _, _. split_and!.
      - rewrite Elog4, Elog3, Elog2, Elog1. reflexivity.
      - exact Ec4.
      - simpl. eauto. }
  unfold bind at 1 in E.
  destruct (addToManager mgr0 config w4) as [w5 r5] eqn:E5.
  unfold addToManager in E5.
  apply addToManager_range_inv in E5 as (El5 & Elog5 & added & Ec5 & _ & Hsome).
  destruct r5 as [e|].
  { unfold bind, ErrorLogMsg, ret in E. injection E as <- <-. simpl.
    split; [congruence|].
    destruct (Hsome e eq_refl) as (before & c & later & cause & b & _ & -> & Ha & ->).
    eexists _, (calls w4 ++ adds mgr0 config before), (CallAdd c mgr0 config). split_and!.
    - rewrite Elog5, Elog4, Elog3, Elog2, Elog1. reflexivity.
    - rewrite Ec5. unfold adds. rewrite map_app, app_assoc. reflexivity.
    - simpl. eauto. }
  unfold bind at 1 in E.
  destruct (mgr_Start mgr0 w5) as [w6 r6] eqn:E6.
  apply controller_perform_inv in E6 as (Ea6 & El6 & Ec6 & Elog6).
  destruct r6 as [e|]; unfold bind, ErrorLogMsg, ret in E; injection E as <- <-; simpl.
  - split; [congruence|]. eexists _, _, _. split_and!.
    + rewrite Elog6, Elog5, Elog4, Elog3, Elog2, Elog1. reflexivity.
    + exact Ec6.
    + simpl. eauto.
  - split; congruence.
Qed.

End StartFacts.

Lemma addToManager_stops_at_the_first_failure_witness :
  let w := threeControllers clusterSecondRefused in
  exists w' e before c later,
    addToManager 7 rbdConfig w = (w', Some e) /\
    ControllerList w = before ++ c :: later /\
    calls w' = adds 7 rbdConfig (before ++ [c]).
Proof.
  intros w.
  pose proof (addToManager_stops_at_the_first_failure (B := Script) 7 rbdConfig w) as Hs.
  destruct (addToManager 7 rbdConfig w) as [w' [e|]] eqn:E;
    [|vm_compute in E; discriminate].
  destruct Hs as (_ & _ & added & Hc & _ & Hsome).
  destruct (Hsome e eq_refl) as (before & c & later & cause & Hl & -> & _).
  exists w', e, before, c, later. split_and!; auto.
Defined.

Lemma Start_starts_the_manager_with_every_controller_added_witness :
  let w := threeControllers clusterReady in
  exists w' opts,
    Start rbdConfig w = (w', Ended None) /\
    CallNewManager ContentTypeProtobuf opts ∈ calls w' /\
    LeaderElectionID opts = "rbd.csi.ceph.com-ceph-csi".
Proof.
  intros w.
  pose proof (Start_starts_the_manager_with_every_controller_added (B := Script)
                rbdConfig w) as Hs.
  destruct (Start rbdConfig w) as [w' out] eqn:E.
  destruct Hs as (l & Hc & Hstart).
  vm_compute in E. injection E as <- <-. simpl in Hc. subst l.
  destruct (Hstart 7) as (opts & Hl & _ & Hid & _).
  { repeat first [apply list_elem_of_here | apply list_elem_of_further]. }
  eexists _, opts.
  injection Hl as <-. split_and!.
  - reflexivity.
  - repeat first [apply list_elem_of_here | apply list_elem_of_further].
  - reflexivity.
Defined.

Lemma Start_logs_each_returned_error_once_witness :
  let w := threeControllers clusterSecondRefused in
  exists w' e line, Start rbdConfig w = (w', Ended (Some e)) /\ logs w' = [line].
Proof.
  intros w.
  pose proof (Start_logs_each_returned_error_once (B := Script) rbdConfig w) as Hs.
  destruct (Start rbdConfig w) as [w' [[e|]| |]] eqn:E;
    try (vm_compute in E; discriminate).
  destruct Hs as (_ & line & before & c & Hlog & _).
  exists w', e, line. split; [reflexivity | exact Hlog].
Defined.

End ControllerFacts.
